(** * Verification of the kwant tutorial notebooks

    Two notebooks are embedded:
    - [2.1.Discretizing-Hamiltonians-computing-spectra.ipynb]: the circular
      quantum dot on a square lattice (module [Dot]);
    - [3.4.graphene_qshe.ipynb]: graphene, the Haldane model and the
      Kane-Mele model (sections [Momentum] and [Notebook34], modules
      [Haldane] and [KaneMele]).

    Python floats are idealised as the real numbers [R] and Python complex
    numbers as pairs of reals; rounding is not modelled.  Python exceptions
    are values of [exn]; code that calls into numpy, scipy, kwant or
    matplotlib is written over an arbitrary monad [M] in which the external
    calls live, so that the same definition can be run in the error monad
    [result] and in the relational monad [outcomes]. *)

From Stdlib Require Import Reals Lra Lia ZArith List Bool Classical_Prop.
From ExtLib Require Import Structures.Monad.
Import ListNotations.
Import MonadNotation.
Local Open Scope monad_scope.
Local Open Scope R_scope.

(** ** Python exceptions and the error monad *)

Inductive exn : Type :=
| LinAlgError
| ValueError
| IndexError
| KeyError
| LibraryError (code : nat).

Inductive result (A : Type) : Type :=
| Ok (a : A)
| Raise (e : exn).
Arguments Ok {A} a.
Arguments Raise {A} e.

Definition result_bind {A B : Type} (m : result A) (f : A -> result B) : result B :=
  match m with
  | Ok a => f a
  | Raise e => Raise e
  end.

#[export] Instance Monad_result : Monad result :=
  {| ret := @Ok; bind := @result_bind |}.

(** ** Real vectors and matrices of size two (numpy arrays of shape (2,) and (2, 2)) *)

Definition vec2 : Type := (R * R)%type.
(** A matrix is the pair of its rows. *)
Definition mat2 : Type := (vec2 * vec2)%type.

(** [M.T] *)
Definition transpose (M : mat2) : mat2 :=
  let '((m00, m01), (m10, m11)) := M in ((m00, m10), (m01, m11)).

(** [M.dot(N)] for two matrices *)
Definition dot (M N : mat2) : mat2 :=
  let '((m00, m01), (m10, m11)) := M in
  let '((n00, n01), (n10, n11)) := N in
  ((m00 * n00 + m01 * n10, m00 * n01 + m01 * n11),
   (m10 * n00 + m11 * n10, m10 * n01 + m11 * n11)).

(** [M.dot(v)] for a matrix and a vector *)
Definition dotv (M : mat2) (v : vec2) : vec2 :=
  let '((m00, m01), (m10, m11)) := M in
  let '(x, y) := v in
  (m00 * x + m01 * y, m10 * x + m11 * y).

(** scalar product of two vectors *)
Definition inner (u v : vec2) : R := fst u * fst v + snd u * snd v.

Definition identity2 : mat2 := ((1, 0), (0, 1)).

Definition det (M : mat2) : R :=
  let '((m00, m01), (m10, m11)) := M in m00 * m11 - m01 * m10.

(** ** The external linear-algebra library

    [np.linalg.inv] and [np.linalg.solve] are calls into numpy; the notebook
    code is written against this interface, in the monad [M] of the external
    calls. *)
Class Linalg (M : Type -> Type) : Type := {
  np_linalg_inv : mat2 -> M mat2;
  np_linalg_solve : mat2 -> vec2 -> M vec2
}.

(** Modelled from the spec: the "linear-algebra library" is an external
    collaborator whose source is not part of the repository.  [exact_inv]
    follows the documentation of [np.linalg.inv] in exact arithmetic: the
    inverse of a square matrix, [LinAlgError] for a singular one.  On floats
    the library raises only when the elimination meets a pivot that is
    exactly zero, so for a singular matrix [LinAlgError] is the documented
    behaviour and not always the observed one; [exact_inv] is used below as
    a library that meets [inv_contract], which speaks of invertible matrices
    only, and nothing is proved from its singular case. *)
Definition exact_inv (M : mat2) : result mat2 :=
  if Req_dec_T (det M) 0 then Raise LinAlgError
  else
    let '((m00, m01), (m10, m11)) := M in
    Ok ((m11 / det M, - m01 / det M), (- m10 / det M, m00 / det M)).

(** Modelled from the spec: [np.linalg.solve A k] of the external
    linear-algebra library, in exact arithmetic: the solution [x] of
    [A x = k], [LinAlgError] for a singular [A]. *)
Definition exact_solve (A : mat2) (k : vec2) : result vec2 :=
  if Req_dec_T (det A) 0 then Raise LinAlgError
  else
    let '((a00, a01), (a10, a11)) := A in
    let '(k0, k1) := k in
    Ok ((k0 * a11 - a01 * k1) / det A, (a00 * k1 - k0 * a10) / det A).

#[export] Instance exact_linalg : Linalg result :=
  {| np_linalg_inv := exact_inv; np_linalg_solve := exact_solve |}.

(** ** kwant lattices *)

(** [kwant.lattice.general prim_vecs basis]: a Bravais lattice with a basis;
    [prim_vecs] holds the primitive vectors as rows, [basis] the coordinates
    of the sites of the unit cell. *)
Record Lattice : Type := kwant_lattice_general {
  prim_vecs : mat2;
  basis : list vec2
}.

(** A sublattice ("site family") is named by its index in
    [lattice.sublattices]. *)
Definition Family : Type := nat.

Record Site : Type := mkSite {
  family : Family;
  tag : Z * Z
}.

(** [site.pos]: the real-space position of a site, [tag . prim_vecs] plus the
    offset of its sublattice. *)
Definition pos (lat : Lattice) (s : Site) : vec2 :=
  let '(i, j) := tag s in
  let '(o0, o1) := nth (family s) (basis lat) (0, 0) in
  let '((a00, a01), (a10, a11)) := prim_vecs lat in
  (IZR i * a00 + IZR j * a10 + o0, IZR i * a01 + IZR j * a11 + o1).

(** ** Notebook 3.4: graphene, Haldane and Kane-Mele *)

(** [SimpleNamespace(t_2=t_2, m=m)], the parameter record. *)
Record SimpleNamespace : Type := mkParams {
  t_2 : R;
  m : R
}.

(** One positional argument of [hamiltonian_submatrix(args=...)]: the
    parameter record or a lattice momentum. *)
Inductive arg : Type :=
| ArgParams (params : SimpleNamespace)
| ArgFloat (x : R).

(** The notebook-global names the functions of notebook 3.4 read when they
    are called: [graphene] and its two sublattices [a] and [b]. *)
Record namespace : Type := mkNamespace {
  graphene : Lattice;
  a : Family;
  b : Family
}.

(** The globals as cell 3 binds them:
    [graphene = kwant.lattice.general([[1, 0], [1/2, np.sqrt(3)/2]],
                                      [[0, 0], [0, 1/np.sqrt(3)]])]
    and [a, b = graphene.sublattices]. *)
Definition notebook : namespace :=
  {| graphene := kwant_lattice_general ((1, 0), (1 / 2, sqrt 3 / 2))
                                       [(0, 0); (0, 1 / sqrt 3)];
     a := 0%nat;
     b := 1%nat |}.

Section Momentum.
Context {M : Type -> Type} {Monad_M : Monad M} {linalg : Linalg M}.
Variable g : namespace.

(** [def momentum_to_lattice(k)]:
    [B = np.array(graphene.prim_vecs).T];
    [A = B.dot(np.linalg.inv(B.T.dot(B)))];
    [return np.linalg.solve(A, k)]. *)
Definition momentum_to_lattice (k : vec2) : M vec2 :=
  let B := transpose (prim_vecs (graphene g)) in
  inv <- np_linalg_inv (dot (transpose B) B) ;;
  let A := dot B inv in
  np_linalg_solve A k.
End Momentum.

(** What the documentation of the linear-algebra library promises for an
    invertible argument, in exact arithmetic. *)
Definition inv_contract (la : Linalg result) : Prop :=
  forall N : mat2, det N <> 0 ->
    exists Ni, @np_linalg_inv _ la N = Ok Ni /\
               dot N Ni = identity2 /\ dot Ni N = identity2.

Definition solve_contract (la : Linalg result) : Prop :=
  forall (A : mat2) (k : vec2), det A <> 0 ->
    exists x, @np_linalg_solve _ la A k = Ok x /\ dotv A x = k.

(** ** Complex numbers and 2x2 complex matrices *)

(** A Python complex number: real and imaginary part. *)
Definition C : Type := (R * R)%type.

Definition RtoC (x : R) : C := (x, 0).
(** [1j] *)
Definition Ci : C := (0, 1).
Definition Cadd (z w : C) : C := (fst z + fst w, snd z + snd w).
Definition Cmul (z w : C) : C :=
  (fst z * fst w - snd z * snd w, fst z * snd w + snd z * fst w).
Definition Cconj (z : C) : C := (fst z, - snd z).
Definition Copp (z : C) : C := (- fst z, - snd z).

(** A 2x2 array with entries in [A], as the pair of its rows. *)
Definition Mat2 (A : Type) : Type := ((A * A) * (A * A))%type.

Definition Mat2_map {A B : Type} (f : A -> B) (X : Mat2 A) : Mat2 B :=
  let '((x00, x01), (x10, x11)) := X in ((f x00, f x01), (f x10, f x11)).

Definition cmat2 : Type := Mat2 C.

Definition cmat2_zero : cmat2 :=
  ((RtoC 0, RtoC 0), (RtoC 0, RtoC 0)).

Definition cmat2_add (X Y : cmat2) : cmat2 :=
  let '((x00, x01), (x10, x11)) := X in
  let '((y00, y01), (y10, y11)) := Y in
  ((Cadd x00 y00, Cadd x01 y01), (Cadd x10 y10, Cadd x11 y11)).

(** matrix product *)
Definition cmat2_mul (X Y : cmat2) : cmat2 :=
  let '((x00, x01), (x10, x11)) := X in
  let '((y00, y01), (y10, y11)) := Y in
  ((Cadd (Cmul x00 y00) (Cmul x01 y10), Cadd (Cmul x00 y01) (Cmul x01 y11)),
   (Cadd (Cmul x10 y00) (Cmul x11 y10), Cadd (Cmul x10 y01) (Cmul x11 y11))).

(** [z * X], a scalar times an array *)
Definition cmat2_scale (z : C) (X : cmat2) : cmat2 := Mat2_map (Cmul z) X.

(** conjugate transpose *)
Definition cmat2_dagger (X : cmat2) : cmat2 :=
  let '((x00, x01), (x10, x11)) := X in
  ((Cconj x00, Cconj x10), (Cconj x01, Cconj x11)).

(** A real array read as a complex one. *)
Definition to_complex (X : mat2) : cmat2 := Mat2_map RtoC X.

(** The Pauli matrices of cell 21 that the code uses:
    [s0 = np.identity(2)] and [sz = np.diag([1, -1])]. *)
Definition s0 : mat2 := ((1, 0), (0, 1)).
Definition sz : mat2 := ((1, 0), (0, -1)).
(** [sx = np.array([[0, 1], [1, 0]])], [sy = np.array([[0, -1j], [1j, 0]])] *)
Definition sx : mat2 := ((0, 1), (1, 0)).
Definition sy : cmat2 := ((RtoC 0, Copp Ci), (Ci, RtoC 0)).

(** [X * c] for a real array and a float, element by element. *)
Definition mat2_scale_r (X : mat2) (c : R) : mat2 := Mat2_map (fun x => x * c) X.

(** ** The callables of the Haldane model (cell 16) *)

Module Haldane.

(** [def nnn_hopping(site1, site2, params): return 1j * params.t_2] *)
Definition nnn_hopping (site1 site2 : Site) (params : SimpleNamespace) : C :=
  Cmul Ci (RtoC (t_2 params)).

(** [def onsite(site, params):
       return params.m * (1 if site.family == a else -1)] *)
Definition onsite (g : namespace) (site : Site) (params : SimpleNamespace) : R :=
  m params * (if Nat.eqb (family site) (a g) then 1 else -1).

End Haldane.

(** ** The callables of the Kane-Mele model (cell 22) *)

Module KaneMele.

(** [def spin_orbit(site1, site2, params): return 1j * params.t_2 * sz] *)
Definition spin_orbit (site1 site2 : Site) (params : SimpleNamespace) : cmat2 :=
  cmat2_scale (Cmul Ci (RtoC (t_2 params))) (to_complex sz).

(** [def onsite(site, params):
       return s0 * params.m * (1 if site.family == a else -1)] *)
Definition onsite (g : namespace) (site : Site) (params : SimpleNamespace) : mat2 :=
  mat2_scale_r (mat2_scale_r s0 (m params))
               (if Nat.eqb (family site) (a g) then 1 else -1).

End KaneMele.

(** [nnn_hoppings_a], [nnn_hoppings_b] and [nnn_hoppings] of cell 15: the
    next-nearest-neighbour hopping kinds [(delta, family_a, family_b)]. *)
Definition nnn_hoppings_a (g : namespace) : list ((Z * Z) * Family * Family) :=
  [ ((-1, 0)%Z, a g, a g); ((0, 1)%Z, a g, a g); ((1, -1)%Z, a g, a g) ].
Definition nnn_hoppings_b (g : namespace) : list ((Z * Z) * Family * Family) :=
  [ ((1, 0)%Z, b g, b g); ((0, -1)%Z, b g, b g); ((-1, 1)%Z, b g, b g) ].
Definition nnn_hoppings (g : namespace) : list ((Z * Z) * Family * Family) :=
  nnn_hoppings_a g ++ nnn_hoppings_b g.

(** ** The external libraries as interfaces

    Every call that leaves the notebook is an operation of one of these
    classes, in the monad [M] of the external calls.  The types of the
    library's objects ([Builder], [Syst], the arrays) are parameters. *)

(** [kwant.builder.HoppingKind(delta, family_a, family_b)] *)
Record HoppingKind : Type := mkHoppingKind {
  delta : Z * Z;
  family_a : Family;
  family_b : Family
}.

(** [kwant.builder.HoppingKind( *hopping )] for a triple of [nnn_hoppings]. *)
Definition HoppingKind_of (hopping : (Z * Z) * Family * Family) : HoppingKind :=
  let '(d, fa, fb) := hopping in mkHoppingKind d fa fb.

(** A Python value that [add_hoppings] assigns to hoppings of a builder: a
    number, an array, or one of the notebook's callables. *)
Inductive pyvalue : Type :=
| PyInt (z : Z)
| PyArray (X : mat2)
| PyHopping (f : Site -> Site -> SimpleNamespace -> C)
| PyHoppingArray (f : Site -> Site -> SimpleNamespace -> cmat2).

Class Kwant (M : Type -> Type) (Builder Syst Ham : Type) : Type := {
  (** [lat.neighbors(n)] *)
  lattice_neighbors : Lattice -> nat -> M (list HoppingKind);
  (** [syst[hopping_kinds] = value] *)
  builder_setitem : Builder -> list HoppingKind -> pyvalue -> M unit;
  (** [wraparound(builder)] *)
  wraparound : Builder -> M Builder;
  (** [builder.finalized()] *)
  finalized : Builder -> M Syst;
  (** [syst.hamiltonian_submatrix(args=...)] *)
  hamiltonian_submatrix : Syst -> list arg -> M Ham;
  (** [kwant.plotter.bands(syst, args)] *)
  plotter_bands : Syst -> list arg -> M unit;
  (** [kwant.plotter.map(syst, values)] *)
  plotter_map : Syst -> list R -> M unit
}.

Class Numpy (M : Type -> Type) (Ham Cube Grid Evec : Type) : Type := {
  (** [np.linspace(start, stop, num)] *)
  np_linspace : R -> R -> nat -> M (list R);
  (** [np.linalg.eigvalsh(h)] *)
  np_linalg_eigvalsh : Ham -> M (list R);
  (** [np.array(energies).reshape(n, n, -1)] *)
  np_reshape : list (list R) -> nat -> nat -> M Cube;
  np_min : Cube -> M R;
  np_max : Cube -> M R;
  (** [np.meshgrid(x, y)] *)
  np_meshgrid : list R -> list R -> M (Grid * Grid)%type;
  (** [energies.shape[-1]] *)
  shape_last : Cube -> nat;
  (** [energies[:, :, band]] *)
  band_slice : Cube -> nat -> Grid;
  (** [eval[i]] *)
  getitem : list R -> Z -> M R;
  (** [evec[:, i]] *)
  column : Evec -> Z -> M (list C)
}.

Class Pyplot (M : Type -> Type) (Grid Figure Axes : Type) : Type := {
  (** [pyplot.figure()] *)
  pyplot_figure : M Figure;
  (** [fig.add_subplot(1, 1, 1, projection='3d')] *)
  add_subplot : Figure -> M Axes;
  (** [axes.plot_surface(kx, ky, Z, ..., vmin=emin, vmax=emax, ...)] *)
  plot_surface : Axes -> Grid -> Grid -> Grid -> R -> R -> M unit
}.

(** What [print] is called with. *)
Inductive printed : Type :=
| PrintIndex (i : Z)
| PrintEnergy (e : R).

Class Builtins (M : Type -> Type) : Type := {
  print : printed -> M unit
}.

(** A [for] loop over a list that threads the loop's variables [s]. *)
Fixpoint for_ {M : Type -> Type} {Monad_M : Monad M} {A S : Type}
  (xs : list A) (body : A -> S -> M S) (s : S) : M S :=
  match xs with
  | [] => ret s
  | x :: xs' => s' <- body x s ;; for_ xs' body s'
  end.

(** Default arguments of [dispersion_2D]. *)
Definition default_lim : R := 1.5 * PI.
Definition default_num_points : nat := 200.

Section Notebook34.
Context {M : Type -> Type} {Monad_M : Monad M}.
Context {Builder Syst Ham Cube Grid Evec Figure Axes : Type}.
Context {linalg : Linalg M} {kwant : Kwant M Builder Syst Ham}.
Context {numpy : Numpy M Ham Cube Grid Evec} {pyplot : Pyplot M Grid Figure Axes}.
Variable g : namespace.
(** The builders bound by cells 16, 23 and 24. *)
Variables haldane bulk_kane_mele zigzag_kane_mele : Builder.

(** The body of the two nested loops of [dispersion_2D] at one grid point:
    [lattice_k = momentum_to_lattice([kx, ky])];
    [h = syst.hamiltonian_submatrix(args=(list(args) + list(lattice_k)))];
    [energies.append(np.linalg.eigvalsh(h))]. *)
Definition energies_at (syst : Syst) (args : list arg) (kx ky : R)
  (energies : list (list R)) : M (list (list R)) :=
  lattice_k <- momentum_to_lattice g (kx, ky) ;;
  h <- hamiltonian_submatrix syst
         (args ++ [ArgFloat (fst lattice_k); ArgFloat (snd lattice_k)]) ;;
  e <- np_linalg_eigvalsh h ;;
  ret (energies ++ [e]).

(** [energies = []; for kx in momenta: for ky in momenta: ...] *)
Definition grid_energies (syst : Syst) (args : list arg) (momenta : list R)
  : M (list (list R)) :=
  for_ momenta
       (fun kx energies => for_ momenta (energies_at syst args kx) energies)
       [].

(** [def dispersion_2D(syst, args=None, lim=1.5*np.pi, num_points=200)] *)
Definition dispersion_2D (syst : Syst) (args : option (list arg)) (lim : R)
  (num_points : nat) : M unit :=
  let args := match args with None => [] | Some l => l end in
  momenta <- np_linspace (- lim) lim num_points ;;
  energies <- grid_energies syst args momenta ;;
  energies <- np_reshape energies num_points num_points ;;
  emin <- np_min energies ;;
  emax <- np_max energies ;;
  kxky <- np_meshgrid momenta momenta ;;
  fig <- pyplot_figure ;;
  axes <- add_subplot fig ;;
  for_ (seq 0 (shape_last energies))
       (fun band _ =>
          plot_surface axes (fst kxky) (snd kxky) (band_slice energies band)
                       emin emax)
       tt.

(** Cell 16: [def add_hoppings(syst)] of the Haldane model. *)
Definition haldane_add_hoppings (syst : Builder) : M unit :=
  nn <- lattice_neighbors (graphene g) 1 ;;
  builder_setitem syst nn (PyInt 1) ;;
  builder_setitem syst (map HoppingKind_of (nnn_hoppings g))
                  (PyHopping Haldane.nnn_hopping).

(** Cell 16: [@interact def qshe_dispersion(t_2=0, m=.2)]. *)
Definition haldane_qshe_dispersion (t_2 m : R) : M unit :=
  wrapped <- wraparound haldane ;;
  syst <- finalized wrapped ;;
  dispersion_2D syst (Some [ArgParams (mkParams t_2 m)]) default_lim 100.

(** Cell 22: [def add_hoppings(syst)] of the Kane-Mele model. *)
Definition kane_mele_add_hoppings (syst : Builder) : M unit :=
  nn <- lattice_neighbors (graphene g) 1 ;;
  builder_setitem syst nn (PyArray s0) ;;
  builder_setitem syst (map HoppingKind_of (nnn_hoppings g))
                  (PyHoppingArray KaneMele.spin_orbit).

(** Cell 23: [@interact def qshe_dispersion(t_2=0, m=.2)]. *)
Definition kane_mele_qshe_dispersion (t_2 m : R) : M unit :=
  wrapped <- wraparound bulk_kane_mele ;;
  syst <- finalized wrapped ;;
  dispersion_2D syst (Some [ArgParams (mkParams t_2 m)]) default_lim 100.

(** Cell 24: [@interact def qshe_zigzag_dispersion(t_2=0, m=.2)]. *)
Definition qshe_zigzag_dispersion (t_2 m : R) : M unit :=
  syst <- finalized zigzag_kane_mele ;;
  plotter_bands syst [ArgParams (mkParams t_2 m)].

End Notebook34.

(** ** Notebook 2.1: the circular quantum dot *)

(** [x < y] on floats, as a boolean. *)
Definition Rltb (x y : R) : bool := if Rlt_dec x y then true else false.

(** [abs(z)] of a complex number. *)
Definition Cabs (z : C) : R := sqrt (fst z ^ 2 + snd z ^ 2).

Module Dot.

(** The notebook-global integers [t] and [r] that cell [244-253] binds and
    [circle] reads when it is called. *)
Record namespace : Type := mkNamespace {
  t : Z;
  r : Z
}.

(** [t = 1], [r = 15] *)
Definition notebook : namespace := {| t := 1; r := 15 |}.

(** [def circle(pos): x, y = pos; return x**2 + y**2 < r**2] *)
Definition circle (g : namespace) (pos : vec2) : bool :=
  let '(x, y) := pos in
  Rltb (x ^ 2 + y ^ 2) (IZR (r g ^ 2)).

(** [circle] at a site of the square lattice [kwant.lattice.square(a=1)],
    whose position is its integer tag: the same comparison on integers. *)
Definition circle_tag (g : namespace) (tag : Z * Z) : bool :=
  let '(x, y) := tag in
  (x ^ 2 + y ^ 2 <? r g ^ 2)%Z.

Section PlotWf.
Context {M : Type -> Type} {Monad_M : Monad M}.
Context {Builder Syst Ham Cube Grid Evec : Type}.
Context {kwant : Kwant M Builder Syst Ham}.
Context {numpy : Numpy M Ham Cube Grid Evec} {builtins : Builtins M}.
(** The globals [sys] (finalized), [eval] and [evec] of cells [283] and
    [320]. *)
Variable sys : Syst.
Variable eval_ : list R.
Variable evec : Evec.

(** [def plot_wf(i=0):
       print("Plotting wave function with index", i)
       print("energy:", eval[i], "x t")
       kwant.plotter.map(sys, abs(evec[:, i])**2)] *)
Definition plot_wf (i : Z) : M unit :=
  print (PrintIndex i) ;;
  e <- getitem eval_ i ;;
  print (PrintEnergy e) ;;
  col <- column evec i ;;
  plotter_map sys (map (fun z => Cabs z ^ 2) col).
End PlotWf.

End Dot.

(** ** The relational monad: external calls that may depend on, and change,
    the state of the Python process, and that need not be functions *)

(** A computation relates the state [w] before it to its possible
    outcomes: a result and the state after. *)
Definition outcomes (World : Type) (A : Type) : Type :=
  World -> result A * World -> Prop.

Definition outcomes_ret {World A : Type} (x : A) : outcomes World A :=
  fun w o => o = (Ok x, w).

Definition outcomes_bind {World A B : Type} (c : outcomes World A)
  (f : A -> outcomes World B) : outcomes World B :=
  fun w o =>
    (exists x w', c w (Ok x, w') /\ f x w' o) \/
    (exists e w', c w (Raise e, w') /\ o = (Raise e, w')).

#[export] Instance Monad_outcomes (World : Type) : Monad (outcomes World) :=
  {| ret := @outcomes_ret World; bind := @outcomes_bind World |}.

(** A computation is deterministic when the state before it fixes its
    outcome. *)
Definition deterministic {World A : Type} (c : outcomes World A) : Prop :=
  forall w o1 o2, c w o1 -> c w o2 -> o1 = o2.

(** The external libraries are deterministic: each call is. *)
Definition deterministic_linalg {World : Type} (la : Linalg (outcomes World)) : Prop :=
  (forall N, deterministic (@np_linalg_inv _ la N)) /\
  (forall A k, deterministic (@np_linalg_solve _ la A k)).

Definition deterministic_kwant {World Builder Syst Ham : Type}
  (kw : Kwant (outcomes World) Builder Syst Ham) : Prop :=
  (forall lat n, deterministic (@lattice_neighbors _ _ _ _ kw lat n)) /\
  (forall bd kinds v, deterministic (@builder_setitem _ _ _ _ kw bd kinds v)) /\
  (forall bd, deterministic (@wraparound _ _ _ _ kw bd)) /\
  (forall bd, deterministic (@finalized _ _ _ _ kw bd)) /\
  (forall syst args, deterministic (@hamiltonian_submatrix _ _ _ _ kw syst args)) /\
  (forall syst args, deterministic (@plotter_bands _ _ _ _ kw syst args)) /\
  (forall syst values, deterministic (@plotter_map _ _ _ _ kw syst values)).

Definition deterministic_numpy {World Ham Cube Grid Evec : Type}
  (np : Numpy (outcomes World) Ham Cube Grid Evec) : Prop :=
  (forall x y n, deterministic (@np_linspace _ _ _ _ _ np x y n)) /\
  (forall h, deterministic (@np_linalg_eigvalsh _ _ _ _ _ np h)) /\
  (forall l n n', deterministic (@np_reshape _ _ _ _ _ np l n n')) /\
  (forall c, deterministic (@np_min _ _ _ _ _ np c)) /\
  (forall c, deterministic (@np_max _ _ _ _ _ np c)) /\
  (forall x y, deterministic (@np_meshgrid _ _ _ _ _ np x y)) /\
  (forall l i, deterministic (@getitem _ _ _ _ _ np l i)) /\
  (forall v i, deterministic (@column _ _ _ _ _ np v i)).

Definition deterministic_pyplot {World Grid Figure Axes : Type}
  (plt : Pyplot (outcomes World) Grid Figure Axes) : Prop :=
  deterministic (@pyplot_figure _ _ _ _ plt) /\
  (forall fig, deterministic (@add_subplot _ _ _ _ plt fig)) /\
  (forall ax kx ky z lo hi, deterministic (@plot_surface _ _ _ _ plt ax kx ky z lo hi)).

Definition deterministic_builtins {World : Type} (bi : Builtins (outcomes World)) : Prop :=
  forall p, deterministic (@print _ bi p).

(** ** The external calls of a run

    To tell a function that lets an exception pass from one that catches it,
    and a function that makes its calls one after the other from one that
    does not, the external calls of a run are recorded.  The state of the
    Python process is the history of the calls made so far, each with what
    the library gave back; the libraries are an arbitrary [oracle]: what a
    call gives back may depend on everything that happened before, and need
    not be fixed by it. *)
Section Traces.
Context {Builder Syst Ham Cube Grid Evec Figure Axes : Type}.

(** An external call: the operation and its arguments. *)
Inductive call : Type :=
| CallInv (N : mat2)
| CallSolve (A : mat2) (k : vec2)
| CallNeighbors (lat : Lattice) (n : nat)
| CallSetitem (bd : Builder) (kinds : list HoppingKind) (v : pyvalue)
| CallWraparound (bd : Builder)
| CallFinalized (bd : Builder)
| CallHamiltonianSubmatrix (syst : Syst) (args : list arg)
| CallPlotterBands (syst : Syst) (args : list arg)
| CallPlotterMap (syst : Syst) (values : list R)
| CallLinspace (start stop : R) (num : nat)
| CallEigvalsh (h : Ham)
| CallReshape (energies : list (list R)) (n n' : nat)
| CallMin (c : Cube)
| CallMax (c : Cube)
| CallMeshgrid (x y : list R)
| CallGetitem (l : list R) (i : Z)
| CallColumn (v : Evec) (i : Z)
| CallFigure
| CallAddSubplot (fig : Figure)
| CallPlotSurface (ax : Axes) (kx ky z : Grid) (emin emax : R)
| CallPrint (p : printed).

(** What a call gives back, a value or an exception, by the type of the
    value. *)
Inductive answer : Type :=
| AnsMat2 (r : result mat2)
| AnsVec2 (r : result vec2)
| AnsKinds (r : result (list HoppingKind))
| AnsUnit (r : result unit)
| AnsBuilder (r : result Builder)
| AnsSyst (r : result Syst)
| AnsHam (r : result Ham)
| AnsFloats (r : result (list R))
| AnsCube (r : result Cube)
| AnsFloat (r : result R)
| AnsGrids (r : result (Grid * Grid))
| AnsComplexes (r : result (list C))
| AnsFigure (r : result Figure)
| AnsAxes (r : result Axes).

Definition event : Type := (call * answer)%type.
Definition history : Type := list event.

Definition exn_of {X : Type} (r : result X) : option exn :=
  match r with
  | Ok _ => None
  | Raise e => Some e
  end.

(** The exception that a call raised, if it raised one. *)
Definition raised (a : answer) : option exn :=
  match a with
  | AnsMat2 r => exn_of r
  | AnsVec2 r => exn_of r
  | AnsKinds r => exn_of r
  | AnsUnit r => exn_of r
  | AnsBuilder r => exn_of r
  | AnsSyst r => exn_of r
  | AnsHam r => exn_of r
  | AnsFloats r => exn_of r
  | AnsCube r => exn_of r
  | AnsFloat r => exn_of r
  | AnsGrids r => exn_of r
  | AnsComplexes r => exn_of r
  | AnsFigure r => exn_of r
  | AnsAxes r => exn_of r
  end.

(** No call of [l] raised. *)
Definition quiet (l : history) : Prop :=
  Forall (fun ev => raised (snd ev) = None) l.

(** Exceptions propagate through [c]: in every run of [c], a run that
    returns a value has made no call that raised, and a run that raises [e]
    has ended with the call that raised [e], the first call of the run to
    raise.  A computation that catches an exception (to go on, to call
    again, or to return a value that stands for the failure), that replaces
    one exception by another, or that raises by itself, has a run that
    breaks this. *)
Definition exceptions_propagate {A : Type} (c : outcomes history A) : Prop :=
  forall h res h', c h (res, h') ->
    exists l, h' = h ++ l /\
      match res with
      | Ok _ => quiet l
      | Raise e =>
          exists l' ev, l = l' ++ [ev] /\ quiet l' /\ raised (snd ev) = Some e
      end.

(** Two sequences of calls that are the same up to a call that is the same
    in both and was answered differently. *)
Definition differ_in_an_answer (l1 l2 : history) : Prop :=
  exists p c a1 a2 t1 t2,
    l1 = p ++ (c, a1) :: t1 /\ l2 = p ++ (c, a2) :: t2 /\ a1 <> a2.

(** [c] makes its external calls one after the other, each one fixed by
    what the calls before it gave back: any two runs of [c], whatever
    happened before them, make the same calls in the same order, get the
    same answers and end with the same result, or else they make the same
    calls up to one that the libraries answered differently.  A computation
    that leaves the order of two calls open, or that varies for another
    reason than an answer of the libraries, has two runs that break this. *)
Definition sequential {A : Type} (c : outcomes history A) : Prop :=
  forall h1 h2 res1 res2 h1' h2',
    c h1 (res1, h1') -> c h2 (res2, h2') ->
    exists l1 l2,
      h1' = h1 ++ l1 /\ h2' = h2 ++ l2 /\
      ((l1 = l2 /\ res1 = res2) \/ differ_in_an_answer l1 l2).

(** The libraries: which answers a call may get after a history. *)
Definition libraries : Type := history -> call -> answer -> Prop.

(** Libraries whose answer to a call is fixed by the history. *)
Definition fixed_by_history (oracle : libraries) : Prop :=
  forall h c a1 a2, oracle h c a1 -> oracle h c a2 -> a1 = a2.

Variable oracle : libraries.

(** An external call: it gets one of the answers the libraries may give,
    and the call and the answer are added to the history. *)
Definition external {X : Type} (c : call) (inj : result X -> answer)
  : outcomes history X :=
  fun h o => exists r, oracle h c (inj r) /\ o = (r, h ++ [(c, inj r)]).

Definition traced_linalg : Linalg (outcomes history) :=
  {| np_linalg_inv := fun N => external (CallInv N) AnsMat2;
     np_linalg_solve := fun A k => external (CallSolve A k) AnsVec2 |}.

Definition traced_kwant : Kwant (outcomes history) Builder Syst Ham :=
  {| lattice_neighbors := fun lat n => external (CallNeighbors lat n) AnsKinds;
     builder_setitem := fun bd ks v => external (CallSetitem bd ks v) AnsUnit;
     wraparound := fun bd => external (CallWraparound bd) AnsBuilder;
     finalized := fun bd => external (CallFinalized bd) AnsSyst;
     hamiltonian_submatrix := fun s args =>
       external (CallHamiltonianSubmatrix s args) AnsHam;
     plotter_bands := fun s args => external (CallPlotterBands s args) AnsUnit;
     plotter_map := fun s vs => external (CallPlotterMap s vs) AnsUnit |}.

(** [energies.shape[-1]] and [energies[:, :, band]] read an array that the
    process holds; they are no calls into the library. *)
Definition traced_numpy (shape_last : Cube -> nat) (band_slice : Cube -> nat -> Grid)
  : Numpy (outcomes history) Ham Cube Grid Evec :=
  {| np_linspace := fun x y n => external (CallLinspace x y n) AnsFloats;
     np_linalg_eigvalsh := fun h => external (CallEigvalsh h) AnsFloats;
     np_reshape := fun l n n' => external (CallReshape l n n') AnsCube;
     np_min := fun c => external (CallMin c) AnsFloat;
     np_max := fun c => external (CallMax c) AnsFloat;
     np_meshgrid := fun x y => external (CallMeshgrid x y) AnsGrids;
     shape_last := shape_last;
     band_slice := band_slice;
     getitem := fun l i => external (CallGetitem l i) AnsFloat;
     column := fun v i => external (CallColumn v i) AnsComplexes |}.

Definition traced_pyplot : Pyplot (outcomes history) Grid Figure Axes :=
  {| pyplot_figure := external CallFigure AnsFigure;
     add_subplot := fun fig => external (CallAddSubplot fig) AnsAxes;
     plot_surface := fun ax kx ky z emin emax =>
       external (CallPlotSurface ax kx ky z emin emax) AnsUnit |}.

Definition traced_builtins : Builtins (outcomes history) :=
  {| print := fun p => external (CallPrint p) AnsUnit |}.

End Traces.
Arguments call : clear implicits.
Arguments answer : clear implicits.
Arguments event : clear implicits.
Arguments history : clear implicits.
Arguments libraries : clear implicits.

(** *** Two variants that the notebooks do not contain

    What [momentum_to_lattice] would be with a handler around
    [np.linalg.inv] that makes the call again, and a computation that leaves
    the order of two calls open.  They are no part of the notebooks: they
    show that [exceptions_propagate] and [sequential] tell such code from
    the functions of the notebooks. *)

(** [try: c  except Exception as e: handler(e)] *)
Definition try_except {World A : Type} (c : outcomes World A)
  (handler : exn -> outcomes World A) : outcomes World A :=
  fun w o =>
    (exists x w', c w (Ok x, w') /\ o = (Ok x, w')) \/
    (exists e w', c w (Raise e, w') /\ handler e w' o).

Definition retrying_momentum_to_lattice {World : Type}
  {linalg : Linalg (outcomes World)} (g : namespace) (k : vec2)
  : outcomes World vec2 :=
  let B := transpose (prim_vecs (graphene g)) in
  inv <- try_except (np_linalg_inv (dot (transpose B) B))
                    (fun _ => np_linalg_inv (dot (transpose B) B)) ;;
  let A := dot B inv in
  np_linalg_solve A k.

(** Two computations, run in one order or the other. *)
Definition in_any_order {World A B : Type} (c1 : outcomes World A)
  (c2 : outcomes World B) : outcomes World (A * B) :=
  fun w o =>
    (x <- c1 ;; y <- c2 ;; ret (x, y)) w o \/
    (y <- c2 ;; x <- c1 ;; ret (x, y)) w o.

(** ** A stand-in for the external libraries

    A small library that is good enough to run the notebook functions on
    concrete inputs: a one-band model whose 1x1 Hamiltonian is
    [2 cos k2] at lattice momentum [(k1, k2)], arrays as flat lists, and
    plotting calls that do nothing. *)

(** Modelled from the spec: [np.linspace(start, stop, num)] of the external
    numerical library, by its documentation: [num] evenly spaced samples
    over the closed interval. *)
Definition linspace (start stop : R) (num : nat) : list R :=
  match num with
  | O => []
  | S O => [start]
  | _ => map (fun i => start + INR i * ((stop - start) / INR (num - 1)))
             (seq 0 num)
  end.

Definition last_float (args : list arg) : R :=
  match last args (ArgFloat 0) with
  | ArgFloat x => x
  | ArgParams _ => 0
  end.

Definition array_min (c : list (list R)) : result R :=
  match concat c with
  | [] => Raise ValueError
  | x :: xs => Ok (fold_right Rmin x xs)
  end.

Definition array_max (c : list (list R)) : result R :=
  match concat c with
  | [] => Raise ValueError
  | x :: xs => Ok (fold_right Rmax x xs)
  end.

Definition list_getitem {A : Type} (l : list A) (i : Z) : result A :=
  let n := Z.of_nat (length l) in
  let j := if (i <? 0)%Z then (i + n)%Z else i in
  if ((0 <=? j) && (j <? n))%Z
  then match nth_error l (Z.to_nat j) with
       | Some x => Ok x
       | None => Raise IndexError
       end
  else Raise IndexError.

#[export] Instance oneband_kwant : Kwant result unit unit R :=
  {| lattice_neighbors := fun _ _ => Ok [];
     builder_setitem := fun _ _ _ => Ok tt;
     wraparound := fun bd => Ok bd;
     finalized := fun _ => Ok tt;
     hamiltonian_submatrix := fun _ args => Ok (2 * cos (last_float args));
     plotter_bands := fun _ _ => Ok tt;
     plotter_map := fun _ _ => Ok tt |}.

#[export] Instance list_numpy : Numpy result R (list (list R)) (list R) (list (list C)) :=
  {| np_linspace := fun start stop num => Ok (linspace start stop num);
     np_linalg_eigvalsh := fun h => Ok [h];
     np_reshape := fun energies _ _ => Ok energies;
     np_min := array_min;
     np_max := array_max;
     np_meshgrid := fun x y =>
       Ok (flat_map (fun _ => x) y, flat_map (fun yv => map (fun _ => yv) x) y);
     shape_last := fun c => match c with [] => O | e :: _ => length e end;
     band_slice := fun c band => map (fun e => nth band e 0) c;
     getitem := list_getitem;
     column := list_getitem |}.

#[export] Instance silent_pyplot : Pyplot result (list R) unit unit :=
  {| pyplot_figure := Ok tt;
     add_subplot := fun _ => Ok tt;
     plot_surface := fun _ _ _ _ _ _ => Ok tt |}.

#[export] Instance silent_builtins : Builtins result :=
  {| print := fun _ => Ok tt |}.

(** ** The spec's reading of the loop body of [dispersion_2D]

    "Entirely determined by the external library": the energies at the grid
    point [(kx, ky)] as the library alone would give them, the momentum
    handed over as it is. *)
Section LibraryOnly.
Context {M : Type -> Type} {Monad_M : Monad M}.
Context {Builder Syst Ham Cube Grid Evec : Type}.
Context {kwant : Kwant M Builder Syst Ham} {numpy : Numpy M Ham Cube Grid Evec}.

Definition library_only_energies_at (syst : Syst) (args : list arg) (kx ky : R)
  (energies : list (list R)) : M (list (list R)) :=
  h <- hamiltonian_submatrix syst (args ++ [ArgFloat kx; ArgFloat ky]) ;;
  e <- np_linalg_eigvalsh h ;;
  ret (energies ++ [e]).
End LibraryOnly.

(** The claim that the repository's own computations have no influence on
    the values: whatever the libraries are, the loop body computes what the
    libraries give at the grid point itself. *)
Definition determined_by_library_alone : Prop :=
  forall (Builder Syst Ham Cube Grid Evec : Type)
         (la : Linalg result) (kw : Kwant result Builder Syst Ham)
         (np : Numpy result Ham Cube Grid Evec)
         (syst : Syst) (args : list arg) (kx ky : R) (energies : list (list R)),
    inv_contract la -> solve_contract la ->
    energies_at notebook syst args kx ky energies
    = library_only_energies_at syst args kx ky energies.

(** ** A model of the tight-binding library (kwant)

    The "lattice/Hamiltonian builder" and the "finalizer" are external
    collaborators; their source is not part of the repository.  The model
    follows the spec's glossary (a Hamiltonian is onsite terms plus hopping
    terms) and the library's documented behaviour: a builder maps sites to
    onsite values and ordered pairs of sites to hopping values, stores a
    hopping in one direction and marks the reverse direction as its
    Hermitian conjugate, and a finalized system fixes the order of the sites
    and answers [hamiltonian_submatrix]. *)

(** Modelled from the spec: the values of the library's builder (its source
    is missing).  What a value of a site or a hopping must support: kwant
    treats numbers and square arrays alike. *)
Class Orbital (V : Type) : Type := {
  vzero : V;
  vadd : V -> V -> V;
  (** a complex number times a value *)
  vscale : C -> V -> V;
  (** [herm_conj(value)]: the conjugate (transpose) *)
  herm_conj : V -> V
}.

#[export] Instance Orbital_C : Orbital C :=
  {| vzero := RtoC 0; vadd := Cadd; vscale := Cmul; herm_conj := Cconj |}.

#[export] Instance Orbital_cmat2 : Orbital cmat2 :=
  {| vzero := cmat2_zero; vadd := cmat2_add; vscale := cmat2_scale;
     herm_conj := cmat2_dagger |}.

Class OrbitalLaws (V : Type) {orbital : Orbital V} : Prop := {
  herm_conj_involutive : forall v : V, herm_conj (herm_conj v) = v;
  herm_conj_vzero : herm_conj (vzero : V) = vzero;
  herm_conj_vadd : forall v w : V,
      herm_conj (vadd v w) = vadd (herm_conj v) (herm_conj w);
  vadd_comm : forall v w : V, vadd v w = vadd w v
}.

(** A square matrix of values, by its entries. *)
Record matrix (V : Type) : Type := mkMatrix {
  dim : nat;
  entry : nat -> nat -> V
}.
Arguments dim {V} _.
Arguments entry {V} _ _ _.

(** [H] equals its own conjugate transpose. *)
Definition hermitian {V : Type} {orbital : Orbital V} (H : matrix V) : Prop :=
  forall i j : nat, (i < dim H)%nat -> (j < dim H)%nat ->
    entry H i j = herm_conj (entry H j i).

Definition tag_eqb (t1 t2 : Z * Z) : bool :=
  ((fst t1 =? fst t2) && (snd t1 =? snd t2))%Z.

Definition tag_add (t1 t2 : Z * Z) : Z * Z :=
  (fst t1 + fst t2, snd t1 + snd t2)%Z.

Definition tag_sub (t1 t2 : Z * Z) : Z * Z :=
  (fst t1 - fst t2, snd t1 - snd t2)%Z.

Definition tag_mem (t : Z * Z) (l : list (Z * Z)) : bool :=
  existsb (tag_eqb t) l.

Definition Site_eqb (s1 s2 : Site) : bool :=
  Nat.eqb (family s1) (family s2) && tag_eqb (tag s1) (tag s2).

(** [kwant.lattice.square(a=1)]: one sublattice, primitive vectors
    [(1, 0)] and [(0, 1)]. *)
Definition kwant_lattice_square : Lattice :=
  kwant_lattice_general ((1, 0), (0, 1)) [(0, 0)].

Module KwantModel.
Section Model.
Context {V : Type} {orbital : Orbital V}.

(** A callable value: [f(site, *args)] or [f(site1, site2, *args)]. *)
Definition onsite_fn : Type := Site -> list arg -> V.
Definition hopping_fn : Type := Site -> Site -> list arg -> V.

(** Modelled from the spec: the library's builder (its source is missing).
    What a builder keeps for an ordered pair of sites: the value, or the
    mark [Other] that says the value is stored with the reverse pair. *)
Inductive edge : Type :=
| Other
| Stored (f : hopping_fn).

(** Modelled from the spec: [kwant.Builder], the library's
    "lattice/Hamiltonian builder" (its source is missing): the sites in the
    order they were added, their onsite values, and what is kept for each
    ordered pair of sites. *)
Record Builder : Type := mkBuilder {
  sites : list Site;
  onsite_value : Site -> option onsite_fn;
  edge_value : Site -> Site -> option edge
}.

(** [kwant.Builder()] *)
Definition Builder_new : Builder :=
  {| sites := []; onsite_value := fun _ => None; edge_value := fun _ _ => None |}.

Definition has_site (bd : Builder) (s : Site) : bool :=
  existsb (Site_eqb s) (sites bd).

(** Modelled from the spec: [builder[site] = value] of the library's
    builder. *)
Definition set_site (bd : Builder) (s : Site) (f : onsite_fn) : Builder :=
  {| sites := if has_site bd s then sites bd else sites bd ++ [s];
     onsite_value := fun s' => if Site_eqb s' s then Some f else onsite_value bd s';
     edge_value := edge_value bd |}.

Definition set_edge (ev : Site -> Site -> option edge) (s1 s2 : Site) (e : edge)
  : Site -> Site -> option edge :=
  fun s1' s2' => if Site_eqb s1' s1 && Site_eqb s2' s2 then Some e else ev s1' s2'.

(** Modelled from the spec: [builder[site1, site2] = value] of the
    library's builder: a hopping from a site to itself and a
    hopping between sites that are not in the builder are errors; otherwise
    the value is stored for [(site1, site2)] and [(site2, site1)] is marked
    [Other]. *)
Definition set_hopping (bd : Builder) (hop : Site * Site) (f : hopping_fn)
  : result Builder :=
  let '(s1, s2) := hop in
  if Site_eqb s1 s2 then Raise ValueError
  else if has_site bd s1 && has_site bd s2 then
    Ok {| sites := sites bd;
          onsite_value := onsite_value bd;
          edge_value := set_edge (set_edge (edge_value bd) s1 s2 (Stored f))
                                 s2 s1 Other |}
  else Raise KeyError.

(** Modelled from the spec: [builder[sites] = value] of the library's
    builder, for the sites a shape yields. *)
Definition setitem_sites (bd : Builder) (ss : list Site) (f : onsite_fn) : Builder :=
  fold_left (fun bd s => set_site bd s f) ss bd.

(** Modelled from the spec: the hoppings a [HoppingKind] of the library
    yields on a builder: [(a, b)] for every
    site [a] of [family_a] such that [b], of [family_b] and with tag
    [a.tag - delta], is a site too. *)
Definition expand (bd : Builder) (kind : HoppingKind) : list (Site * Site) :=
  flat_map
    (fun s1 =>
       if Nat.eqb (family s1) (family_a kind) then
         let s2 := mkSite (family_b kind) (tag_sub (tag s1) (delta kind)) in
         if has_site bd s2 then [(s1, s2)] else []
       else [])
    (sites bd).

(** Modelled from the spec: [builder[hopping_kinds] = value] of the
    library's builder. *)
Definition setitem_hoppings (bd : Builder) (kinds : list HoppingKind)
  (f : hopping_fn) : result Builder :=
  for_ (flat_map (expand bd) kinds) (fun hop bd => set_hopping bd hop f) bd.

(** Modelled from the spec: what the library's "finalizer" produces (its
    source is missing).  A finalized system: the sites in a fixed order, the
    graph of the hoppings as pairs of site indices, and the values. *)
Record FiniteSystem : Type := mkFiniteSystem {
  fsites : list Site;
  graph : list (nat * nat);
  fonsite : Site -> option onsite_fn;
  fedge : Site -> Site -> option edge
}.

Definition site_at (l : list Site) (i : nat) : Site :=
  nth i l (mkSite 0%nat (0, 0)%Z).

(** Modelled from the spec: [builder.finalized()], the library's
    "finalizer": it "fixes site ordering and graph shape". *)
Definition finalized (bd : Builder) : FiniteSystem :=
  let n := length (sites bd) in
  {| fsites := sites bd;
     graph := filter
                (fun ij => match edge_value bd (site_at (sites bd) (fst ij))
                                            (site_at (sites bd) (snd ij)) with
                           | Some _ => true
                           | None => false
                           end)
                (list_prod (seq 0 n) (seq 0 n));
     fonsite := onsite_value bd;
     fedge := edge_value bd |}.

(** Modelled from the spec: [syst.hamiltonian(i, j, *args)] of the
    library: the onsite value for [i = j]; for a
    hopping the stored value, or the Hermitian conjugate of the value stored
    with the reverse pair; zero where there is no hopping. *)
Definition hamiltonian (syst : FiniteSystem) (i j : nat) (args : list arg) : V :=
  let si := site_at (fsites syst) i in
  let sj := site_at (fsites syst) j in
  if Nat.eqb i j then
    match fonsite syst si with
    | Some f => f si args
    | None => vzero
    end
  else
    match fedge syst si sj with
    | Some (Stored f) => f si sj args
    | Some Other =>
        match fedge syst sj si with
        | Some (Stored f) => herm_conj (f sj si args)
        | _ => vzero
        end
    | None => vzero
    end.

(** Modelled from the spec: [syst.hamiltonian_submatrix(args=args)] of the
    library, the matrix "extracted" from a finalized system. *)
Definition hamiltonian_submatrix (syst : FiniteSystem) (args : list arg) : matrix V :=
  {| dim := length (fsites syst);
     entry := fun i j => hamiltonian syst i j args |}.

(** The invariant of a builder: no hopping from a site to itself, and a
    pair is marked [Other] exactly when the reverse pair stores a value. *)
Definition edges_paired (bd : Builder) : Prop :=
  (forall s, edge_value bd s s = None) /\
  (forall s1 s2, edge_value bd s1 s2 = Some Other <->
                 exists f, edge_value bd s2 s1 = Some (Stored f)).

(** A hopping that [set_hopping] accepts. *)
Definition valid_hopping (bd : Builder) (hop : Site * Site) : Prop :=
  fst hop <> snd hop /\ has_site bd (fst hop) = true /\ has_site bd (snd hop) = true.

End Model.
Arguments Builder V : clear implicits.
Arguments FiniteSystem V : clear implicits.
Arguments edge V : clear implicits.
Arguments onsite_fn V : clear implicits.
Arguments hopping_fn V : clear implicits.
End KwantModel.

(** *** Shapes

    Modelled from the spec: [lat.shape(function, start)] yields the sites of
    the lattice at which [function(site.pos)] holds and that are connected
    to [start]; the library finds them by a flood fill over the tags, shell
    by shell.  A shape without a site at [start] is a [ValueError].  [fuel]
    bounds the number of shells; [None] means the bound was too small. *)

Definition deltas : list (Z * Z) := [(1, 0); (0, 1); (-1, 0); (0, -1)]%Z.

(** The sites with tag [tg], one per sublattice, that lie inside. *)
Definition hits (lat : Lattice) (inside : Site -> bool) (tg : Z * Z) : list Site :=
  filter inside (map (fun fam => mkSite fam tg) (seq 0 (length (basis lat)))).

Definition add_new (inner outer tmp : list (Z * Z)) (nt : Z * Z) : list (Z * Z) :=
  if tag_mem nt inner || tag_mem nt outer || tag_mem nt tmp then tmp
  else tmp ++ [nt].

(** Modelled from the spec: one pass of the library's flood fill over the
    tags [todo] of the outer shell. *)
Fixpoint sweep (lat : Lattice) (inside : Site -> bool) (inner outer : list (Z * Z))
  (todo tmp : list (Z * Z)) (found : list Site) : list (Z * Z) * list Site :=
  match todo with
  | [] => (tmp, found)
  | tg :: todo' =>
      match hits lat inside tg with
      | [] => sweep lat inside inner outer todo' tmp found
      | hs =>
          sweep lat inside inner outer todo'
                (fold_left (add_new inner outer) (map (tag_add tg) deltas) tmp)
                (found ++ hs)
      end
  end.

(** Modelled from the spec: the library's flood fill, shell after shell. *)
Fixpoint flood (fuel : nat) (lat : Lattice) (inside : Site -> bool)
  (inner outer : list (Z * Z)) (found : list Site) : option (list Site) :=
  match outer with
  | [] => Some found
  | _ :: _ =>
      match fuel with
      | O => None
      | S fuel' =>
          let '(tmp, found') := sweep lat inside inner outer outer [] found in
          flood fuel' lat inside outer tmp found'
      end
  end.

(** Modelled from the spec: the sites the library's [lat.shape] yields for
    a predicate on sites. *)
Definition shape_sites (fuel : nat) (lat : Lattice) (inside : Site -> bool)
  (start : Z * Z) : option (result (list Site)) :=
  match hits lat inside start with
  | [] => Some (Raise ValueError)
  | _ :: _ => option_map Ok (flood fuel lat inside [] [start] [])
  end.

(** Modelled from the spec: [lat.shape(function, start)] of the library,
    with [function] called on positions. *)
Definition shape (fuel : nat) (lat : Lattice) (function : vec2 -> bool)
  (start : Z * Z) : option (result (list Site)) :=
  shape_sites fuel lat (fun s => function (pos lat s)) start.

(** *** The quantum dot of notebook 2.1 *)

Module DotModel.
Import KwantModel.

(** [lat = kwant.lattice.square(a=1)] *)
Definition lat : Lattice := kwant_lattice_square.

(** A Python integer as a value of the complex Hamiltonian. *)
Definition int_value (z : Z) : C := RtoC (IZR z).

(** Modelled from the spec: [lat.neighbors()] on the square lattice, the
    two kinds of nearest-neighbour hoppings. *)
Definition square_neighbors : list HoppingKind :=
  [ mkHoppingKind (1, 0)%Z 0%nat 0%nat; mkHoppingKind (0, 1)%Z 0%nat 0%nat ].

(** Cell [244-253]:
    [sys = kwant.Builder()];
    [sys[lat.shape(circle, (0,0))] = 4 * t];
    [sys[lat.neighbors()] = -t]. *)
Definition build_sys (g : Dot.namespace) (fuel : nat) : option (result (Builder C)) :=
  match shape fuel lat (Dot.circle g) (0, 0)%Z with
  | None => None
  | Some (Raise e) => Some (Raise e)
  | Some (Ok ss) =>
      let sys := setitem_sites Builder_new ss (fun _ _ => int_value (4 * Dot.t g)) in
      Some (setitem_hoppings sys square_neighbors
                             (fun _ _ _ => int_value (- Dot.t g)))
  end.

(** The sites of the dot: the flood fill, run on the integer tags. *)
Definition dot_sites : list Site :=
  Eval vm_compute in
    match shape_sites 30 lat (fun s => Dot.circle_tag Dot.notebook (tag s)) (0, 0)%Z with
    | Some (Ok ss) => ss
    | _ => []
    end.

Fixpoint nodupb (l : list Site) : bool :=
  match l with
  | [] => true
  | s :: l' => negb (existsb (Site_eqb s) l') && nodupb l'
  end.

(** The tags [(x, y)] with [-14 <= x, y <= 14]. *)
Definition window : list (Z * Z) :=
  let range := map (fun n => (Z.of_nat n - 14)%Z) (seq 0 29) in
  list_prod range range.

(** Two sites of the square lattice are nearest neighbours. *)
Definition adjacent (s1 s2 : Site) : bool :=
  let d := tag_sub (tag s1) (tag s2) in
  (Z.abs (fst d) + Z.abs (snd d) =? 1)%Z.

End DotModel.

(** The two anonymous shape functions of notebook 3.4:
    [(lambda pos: True)] and [(lambda pos: abs(pos[1]) < 9)]. *)
Definition everywhere (pos : vec2) : bool := true.
Definition ribbon (pos : vec2) : bool := Rltb (Rabs (snd pos)) 9.

(** *** Systems with translational symmetry, wrapped around

    Modelled from the spec: [wraparound(builder).finalized()] and its
    [hamiltonian_submatrix(args=params + [k1, k2])]; neither wraparound.py
    nor the library is part of the sources.  The model is the "Bloch
    Hamiltonian" of the glossary, the momentum-space representation of a
    periodic lattice Hamiltonian: the sites are those of one unit cell; a
    hopping stored from the cell site [s1] to the site [s2] in the cell with
    tag [R] adds [exp(i k.R) * value] to the block [(s1, s2 wrapped)] and
    its Hermitian conjugate to the transposed block. *)

(** [cmath.exp(1j * theta)] *)
Definition cexp (theta : R) : C := (cos theta, sin theta).

Definition phase (elem : Z * Z) (k : vec2) : C :=
  cexp (IZR (fst elem) * fst k + IZR (snd elem) * snd k).

(** A callable of the notebook, [f(..., params)], called with [*args].
    With an argument list that does not start with the parameter record
    Python raises [TypeError]; the notebooks never do that, and the model
    returns zero there. *)
Definition with_params {V : Type} {orbital : Orbital V}
  (f : SimpleNamespace -> V) (args : list arg) : V :=
  match args with
  | ArgParams params :: _ => f params
  | _ => vzero
  end.

Module Bloch.
Section Periodic.
Context {V : Type} {orbital : Orbital V}.

(** Modelled from the spec: a builder of the library with the
    translational symmetry of the lattice (its source is missing): the
    sites of the unit cell, their onsite value, and the stored hoppings,
    each from a site of the unit cell. *)
Record PeriodicBuilder : Type := mkPeriodic {
  cell_sites : list Site;
  cell_onsite : Site -> list arg -> V;
  stored_hoppings : list ((Site * Site) * (Site -> Site -> list arg -> V))
}.

(** The image of a site in the unit cell at the origin. *)
Definition wrap (s : Site) : Site := mkSite (family s) (0, 0)%Z.

Definition in_cell (cell : list Site) (s : Site) : bool :=
  existsb (Site_eqb s) cell.

(** Modelled from the spec: the hoppings a [HoppingKind] of the library
    yields on a periodic builder. *)
Definition expand (cell : list Site) (kind : HoppingKind) : list (Site * Site) :=
  flat_map
    (fun s1 =>
       if Nat.eqb (family s1) (family_a kind) then
         let s2 := mkSite (family_b kind) (tag_sub (tag s1) (delta kind)) in
         if in_cell cell (wrap s2) then [(s1, s2)] else []
       else [])
    cell.

(** Modelled from the spec: [builder[hopping_kinds] = value] on a periodic
    builder of the library. *)
Definition hoppings (cell : list Site) (kinds : list HoppingKind)
  (f : Site -> Site -> list arg -> V)
  : list ((Site * Site) * (Site -> Site -> list arg -> V)) :=
  map (fun hop => (hop, f)) (flat_map (expand cell) kinds).

(** Modelled from the spec: what one stored hopping adds to the block
    [(r, c)] of the Bloch Hamiltonian that wraparound.py (missing) builds. *)
Definition contribution (params : list arg) (k : vec2) (r c : Site)
  (h : (Site * Site) * (Site -> Site -> list arg -> V)) : V :=
  let '((s1, s2), f) := h in
  let pv := vscale (phase (tag s2) k) (f s1 s2 params) in
  vadd (if Site_eqb s1 r && Site_eqb (wrap s2) c then pv else vzero)
       (if Site_eqb s1 c && Site_eqb (wrap s2) r then herm_conj pv else vzero).

(** Modelled from the spec: the block [(r, c)] of the "Bloch Hamiltonian"
    of a periodic builder, as wraparound.py (missing) and the library build
    it. *)
Definition bloch_entry (pb : PeriodicBuilder) (params : list arg) (k : vec2)
  (r c : Site) : V :=
  fold_left vadd (map (contribution params k r c) (stored_hoppings pb))
            (if Site_eqb r c then cell_onsite pb r params else vzero).

(** Modelled from the spec:
    [wraparound(builder).finalized().hamiltonian_submatrix(args=params + [k1, k2])],
    with wraparound.py and the library missing. *)
Definition hamiltonian_submatrix (pb : PeriodicBuilder) (params : list arg)
  (k : vec2) : matrix V :=
  {| dim := length (cell_sites pb);
     entry := fun i j =>
       bloch_entry pb params k (KwantModel.site_at (cell_sites pb) i)
                   (KwantModel.site_at (cell_sites pb) j) |}.

End Periodic.
Arguments PeriodicBuilder V : clear implicits.

(** Modelled from the spec: the sites that the library's
    [graphene.shape((lambda pos: True), (0, 0))] selects on a builder with
    the translational symmetry of the lattice: the sites with tag [(0, 0)],
    one per sublattice. *)
Definition unit_cell (lat : Lattice) : list Site :=
  hits lat (fun s => everywhere (pos lat s)) (0, 0)%Z.

Section Systems.
Variable g : namespace.
(** [graphene.neighbors(1)], whatever kinds the library returns. *)
Variable neighbors_1 : list HoppingKind.

(** Cell 6: [bulk_graphene[graphene.shape(...)] = 0];
    [bulk_graphene[graphene.neighbors(1)] = 1]. *)
Definition bulk_graphene : PeriodicBuilder C :=
  let cell := unit_cell (graphene g) in
  {| cell_sites := cell;
     cell_onsite := fun _ _ => RtoC 0;
     stored_hoppings := hoppings cell neighbors_1 (fun _ _ _ => RtoC 1) |}.

(** Cell 16: [haldane[graphene.shape(...)] = onsite];
    [haldane[graphene.neighbors(1)] = 1];
    [haldane[[HoppingKind( *hopping ) for hopping in nnn_hoppings]] = nnn_hopping]. *)
Definition haldane : PeriodicBuilder C :=
  let cell := unit_cell (graphene g) in
  {| cell_sites := cell;
     cell_onsite := fun s => with_params (fun params => RtoC (Haldane.onsite g s params));
     stored_hoppings :=
       hoppings cell neighbors_1 (fun _ _ _ => RtoC 1)
       ++ hoppings cell (map HoppingKind_of (nnn_hoppings g))
                   (fun s1 s2 => with_params (Haldane.nnn_hopping s1 s2)) |}.

(** Cells 22 and 23: [bulk_kane_mele[graphene.shape(...)] = onsite];
    [add_hoppings(bulk_kane_mele)]. *)
Definition bulk_kane_mele : PeriodicBuilder cmat2 :=
  let cell := unit_cell (graphene g) in
  {| cell_sites := cell;
     cell_onsite := fun s =>
       with_params (fun params => to_complex (KaneMele.onsite g s params));
     stored_hoppings :=
       hoppings cell neighbors_1 (fun _ _ _ => to_complex s0)
       ++ hoppings cell (map HoppingKind_of (nnn_hoppings g))
                   (fun s1 s2 => with_params (KaneMele.spin_orbit s1 s2)) |}.
End Systems.
End Bloch.

(** ** Spin *)

(** [X] commutes with the spin matrix [sz]. *)
Definition commutes_with_sz (X : cmat2) : Prop :=
  cmat2_mul X (to_complex sz) = cmat2_mul (to_complex sz) X.

(** The spin-up and the spin-down diagonal entry, and the two entries that
    couple the spins. *)
Definition spin_up (X : cmat2) : C := fst (fst X).
Definition spin_down (X : cmat2) : C := snd (snd X).
Definition spin_flip (X : cmat2) : C * C := (snd (fst X), fst (snd X)).

(** Two stored hoppings, of two periodic systems, between the same sites
    and with values that correspond under [phi]. *)
Definition corresponding {V W : Type} (phi : V -> W) (argsV argsW : list arg)
  (hV : (Site * Site) * (Site -> Site -> list arg -> V))
  (hW : (Site * Site) * (Site -> Site -> list arg -> W)) : Prop :=
  fst hV = fst hW /\
  phi (snd hV (fst (fst hV)) (snd (fst hV)) argsV)
  = snd hW (fst (fst hW)) (snd (fst hW)) argsW.

(** ** A session after [finalized()]

    Modelled from the spec: "Finalizer: fixes site ordering and graph shape,
    producing an immutable system from which a matrix can be extracted."
    After [syst = builder.finalized()] a session holds the builder and the
    finalized system; the builder can still be assigned to, and the system
    can be asked for its Hamiltonian matrix. *)
Module Session.
Import KwantModel.
Section Session.
Context {V : Type} {orbital : Orbital V}.

(** Modelled from the spec: the objects a session holds after
    [syst = builder.finalized()] (the library is missing). *)
Record session : Type := mkSession {
  builder : Builder V;
  syst : FiniteSystem V;
  (** the matrices extracted so far, latest first *)
  extracted : list (matrix V)
}.

(** Modelled from the spec: what a session can do next with the library's
    objects. *)
Inductive command : Type :=
| SetSite (s : Site) (f : onsite_fn V)
| SetHopping (hop : Site * Site) (f : hopping_fn V)
| HamiltonianSubmatrix (args : list arg).

(** [syst = builder.finalized()] *)
Definition finalize (bd : Builder V) : session :=
  {| builder := bd; syst := finalized bd; extracted := [] |}.

(** Modelled from the spec: the effect of one command: an assignment
    changes the builder, an extraction reads the "immutable system". *)
Definition step (s : session) (c : command) : session :=
  match c with
  | SetSite st f =>
      {| builder := set_site (builder s) st f; syst := syst s;
         extracted := extracted s |}
  | SetHopping hop f =>
      match set_hopping (builder s) hop f with
      | Ok bd' => {| builder := bd'; syst := syst s; extracted := extracted s |}
      | Raise _ => s
      end
  | HamiltonianSubmatrix args =>
      {| builder := builder s; syst := syst s;
         extracted := hamiltonian_submatrix (syst s) args :: extracted s |}
  end.

Definition run (s : session) (cs : list command) : session :=
  fold_left step cs s.

(** A matrix has the shape of a finalized system: one row per site, in the
    system's order, and zero between different sites that the graph does
    not join. *)
Definition fits (syst : FiniteSystem V) (H : matrix V) : Prop :=
  dim H = length (fsites syst) /\
  forall i j, (i < dim H)%nat -> (j < dim H)%nat -> i <> j ->
              ~ In (i, j) (graph syst) -> entry H i j = vzero.

End Session.
Arguments session V : clear implicits.
Arguments command V : clear implicits.

(** A builder with the single site [a(0, 0)] of graphene whose value is the
    Haldane [onsite] callable, and a chain of two sites of the square
    lattice with the values of the quantum dot. *)
Definition one_site : Builder C :=
  set_site Builder_new (mkSite 0%nat (0, 0)%Z)
           (fun s => with_params (fun params => RtoC (Haldane.onsite notebook s params))).

Definition two_sites : result (Builder C) :=
  setitem_hoppings
    (setitem_sites Builder_new [mkSite 0%nat (0, 0)%Z; mkSite 0%nat (1, 0)%Z]
                   (fun _ _ => RtoC 4))
    DotModel.square_neighbors
    (fun _ _ _ => RtoC (-1)).

End Session.

(** * Further definitions: the reciprocal lattice, time reversal, the grid
      of [dispersion_2D] *)

(** [x1 * u + x2 * v] for a pair of coefficients and two vectors. *)
Definition combination (x : vec2) (u v : vec2) : vec2 :=
  (fst x * fst u + snd x * fst v, fst x * snd u + snd x * snd v).

(** [u + v] for two vectors. *)
Definition vadd2 (u v : vec2) : vec2 := (fst u + fst v, snd u + snd v).

(** The two vectors dual to the primitive vectors of graphene (the columns
    of the matrix [A] that [momentum_to_lattice] computes), and the
    reciprocal lattice vectors, [2 pi] times the dual ones. *)
Definition dual_1 : vec2 := (1, - (1 / sqrt 3)).
Definition dual_2 : vec2 := (0, 2 / sqrt 3).
Definition reciprocal (n1 n2 : Z) : vec2 :=
  combination (2 * PI * IZR n1, 2 * PI * IZR n2) dual_1 dual_2.

(** ** Time reversal

    Time reversal of a spin-1/2 value is [sy . conj(X) . sy], with the
    Pauli matrix [sy] of cell 21; it sends the momentum [k] to [-k]. *)
Definition time_reversal (X : cmat2) : cmat2 :=
  cmat2_mul sy (cmat2_mul (Mat2_map Cconj X) sy).

Definition neg_k (k : vec2) : vec2 := (- fst k, - snd k).

(** ** The Haldane mass

    The coefficient of the sublattice matrix [diag(1, -1)] in the Bloch
    Hamiltonian of the Haldane model, at lattice momentum [k]. *)
Definition haldane_mass (params : SimpleNamespace) (k : vec2) : R :=
  m params - 2 * t_2 params * (sin (fst k) - sin (snd k) + sin (snd k - fst k)).

(** Every hopping kind of the list joins two different sublattices, as
    nearest neighbours of the honeycomb lattice do. *)
Definition between_sublattices (kinds : list HoppingKind) : Prop :=
  Forall (fun kind => family_a kind <> family_b kind) kinds.

(** The two sites of the unit cell of graphene. *)
Definition site_a (g : namespace) : Site := mkSite (a g) (0, 0)%Z.
Definition site_b (g : namespace) : Site := mkSite (b g) (0, 0)%Z.

(** The lattice momenta of the two Dirac points. *)
Definition dirac_K : vec2 := (2 * (PI / 3), - (2 * (PI / 3))).
Definition dirac_K' : vec2 := neg_k dirac_K.

(** ** The figure that [dispersion_2D] draws *)

(** One call [axes.plot_surface(kx, ky, Z, ..., vmin=emin, vmax=emax, ...)]:
    the three arrays and the colour range. *)
Record surface (Grid : Type) : Type := mkSurface {
  surface_x : Grid;
  surface_y : Grid;
  surface_z : Grid;
  surface_vmin : R;
  surface_vmax : R
}.
Arguments mkSurface {Grid} _ _ _ _ _.
Arguments surface_x {Grid} _.
Arguments surface_y {Grid} _.
Arguments surface_z {Grid} _.
Arguments surface_vmin {Grid} _.
Arguments surface_vmax {Grid} _.

(** A computation that returns or raises and that draws: the state is the
    list of the surfaces drawn so far, in the order of the calls. *)
Definition drawing (Grid : Type) (A : Type) : Type :=
  list (surface Grid) -> result A * list (surface Grid).

Definition drawing_ret {Grid A : Type} (x : A) : drawing Grid A :=
  fun drawn => (Ok x, drawn).

Definition drawing_bind {Grid A B : Type} (c : drawing Grid A)
  (f : A -> drawing Grid B) : drawing Grid B :=
  fun drawn =>
    match c drawn with
    | (Ok x, drawn') => f x drawn'
    | (Raise e, drawn') => (Raise e, drawn')
    end.

#[export] Instance Monad_drawing (Grid : Type) : Monad (drawing Grid) :=
  {| ret := @drawing_ret Grid; bind := @drawing_bind Grid |}.

(** A call of a library that draws nothing. *)
Definition no_drawing {Grid A : Type} (r : result A) : drawing Grid A :=
  fun drawn => (r, drawn).

Definition drawing_linalg (Grid : Type) (la : Linalg result) : Linalg (drawing Grid) :=
  {| np_linalg_inv := fun N => no_drawing (@np_linalg_inv _ la N);
     np_linalg_solve := fun A k => no_drawing (@np_linalg_solve _ la A k) |}.

Definition drawing_kwant (Grid : Type) {Builder Syst Ham : Type}
  (kw : Kwant result Builder Syst Ham) : Kwant (drawing Grid) Builder Syst Ham :=
  {| lattice_neighbors := fun lat n => no_drawing (@lattice_neighbors _ _ _ _ kw lat n);
     builder_setitem := fun bd ks v => no_drawing (@builder_setitem _ _ _ _ kw bd ks v);
     wraparound := fun bd => no_drawing (@wraparound _ _ _ _ kw bd);
     finalized := fun bd => no_drawing (@finalized _ _ _ _ kw bd);
     hamiltonian_submatrix := fun s args =>
       no_drawing (@hamiltonian_submatrix _ _ _ _ kw s args);
     plotter_bands := fun s args => no_drawing (@plotter_bands _ _ _ _ kw s args);
     plotter_map := fun s vs => no_drawing (@plotter_map _ _ _ _ kw s vs) |}.

Definition drawing_numpy {Ham Cube Grid Evec : Type}
  (np : Numpy result Ham Cube Grid Evec) : Numpy (drawing Grid) Ham Cube Grid Evec :=
  {| np_linspace := fun x y n => no_drawing (@np_linspace _ _ _ _ _ np x y n);
     np_linalg_eigvalsh := fun h => no_drawing (@np_linalg_eigvalsh _ _ _ _ _ np h);
     np_reshape := fun l n n' => no_drawing (@np_reshape _ _ _ _ _ np l n n');
     np_min := fun c => no_drawing (@np_min _ _ _ _ _ np c);
     np_max := fun c => no_drawing (@np_max _ _ _ _ _ np c);
     np_meshgrid := fun x y => no_drawing (@np_meshgrid _ _ _ _ _ np x y);
     shape_last := @shape_last _ _ _ _ _ np;
     band_slice := @band_slice _ _ _ _ _ np;
     getitem := fun l i => no_drawing (@getitem _ _ _ _ _ np l i);
     column := fun v i => no_drawing (@column _ _ _ _ _ np v i) |}.

(** [pyplot.figure()] and [fig.add_subplot(...)] return the figure and its
    axes; [axes.plot_surface(...)] adds its surface to what is drawn. *)
Definition drawing_pyplot (Grid : Type) : Pyplot (drawing Grid) Grid unit unit :=
  {| pyplot_figure := no_drawing (Ok tt);
     add_subplot := fun _ => no_drawing (Ok tt);
     plot_surface := fun _ kx ky Z emin emax =>
       fun drawn => (Ok tt, drawn ++ [mkSurface kx ky Z emin emax]) |}.

(** How the arrays of the numerical library are read: [A[i, j]] of an array
    of two dimensions and [E[i, j, band]] of one of three. *)
Class Indexing (Cube Grid : Type) : Type := {
  grid_at : Grid -> nat -> nat -> R;
  cube_at : Cube -> nat -> nat -> nat -> R
}.

(** What the documentation of the numerical library says of the calls of
    [dispersion_2D]: [linspace] returns [num] samples; [reshape(n, n', -1)]
    of [n * n'] rows of [bands] numbers keeps the order of the rows (row
    [i * n' + j] becomes [E[i, j, :]]); [meshgrid(x, y)], with its default
    indexing, returns [X[i, j] = x[j]] and [Y[i, j] = y[i]]; and
    [E[:, :, band][i, j] = E[i, j, band]]. *)
Definition numpy_contract {Ham Cube Grid Evec : Type}
  (np : Numpy result Ham Cube Grid Evec) (ix : Indexing Cube Grid) : Prop :=
  (forall start stop num momenta,
      np_linspace start stop num = Ok momenta -> length momenta = num) /\
  (forall energies n n' bands cube,
      length energies = (n * n')%nat ->
      (forall e, In e energies -> length e = bands) ->
      np_reshape energies n n' = Ok cube ->
      shape_last cube = bands /\
      forall i j band, (i < n)%nat -> (j < n')%nat -> (band < bands)%nat ->
        cube_at cube i j band = nth band (nth (i * n' + j) energies []) 0) /\
  (forall xs ys X Y,
      np_meshgrid xs ys = Ok (X, Y) ->
      forall i j, (i < length ys)%nat -> (j < length xs)%nat ->
        grid_at X i j = nth j xs 0 /\ grid_at Y i j = nth i ys 0) /\
  (forall cube band i j,
      (band < shape_last cube)%nat ->
      grid_at (band_slice cube band) i j = cube_at cube i j band).

(** Every Hamiltonian that the eigensolver is given has [bands] eigenvalues. *)
Definition eigvalsh_returns {Ham Cube Grid Evec : Type}
  (np : Numpy result Ham Cube Grid Evec) (bands : nat) : Prop :=
  forall h e, np_linalg_eigvalsh h = Ok e -> length e = bands.

(** *** A stand-in for the numerical library with arrays as nested lists *)

Fixpoint chunks {A : Type} (rows cols : nat) (l : list A) : list (list A) :=
  match rows with
  | O => []
  | S rows' => firstn cols l :: chunks rows' cols (skipn cols l)
  end.

(** Modelled from the spec: [np.array(energies).reshape(n, n', -1)] of the
    external numerical library, by its documentation, for [n * n'] rows;
    [ValueError] otherwise, and for an array without elements, whose last
    dimension cannot be inferred. *)
Definition array_reshape (energies : list (list R)) (n n' : nat)
  : result (list (list (list R))) :=
  if Nat.eqb (length energies) (n * n')
     && negb (Nat.eqb (length (concat energies)) 0)
  then Ok (chunks n n' energies)
  else Raise ValueError.

(** Modelled from the spec: [np.meshgrid(x, y)] of the external numerical
    library, by its documentation: two arrays of [len(y)] rows and [len(x)]
    columns. *)
Definition array_meshgrid (xs ys : list R) : list (list R) * list (list R) :=
  (map (fun _ => xs) ys, map (fun yv => map (fun _ => yv) xs) ys).

#[export] Instance nested_indexing : Indexing (list (list (list R))) (list (list R)) :=
  {| grid_at := fun G i j => nth j (nth i G []) 0;
     cube_at := fun E i j band => nth band (nth j (nth i E []) []) 0 |}.

Definition array_numpy
  : Numpy result R (list (list (list R))) (list (list R)) (list (list C)) :=
  {| np_linspace := fun start stop num => Ok (linspace start stop num);
     np_linalg_eigvalsh := fun h => Ok [h];
     np_reshape := array_reshape;
     np_min := fun E => array_min (concat E);
     np_max := fun E => array_max (concat E);
     np_meshgrid := fun xs ys => Ok (array_meshgrid xs ys);
     shape_last := fun E =>
       match E with (e :: _) :: _ => length e | _ => O end;
     band_slice := fun E band => map (map (fun e => nth band e 0)) E;
     getitem := list_getitem;
     column := list_getitem |}.

(** Modelled from the spec: what the library's [graphene.neighbors(1)]
    returns (its source is missing): the three kinds of hoppings that join a
    site of sublattice [a] to its nearest sites, which are of sublattice
    [b]. *)
Definition graphene_neighbors_1 (g : namespace) : list HoppingKind :=
  [ mkHoppingKind (0, 1)%Z (a g) (b g);
    mkHoppingKind (0, 0)%Z (a g) (b g);
    mkHoppingKind (-1, 1)%Z (a g) (b g) ].

(** The square of the distance between two points. *)
Definition distance2 (p q : vec2) : R :=
  (fst p - fst q) ^ 2 + (snd p - snd q) ^ 2.

(** A lattice momentum that is its own opposite up to a vector of the
    reciprocal lattice: twice the momentum is a multiple of [2 pi] in both
    coordinates. *)
Definition time_reversal_invariant_momentum (k : vec2) : Prop :=
  exists n1 n2 : Z,
    fst k + fst k = 2 * PI * IZR n1 /\ snd k + snd k = 2 * PI * IZR n2.

(** * Theorems *)

Lemma sqrt3_sq : sqrt 3 * sqrt 3 = 3.
Proof. apply sqrt_sqrt; lra. Qed.

Lemma sqrt3_pos : 0 < sqrt 3.
Proof. apply sqrt_lt_R0; lra. Qed.

(** ** Algebra of 2x2 real matrices *)

Ltac mat2_crush :=
  repeat match goal with
         | M : mat2 |- _ => destruct M as [[? ?] [? ?]]
         | v : vec2 |- _ => destruct v as [? ?]
         end;
  unfold dot, dotv, transpose, det, identity2, inner; simpl.

Ltac pair_eq :=
  repeat match goal with
         | |- (_, _) = (_, _) => apply f_equal2
         end.

Lemma dot_assoc (X Y Z : mat2) : dot (dot X Y) Z = dot X (dot Y Z).
Proof. mat2_crush. pair_eq; ring. Qed.

Lemma dotv_dot (X Y : mat2) (v : vec2) : dotv (dot X Y) v = dotv X (dotv Y v).
Proof. mat2_crush. pair_eq; ring. Qed.

Lemma dotv_identity2 (v : vec2) : dotv identity2 v = v.
Proof. mat2_crush. pair_eq; ring. Qed.

Lemma det_dot (X Y : mat2) : det (dot X Y) = det X * det Y.
Proof. mat2_crush. ring. Qed.

Lemma det_identity2 : det identity2 = 1.
Proof. unfold det, identity2. ring. Qed.

Lemma exact_inv_contract : inv_contract exact_linalg.
Proof.
  intros N HN. simpl. unfold exact_inv.
  destruct (Req_dec_T (det N) 0) as [E | _]; [contradiction |].
  destruct N as [[n00 n01] [n10 n11]].
  eexists. split; [reflexivity |].
  unfold det in *. simpl in *.
  split; unfold dot, identity2; pair_eq; field; assumption.
Qed.

Lemma exact_solve_contract : solve_contract exact_linalg.
Proof.
  intros A k HA. simpl. unfold exact_solve.
  destruct (Req_dec_T (det A) 0) as [E | _]; [contradiction |].
  destruct A as [[a00 a01] [a10 a11]], k as [k0 k1].
  eexists. split; [reflexivity |].
  unfold det in *. simpl in *.
  unfold dotv; pair_eq; field; assumption.
Qed.

(** ** The graphene lattice *)

Lemma graphene_gram_det :
  let B := transpose (prim_vecs (graphene notebook)) in
  det (dot (transpose B) B) = 3 / 4.
Proof.
  simpl. unfold det, dot, transpose. simpl.
  pose proof sqrt3_sq. nra.
Qed.

(** A matrix that fixes the graphene matrix [B] under right multiplication
    is the identity. *)
Lemma graphene_B_cancel (X : mat2) :
  let B := transpose (prim_vecs (graphene notebook)) in
  dot X B = B -> X = identity2.
Proof.
  simpl. destruct X as [[x00 x01] [x10 x11]].
  unfold dot, transpose, identity2. simpl.
  intros H. injection H as H1 H2 H3 H4.
  pose proof sqrt3_pos as Hs.
  assert (x00 = 1) by lra.
  assert (x10 = 0) by lra.
  subst.
  assert (x01 * sqrt 3 = 0) by lra.
  assert (x11 * sqrt 3 = sqrt 3) by lra.
  assert (x01 = 0) by nra.
  assert (x11 = 1) by nra.
  subst. reflexivity.
Qed.

Section MomentumFacts.
Context (la : Linalg result).
Hypothesis la_inv : inv_contract la.
Hypothesis la_solve : solve_contract la.

Let B : mat2 := transpose (prim_vecs (graphene notebook)).

Lemma momentum_inverse :
  exists Ni, np_linalg_inv (dot (transpose B) B) = Ok Ni /\
             dot (transpose B) (dot B Ni) = identity2 /\
             dot (dot B Ni) (transpose B) = identity2.
Proof.
  destruct (la_inv (dot (transpose B) B)) as (Ni & Hinv & Hr & Hl).
  { subst B. rewrite graphene_gram_det. lra. }
  exists Ni. split; [exact Hinv |]. split.
  - rewrite <- dot_assoc. exact Hr.
  - (* (B Ni B^T) B = B (Ni (B^T B)) = B *)
    assert (Hfix : dot (dot (dot B Ni) (transpose B)) B = B).
    { rewrite !dot_assoc. rewrite Hl.
      destruct B as [[? ?] [? ?]]. unfold dot, identity2. pair_eq; ring. }
    apply graphene_B_cancel in Hfix. exact Hfix.
Qed.

Lemma momentum_closed_form (k : vec2) :
  momentum_to_lattice notebook k = Ok (dotv (transpose B) k).
Proof.
  destruct momentum_inverse as (Ni & Hinv & HBA & HAB).
  unfold momentum_to_lattice.
  change (transpose (prim_vecs (graphene notebook))) with B.
  cbn [bind Monad_result]. rewrite Hinv. cbn [result_bind].
  assert (HdetA : det (dot B Ni) <> 0).
  { intros E. pose proof (det_dot (transpose B) (dot B Ni)) as Hd.
    rewrite HBA, det_identity2, E in Hd. lra. }
  destruct (la_solve (dot B Ni) k HdetA) as (x & Hx & HAx).
  rewrite Hx. f_equal.
  rewrite <- (dotv_identity2 x), <- HBA, dotv_dot, HAx. reflexivity.
Qed.
End MomentumFacts.

(** C3: for every momentum [k], [momentum_to_lattice k] returns (raises
    nothing) and its value is [B^T k], the pair of scalar products of [k]
    with the primitive vectors [(1, 0)] and [(1/2, sqrt 3 / 2)]; the matrix
    [A = B (B^T B)^-1] it computes is a two-sided inverse of [B^T]. *)
Theorem momentum_to_lattice_is_BT_k (la : Linalg result) :
  inv_contract la -> solve_contract la ->
  forall k : vec2,
    let B := transpose (prim_vecs (graphene notebook)) in
    (exists Ni, np_linalg_inv (dot (transpose B) B) = Ok Ni /\
                dot (transpose B) (dot B Ni) = identity2 /\
                dot (dot B Ni) (transpose B) = identity2) /\
    momentum_to_lattice notebook k = Ok (dotv (transpose B) k) /\
    dotv (transpose B) k = (inner k (1, 0), inner k (1 / 2, sqrt 3 / 2)).
Proof.
  intros Hinv Hsolve k B. split; [| split].
  - apply momentum_inverse; assumption.
  - apply momentum_closed_form; assumption.
  - destruct k as [kx ky]. subst B. simpl. unfold dotv, inner. simpl.
    pair_eq; ring.
Qed.

Lemma momentum_to_lattice_is_BT_k_witness :
  momentum_to_lattice (linalg := exact_linalg) notebook (1, 0) = Ok (1, 1 / 2).
Proof.
  destruct (momentum_to_lattice_is_BT_k exact_linalg exact_inv_contract
              exact_solve_contract (1, 0)) as (_ & H & E).
  rewrite H, E. unfold inner. simpl. f_equal. f_equal; lra.
Defined.

(** ** The onsite callables *)

(** C4: the Haldane onsite callable returns [m] on sublattice [a] and [-m]
    elsewhere, the Kane-Mele one returns [m] times the 2x2 identity on
    sublattice [a] and [-m] times the identity elsewhere; both are functions
    of the family and the mass only, not of the tag (hence not of the
    position) of the site. *)
Theorem onsite_by_family (g : namespace) (s : Site) (params : SimpleNamespace) :
  Haldane.onsite g s params
    = (if Nat.eqb (family s) (a g) then m params else - m params) /\
  KaneMele.onsite g s params
    = (if Nat.eqb (family s) (a g)
       then ((m params, 0), (0, m params))
       else ((- m params, 0), (0, - m params))) /\
  (forall tag', Haldane.onsite g (mkSite (family s) tag') params
                = Haldane.onsite g s params) /\
  (forall tag', KaneMele.onsite g (mkSite (family s) tag') params
                = KaneMele.onsite g s params).
Proof.
  unfold Haldane.onsite, KaneMele.onsite, mat2_scale_r, Mat2_map, s0. simpl.
  destruct (Nat.eqb (family s) (a g)); repeat split; pair_eq; ring.
Qed.

(** ** The shape predicate of the quantum dot *)

Lemma Rltb_true_iff (x y : R) : Rltb x y = true <-> x < y.
Proof.
  unfold Rltb. destruct (Rlt_dec x y); split; intros; try assumption;
    try reflexivity; try discriminate; contradiction.
Qed.

Lemma Rltb_false_iff (x y : R) : Rltb x y = false <-> ~ x < y.
Proof.
  unfold Rltb. destruct (Rlt_dec x y); split; intros; try assumption;
    try reflexivity; try discriminate; contradiction.
Qed.

Lemma Rltb_ext (x y x' y' : R) : x = x' -> y = y' -> Rltb x y = Rltb x' y'.
Proof. intros -> ->. reflexivity. Qed.

Lemma circle_notebook (x y : R) :
  Dot.circle Dot.notebook (x, y) = Rltb (x ^ 2 + y ^ 2) 225.
Proof. reflexivity. Qed.

(** C6: [circle] is the strict test [x^2 + y^2 < 225]; a point on the
    boundary circle of radius 15 is rejected; the test is unchanged when a
    coordinate is negated or the two are swapped. *)
Theorem circle_strict_disc (x y : R) :
  (Dot.circle Dot.notebook (x, y) = true <-> x ^ 2 + y ^ 2 < 225) /\
  (x ^ 2 + y ^ 2 = 15 ^ 2 -> Dot.circle Dot.notebook (x, y) = false) /\
  Dot.circle Dot.notebook (- x, y) = Dot.circle Dot.notebook (x, y) /\
  Dot.circle Dot.notebook (x, - y) = Dot.circle Dot.notebook (x, y) /\
  Dot.circle Dot.notebook (y, x) = Dot.circle Dot.notebook (x, y).
Proof.
  rewrite !circle_notebook. repeat split.
  - apply Rltb_true_iff.
  - apply Rltb_true_iff.
  - intros H. apply Rltb_false_iff. lra.
  - apply Rltb_ext; ring.
  - apply Rltb_ext; ring.
  - apply Rltb_ext; ring.
Qed.

Lemma circle_strict_disc_witness :
  Dot.circle Dot.notebook (9, 12) = false /\
  Dot.circle Dot.notebook (15, 0) = false /\
  Dot.circle Dot.notebook (0, 0) = true.
Proof.
  split; [| split].
  - apply (circle_strict_disc 9 12). lra.
  - apply (circle_strict_disc 15 0). lra.
  - apply (circle_strict_disc 0 0). lra.
Defined.

(** On the sites of the square lattice, [circle] is the integer test. *)
Lemma circle_at_tag (g : Dot.namespace) (x y : Z) :
  Dot.circle g (IZR x, IZR y) = Dot.circle_tag g (x, y).
Proof.
  unfold Dot.circle, Dot.circle_tag.
  replace (IZR x ^ 2 + IZR y ^ 2) with (IZR (x ^ 2 + y ^ 2)).
  2:{ rewrite plus_IZR. rewrite !(pow_IZR _ 2). reflexivity. }
  destruct (Z.ltb_spec (x ^ 2 + y ^ 2) (Dot.r g ^ 2)) as [H | H].
  - apply Rltb_true_iff. apply IZR_lt. exact H.
  - apply Rltb_false_iff. apply Rle_not_lt. apply IZR_le. exact H.
Qed.

(** ** Exceptions propagate *)

Section Propagation.
Context {Builder Syst Ham Cube Grid Evec Figure Axes : Type}.
Variable oracle : libraries Builder Syst Ham Cube Grid Evec Figure Axes.

Lemma propagate_ret {A : Type} (x : A) :
  exceptions_propagate
    (ret x : outcomes (history Builder Syst Ham Cube Grid Evec Figure Axes) A).
Proof.
  intros h res h' H. simpl in H. unfold outcomes_ret in H. injection H as -> ->.
  exists []. rewrite app_nil_r. split; [reflexivity | constructor].
Qed.

Lemma propagate_bind {A B : Type} (c : outcomes (history Builder Syst Ham Cube Grid Evec Figure Axes) A)
  (f : A -> outcomes (history Builder Syst Ham Cube Grid Evec Figure Axes) B) :
  exceptions_propagate c -> (forall x, exceptions_propagate (f x)) ->
  exceptions_propagate (x <- c ;; f x).
Proof.
  intros Hc Hf h res h' H. simpl in H. unfold outcomes_bind in H.
  destruct H as [(x & h1 & H1 & H2) | (e & h1 & H1 & E)].
  - destruct (Hc _ _ _ H1) as (l1 & -> & Q1). cbn beta iota in Q1.
    destruct (Hf x _ _ _ H2) as (l2 & -> & Q2).
    exists (l1 ++ l2). split; [rewrite app_assoc; reflexivity |].
    destruct res as [y | e].
    + apply Forall_app. split; assumption.
    + destruct Q2 as (l' & ev & -> & Q & R). exists (l1 ++ l'), ev.
      split; [rewrite app_assoc; reflexivity |].
      split; [apply Forall_app; split; assumption | exact R].
  - injection E as -> ->. apply (Hc _ _ _ H1).
Qed.

Lemma propagate_for {A S : Type} (xs : list A)
  (body : A -> S -> outcomes (history Builder Syst Ham Cube Grid Evec Figure Axes) S) :
  (forall x s, exceptions_propagate (body x s)) ->
  forall s, exceptions_propagate (for_ xs body s).
Proof.
  intros Hbody. induction xs as [| x xs IH]; intros s; cbn [for_].
  - apply propagate_ret.
  - apply propagate_bind; [apply Hbody | exact IH].
Qed.

Lemma propagate_external {X : Type} (c : call Builder Syst Ham Cube Grid Evec Figure Axes)
  (inj : result X -> answer Builder Syst Ham Cube Grid Figure Axes) :
  (forall r, raised (inj r) = exn_of r) ->
  exceptions_propagate (external oracle c inj).
Proof.
  intros Hinj h res h' (r & _ & E). injection E as -> ->.
  exists [(c, inj r)]. split; [reflexivity |].
  destruct r as [x | e].
  - constructor; [simpl; rewrite Hinj; reflexivity | constructor].
  - exists [], (c, inj (Raise e)). split; [reflexivity |].
    split; [constructor | simpl; rewrite Hinj; reflexivity].
Qed.

Ltac propagate_chain :=
  repeat first
    [ apply propagate_ret
    | apply propagate_for; intros
    | apply propagate_bind; [| intros ]
    | apply propagate_external; intros; reflexivity ].

Variable cube_shape_last : Cube -> nat.
Variable cube_band_slice : Cube -> nat -> Grid.

(** C8: no function of the two notebooks handles an error.  Whatever the
    external libraries do, in every run of every function that calls them:
    when the function returns a value, none of its external calls has
    raised (no exception is caught, none is turned into a return value, no
    call is made again after a failure); and when it raises [e], the last
    call it made is the one that raised [e] and no call before it raised
    (the exception of the library reaches the caller unchanged and at once,
    and the function raises nothing by itself). *)
Theorem no_error_handling (g : namespace) :
  (forall k,
      exceptions_propagate
        (momentum_to_lattice (linalg := traced_linalg oracle) g k)) /\
  (forall syst args kx ky energies,
      exceptions_propagate
        (energies_at (linalg := traced_linalg oracle) (kwant := traced_kwant oracle)
                     (numpy := traced_numpy oracle cube_shape_last cube_band_slice)
                     g syst args kx ky energies)) /\
  (forall syst args lim num_points,
      exceptions_propagate
        (dispersion_2D (linalg := traced_linalg oracle) (kwant := traced_kwant oracle)
                       (numpy := traced_numpy oracle cube_shape_last cube_band_slice)
                       (pyplot := traced_pyplot oracle)
                       g syst args lim num_points)) /\
  (forall syst,
      exceptions_propagate
        (haldane_add_hoppings (kwant := traced_kwant oracle) g syst)) /\
  (forall syst,
      exceptions_propagate
        (kane_mele_add_hoppings (kwant := traced_kwant oracle) g syst)) /\
  (forall haldane t_2 m,
      exceptions_propagate
        (haldane_qshe_dispersion
           (linalg := traced_linalg oracle) (kwant := traced_kwant oracle)
           (numpy := traced_numpy oracle cube_shape_last cube_band_slice)
           (pyplot := traced_pyplot oracle) g haldane t_2 m)) /\
  (forall bulk_kane_mele t_2 m,
      exceptions_propagate
        (kane_mele_qshe_dispersion
           (linalg := traced_linalg oracle) (kwant := traced_kwant oracle)
           (numpy := traced_numpy oracle cube_shape_last cube_band_slice)
           (pyplot := traced_pyplot oracle) g bulk_kane_mele t_2 m)) /\
  (forall zigzag_kane_mele t_2 m,
      exceptions_propagate
        (qshe_zigzag_dispersion (kwant := traced_kwant oracle)
                                zigzag_kane_mele t_2 m)) /\
  (forall sys eval_ evec i,
      exceptions_propagate
        (Dot.plot_wf (kwant := traced_kwant oracle)
                     (numpy := traced_numpy oracle cube_shape_last cube_band_slice)
                     (builtins := traced_builtins oracle) sys eval_ evec i)).
Proof.
  assert (Hmtl : forall k,
             exceptions_propagate
               (momentum_to_lattice (linalg := traced_linalg oracle) g k)).
  { intros k. unfold momentum_to_lattice. propagate_chain. }
  assert (Hat : forall syst args kx ky energies,
             exceptions_propagate
               (energies_at (linalg := traced_linalg oracle)
                            (kwant := traced_kwant oracle)
                            (numpy := traced_numpy oracle cube_shape_last cube_band_slice)
                            g syst args kx ky energies)).
  { intros. unfold energies_at.
    apply propagate_bind; [apply Hmtl | intros]. propagate_chain. }
  assert (Hdisp : forall syst args lim num_points,
             exceptions_propagate
               (dispersion_2D (linalg := traced_linalg oracle)
                              (kwant := traced_kwant oracle)
                              (numpy := traced_numpy oracle cube_shape_last cube_band_slice)
                              (pyplot := traced_pyplot oracle)
                              g syst args lim num_points)).
  { intros. unfold dispersion_2D, grid_energies. cbv zeta.
    apply propagate_bind; [propagate_chain | intros momenta].
    apply propagate_bind.
    - apply propagate_for. intros kx energies.
      apply propagate_for. intros ky energies'. apply Hat.
    - intros. propagate_chain. }
  repeat match goal with |- _ /\ _ => split end; intros.
  - apply Hmtl.
  - apply Hat.
  - apply Hdisp.
  - unfold haldane_add_hoppings. propagate_chain.
  - unfold kane_mele_add_hoppings. propagate_chain.
  - unfold haldane_qshe_dispersion.
    apply propagate_bind; [propagate_chain | intros].
    apply propagate_bind; [propagate_chain | intros]. apply Hdisp.
  - unfold kane_mele_qshe_dispersion.
    apply propagate_bind; [propagate_chain | intros].
    apply propagate_bind; [propagate_chain | intros]. apply Hdisp.
  - unfold qshe_zigzag_dispersion. propagate_chain.
  - unfold Dot.plot_wf. propagate_chain.
Qed.
End Propagation.

Lemma no_error_handling_witness :
  let N := dot (transpose (transpose (prim_vecs (graphene notebook))))
               (transpose (prim_vecs (graphene notebook))) in
  let ev : event unit unit unit unit unit unit unit unit :=
    (CallInv N, AnsMat2 (Raise LinAlgError)) in
  exists l,
    [ev] = [] ++ l /\
    exists l' ev',
      l = l' ++ [ev'] /\ quiet l' /\ raised (snd ev') = Some LinAlgError.
Proof.
  intros N ev.
  apply (proj1 (no_error_handling (fun _ _ a => a = AnsMat2 (Raise LinAlgError))
                  (fun _ => O) (fun _ _ => tt) notebook)
               (0, 0) [] (Raise LinAlgError) [ev]).
  unfold momentum_to_lattice. right. exists LinAlgError, [ev].
  split; [| reflexivity]. exists (Raise LinAlgError). split; reflexivity.
Defined.

(** The property is not empty: a [momentum_to_lattice] that calls
    [np.linalg.inv] again when it has raised does not have it. *)
Example a_retry_is_told_apart :
  exists oracle : libraries unit unit unit unit unit unit unit unit,
    ~ exceptions_propagate
        (retrying_momentum_to_lattice (linalg := traced_linalg oracle)
                                      notebook (0, 0)).
Proof.
  exists (fun h c a =>
            match c with
            | CallInv _ =>
                a = AnsMat2 (match h with
                             | [] => Raise LinAlgError
                             | _ :: _ => Ok identity2
                             end)
            | _ => a = AnsVec2 (Ok (0, 0))
            end).
  intros H.
  set (N := dot (transpose (transpose (prim_vecs (graphene notebook))))
                (transpose (prim_vecs (graphene notebook)))).
  set (B := transpose (prim_vecs (graphene notebook))).
  set (ev1 := (CallInv N, AnsMat2 (Raise LinAlgError))
              : event unit unit unit unit unit unit unit unit).
  set (ev2 := (CallInv N, AnsMat2 (Ok identity2))
              : event unit unit unit unit unit unit unit unit).
  set (ev3 := (CallSolve (dot B identity2) (0, 0), AnsVec2 (Ok (0, 0)))
              : event unit unit unit unit unit unit unit unit).
  destruct (H [] (Ok (0, 0)) [ev1; ev2; ev3]) as (l & E & Q).
  - unfold retrying_momentum_to_lattice. left. exists identity2, [ev1; ev2].
    split.
    + right. exists LinAlgError, [ev1]. split.
      * exists (Raise LinAlgError). split; reflexivity.
      * exists (Ok identity2). split; reflexivity.
    + exists (Ok (0, 0)). split; reflexivity.
  - simpl in E. subst l. inversion Q as [| ? ? Hraised _]. discriminate Hraised.
Qed.

(** ** Determinism *)

Lemma deterministic_ret {World A : Type} (x : A) :
  deterministic (ret x : outcomes World A).
Proof. intros w o1 o2 H1 H2. simpl in *. unfold outcomes_ret in *. congruence. Qed.

Lemma deterministic_bind {World A B : Type} (c : outcomes World A)
  (f : A -> outcomes World B) :
  deterministic c -> (forall x, deterministic (f x)) ->
  deterministic (x <- c ;; f x).
Proof.
  intros Hc Hf w o1 o2 H1 H2. simpl in *. unfold outcomes_bind in *.
  destruct H1 as [(x1 & w1 & Hc1 & Hf1) | (e1 & w1 & Hc1 & ->)];
    destruct H2 as [(x2 & w2 & Hc2 & Hf2) | (e2 & w2 & Hc2 & ->)];
    pose proof (Hc _ _ _ Hc1 Hc2) as E; try discriminate.
  - injection E as -> ->. exact (Hf _ _ _ _ Hf1 Hf2).
  - injection E as -> ->. reflexivity.
Qed.

Lemma deterministic_for {World A S : Type} (xs : list A)
  (body : A -> S -> outcomes World S) :
  (forall x s, deterministic (body x s)) ->
  forall s, deterministic (for_ xs body s).
Proof.
  intros Hbody. induction xs as [| x xs IH]; intros s; cbn [for_].
  - apply deterministic_ret.
  - apply deterministic_bind; [apply Hbody | exact IH].
Qed.

Ltac det_chain :=
  repeat first
    [ apply deterministic_ret
    | apply deterministic_for; intros
    | apply deterministic_bind; [| intros ]
    | solve [ auto ] ].

Section Determinism.
Context {World Builder Syst Ham Cube Grid Evec Figure Axes : Type}.
Context (linalg : Linalg (outcomes World)).
Context (kwant : Kwant (outcomes World) Builder Syst Ham).
Context (numpy : Numpy (outcomes World) Ham Cube Grid Evec).
Context (pyplot : Pyplot (outcomes World) Grid Figure Axes).
Context (builtins : Builtins (outcomes World)).
Hypothesis det_linalg : deterministic_linalg linalg.
Hypothesis det_kwant : deterministic_kwant kwant.
Hypothesis det_numpy : deterministic_numpy numpy.
Hypothesis det_pyplot : deterministic_pyplot pyplot.
Hypothesis det_builtins : deterministic_builtins builtins.
Variable g : namespace.

Ltac use_library :=
  destruct det_linalg as (? & ?);
  destruct det_kwant as (? & ? & ? & ? & ? & ? & ?);
  destruct det_numpy as (? & ? & ? & ? & ? & ? & ? & ?);
  destruct det_pyplot as (? & ? & ?);
  pose proof det_builtins.

Lemma momentum_to_lattice_deterministic (k : vec2) :
  deterministic (momentum_to_lattice g k).
Proof. use_library. unfold momentum_to_lattice. det_chain. Qed.

Lemma energies_at_deterministic syst args kx ky energies :
  deterministic (energies_at g syst args kx ky energies).
Proof.
  use_library. unfold energies_at.
  apply deterministic_bind; [apply momentum_to_lattice_deterministic | intros].
  det_chain.
Qed.

Lemma grid_energies_deterministic syst args momenta :
  deterministic (grid_energies g syst args momenta).
Proof.
  unfold grid_energies. apply deterministic_for. intros kx energies.
  apply deterministic_for. intros ky energies'.
  apply energies_at_deterministic.
Qed.

Lemma dispersion_2D_deterministic syst args lim num_points :
  deterministic (dispersion_2D g syst args lim num_points).
Proof.
  use_library. unfold dispersion_2D. cbv zeta.
  apply deterministic_bind; [auto | intros momenta].
  apply deterministic_bind; [apply grid_energies_deterministic | intros].
  det_chain.
Qed.
End Determinism.

(** ** One call after the other *)

Section Sequence.
Context {Builder Syst Ham Cube Grid Evec Figure Axes : Type}.
Variable oracle : libraries Builder Syst Ham Cube Grid Evec Figure Axes.

Lemma differ_after (l m1 m2 : history Builder Syst Ham Cube Grid Evec Figure Axes) :
  differ_in_an_answer m1 m2 -> differ_in_an_answer (l ++ m1) (l ++ m2).
Proof.
  intros (p & c & a1 & a2 & t1 & t2 & -> & -> & Hne).
  exists (l ++ p), c, a1, a2, t1, t2. rewrite <- !app_assoc.
  split; [reflexivity |]. split; [reflexivity | exact Hne].
Qed.

Lemma differ_before (l1 l2 m1 m2 : history Builder Syst Ham Cube Grid Evec Figure Axes) :
  differ_in_an_answer l1 l2 -> differ_in_an_answer (l1 ++ m1) (l2 ++ m2).
Proof.
  intros (p & c & a1 & a2 & t1 & t2 & -> & -> & Hne).
  exists p, c, a1, a2, (t1 ++ m1), (t2 ++ m2). rewrite <- !app_assoc.
  split; [reflexivity |]. split; [reflexivity | exact Hne].
Qed.

Lemma sequential_extends {A : Type} (c : outcomes (history Builder Syst Ham Cube Grid Evec Figure Axes) A) :
  sequential c ->
  forall h res h', c h (res, h') -> exists l, h' = h ++ l.
Proof.
  intros Hc h res h' H.
  destruct (Hc _ _ _ _ _ _ H H) as (l & _ & E & _). exists l. exact E.
Qed.

Lemma sequential_ret {A : Type} (x : A) :
  sequential (ret x : outcomes (history Builder Syst Ham Cube Grid Evec Figure Axes) A).
Proof.
  intros h1 h2 res1 res2 h1' h2' H1 H2. simpl in H1, H2.
  unfold outcomes_ret in H1, H2. injection H1 as -> ->. injection H2 as -> ->.
  exists [], []. rewrite !app_nil_r.
  split; [reflexivity |]. split; [reflexivity |]. left. split; reflexivity.
Qed.

Lemma sequential_bind {A B : Type} (c : outcomes (history Builder Syst Ham Cube Grid Evec Figure Axes) A)
  (f : A -> outcomes (history Builder Syst Ham Cube Grid Evec Figure Axes) B) :
  sequential c -> (forall x, sequential (f x)) ->
  sequential (x <- c ;; f x).
Proof.
  intros Hc Hf h1 h2 res1 res2 h1' h2' R1 R2. simpl in R1, R2.
  unfold outcomes_bind in R1, R2.
  destruct R1 as [(x1 & k1 & C1 & F1) | (e1 & k1 & C1 & E1)];
    destruct R2 as [(x2 & k2 & C2 & F2) | (e2 & k2 & C2 & E2)];
    destruct (Hc _ _ _ _ _ _ C1 C2) as (l1 & l2 & -> & -> & Hl).
  - destruct Hl as [[<- Ex] | Hd].
    + injection Ex as <-.
      destruct (Hf x1 _ _ _ _ _ _ F1 F2) as (m1 & m2 & -> & -> & Hm).
      exists (l1 ++ m1), (l1 ++ m2). rewrite !app_assoc.
      split; [reflexivity |]. split; [reflexivity |].
      destruct Hm as [[<- <-] | Hd].
      * left. split; reflexivity.
      * right. apply differ_after. exact Hd.
    + destruct (sequential_extends _ (Hf x1) _ _ _ F1) as (m1 & ->).
      destruct (sequential_extends _ (Hf x2) _ _ _ F2) as (m2 & ->).
      exists (l1 ++ m1), (l2 ++ m2). rewrite !app_assoc.
      split; [reflexivity |]. split; [reflexivity |].
      right. apply differ_before. exact Hd.
  - injection E2 as -> ->.
    destruct Hl as [[_ Ex] | Hd]; [discriminate Ex |].
    destruct (sequential_extends _ (Hf x1) _ _ _ F1) as (m1 & ->).
    exists (l1 ++ m1), l2. rewrite !app_assoc.
    split; [reflexivity |]. split; [reflexivity |].
    right. rewrite <- (app_nil_r l2). apply differ_before. exact Hd.
  - injection E1 as -> ->.
    destruct Hl as [[_ Ex] | Hd]; [discriminate Ex |].
    destruct (sequential_extends _ (Hf x2) _ _ _ F2) as (m2 & ->).
    exists l1, (l2 ++ m2). rewrite !app_assoc.
    split; [reflexivity |]. split; [reflexivity |].
    right. rewrite <- (app_nil_r l1). apply differ_before. exact Hd.
  - injection E1 as -> ->. injection E2 as -> ->.
    exists l1, l2. split; [reflexivity |]. split; [reflexivity |].
    destruct Hl as [[El Ee] | Hd]; [left | right; exact Hd].
    split; [exact El | injection Ee as ->; reflexivity].
Qed.

Lemma sequential_for {A S : Type} (xs : list A)
  (body : A -> S -> outcomes (history Builder Syst Ham Cube Grid Evec Figure Axes) S) :
  (forall x s, sequential (body x s)) ->
  forall s, sequential (for_ xs body s).
Proof.
  intros Hbody. induction xs as [| x xs IH]; intros s; cbn [for_].
  - apply sequential_ret.
  - apply sequential_bind; [apply Hbody | exact IH].
Qed.

Lemma sequential_external {X : Type} (c : call Builder Syst Ham Cube Grid Evec Figure Axes)
  (inj : result X -> answer Builder Syst Ham Cube Grid Figure Axes) :
  (forall r1 r2, inj r1 = inj r2 -> r1 = r2) ->
  sequential (external oracle c inj).
Proof.
  intros Hinj h1 h2 res1 res2 h1' h2' (r1 & _ & E1) (r2 & _ & E2).
  injection E1 as -> ->. injection E2 as -> ->.
  exists [(c, inj r1)], [(c, inj r2)].
  split; [reflexivity |]. split; [reflexivity |].
  destruct (classic (inj r1 = inj r2)) as [E | Hne].
  - left. rewrite (Hinj _ _ E). split; reflexivity.
  - right. exists [], c, (inj r1), (inj r2), [], []. repeat split. exact Hne.
Qed.

Lemma external_deterministic {X : Type} (c : call Builder Syst Ham Cube Grid Evec Figure Axes)
  (inj : result X -> answer Builder Syst Ham Cube Grid Figure Axes) :
  fixed_by_history oracle ->
  (forall r1 r2, inj r1 = inj r2 -> r1 = r2) ->
  deterministic (external oracle c inj).
Proof.
  intros Hfixed Hinj h o1 o2 (r1 & O1 & ->) (r2 & O2 & ->).
  rewrite (Hinj _ _ (Hfixed _ _ _ _ O1 O2)). reflexivity.
Qed.
End Sequence.

(** With libraries that are deterministic, the functions that call them
    are. *)
Lemma deterministic_with_libraries
  {World Builder Syst Ham Cube Grid Evec Figure Axes : Type}
  (linalg : Linalg (outcomes World))
  (kwant : Kwant (outcomes World) Builder Syst Ham)
  (numpy : Numpy (outcomes World) Ham Cube Grid Evec)
  (pyplot : Pyplot (outcomes World) Grid Figure Axes)
  (builtins : Builtins (outcomes World)) :
  deterministic_linalg linalg -> deterministic_kwant kwant ->
  deterministic_numpy numpy -> deterministic_pyplot pyplot ->
  deterministic_builtins builtins ->
  forall g : namespace,
    (forall k, deterministic (momentum_to_lattice g k)) /\
    (forall syst args lim num_points,
        deterministic (dispersion_2D g syst args lim num_points)) /\
    (forall syst, deterministic (haldane_add_hoppings g syst)) /\
    (forall syst, deterministic (kane_mele_add_hoppings g syst)) /\
    (forall haldane t_2 m, deterministic (haldane_qshe_dispersion g haldane t_2 m)) /\
    (forall bulk_kane_mele t_2 m,
        deterministic (kane_mele_qshe_dispersion g bulk_kane_mele t_2 m)) /\
    (forall zigzag_kane_mele t_2 m,
        deterministic (qshe_zigzag_dispersion zigzag_kane_mele t_2 m)) /\
    (forall sys eval_ evec i, deterministic (Dot.plot_wf sys eval_ evec i)).
Proof.
  intros Hla Hkw Hnp Hplt Hbi g.
  pose proof (dispersion_2D_deterministic linalg kwant numpy pyplot builtins
                Hla Hkw Hnp Hplt Hbi g) as Hdisp.
  destruct Hla as (? & ?).
  destruct Hkw as (? & ? & ? & ? & ? & ? & ?).
  destruct Hnp as (? & ? & ? & ? & ? & ? & ? & ?).
  destruct Hplt as (? & ? & ?).
  repeat match goal with |- _ /\ _ => split end; intros.
  - unfold momentum_to_lattice. det_chain.
  - apply Hdisp.
  - unfold haldane_add_hoppings. det_chain.
  - unfold kane_mele_add_hoppings. det_chain.
  - unfold haldane_qshe_dispersion. det_chain.
  - unfold kane_mele_qshe_dispersion. det_chain.
  - unfold qshe_zigzag_dispersion. det_chain.
  - unfold Dot.plot_wf. det_chain.
Qed.

Section Sequential.
Context {Builder Syst Ham Cube Grid Evec Figure Axes : Type}.
Variable oracle : libraries Builder Syst Ham Cube Grid Evec Figure Axes.
Variable cube_shape_last : Cube -> nat.
Variable cube_band_slice : Cube -> nat -> Grid.

Ltac injective := intros ? ? E; injection E as E; exact E.

Ltac sequential_chain :=
  repeat first
    [ apply sequential_ret
    | apply sequential_for; intros
    | apply sequential_bind; [| intros ]
    | apply sequential_external; injective ].

Lemma traced_libraries_deterministic :
  fixed_by_history oracle ->
  deterministic_linalg (traced_linalg oracle) /\
  deterministic_kwant (traced_kwant oracle) /\
  deterministic_numpy (traced_numpy oracle cube_shape_last cube_band_slice) /\
  deterministic_pyplot (traced_pyplot oracle) /\
  deterministic_builtins (traced_builtins oracle).
Proof.
  intros Hfixed.
  unfold deterministic_linalg, deterministic_kwant, deterministic_numpy,
    deterministic_pyplot, deterministic_builtins.
  repeat match goal with |- _ /\ _ => split end; intros;
    apply external_deterministic; solve [exact Hfixed | injective].
Qed.

(** C9: every function of the two notebooks is deterministic and makes its
    external calls one after the other.  Whatever the external libraries do,
    two runs of a function with equal arguments and equal notebook globals
    make the same external calls in the same order and give the same
    result, unless the libraries answer one and the same call differently,
    and up to that call the two runs are the same: nothing but an answer of
    a library makes a run vary, and no two calls are left without an order.
    With libraries whose answers are fixed by what happened before, equal
    arguments, equal globals and an equal state give equal results and
    equal states.  The callables that make no external call are functions
    of the parts of their arguments and of the globals that they read:
    [circle] of [pos] and [r]; the ribbon of [pos[1]]; [onsite] of
    [site.family], [params.m] and the global [a]; [nnn_hopping] and
    [spin_orbit] of [params.t_2]. *)
Theorem notebook_functions_deterministic (g : namespace) :
  ((forall k,
       sequential (momentum_to_lattice (linalg := traced_linalg oracle) g k)) /\
   (forall syst args lim num_points,
       sequential
         (dispersion_2D (linalg := traced_linalg oracle) (kwant := traced_kwant oracle)
                        (numpy := traced_numpy oracle cube_shape_last cube_band_slice)
                        (pyplot := traced_pyplot oracle)
                        g syst args lim num_points)) /\
   (forall syst,
       sequential (haldane_add_hoppings (kwant := traced_kwant oracle) g syst)) /\
   (forall syst,
       sequential (kane_mele_add_hoppings (kwant := traced_kwant oracle) g syst)) /\
   (forall haldane t_2 m,
       sequential
         (haldane_qshe_dispersion
            (linalg := traced_linalg oracle) (kwant := traced_kwant oracle)
            (numpy := traced_numpy oracle cube_shape_last cube_band_slice)
            (pyplot := traced_pyplot oracle) g haldane t_2 m)) /\
   (forall bulk_kane_mele t_2 m,
       sequential
         (kane_mele_qshe_dispersion
            (linalg := traced_linalg oracle) (kwant := traced_kwant oracle)
            (numpy := traced_numpy oracle cube_shape_last cube_band_slice)
            (pyplot := traced_pyplot oracle) g bulk_kane_mele t_2 m)) /\
   (forall zigzag_kane_mele t_2 m,
       sequential
         (qshe_zigzag_dispersion (kwant := traced_kwant oracle)
                                 zigzag_kane_mele t_2 m)) /\
   (forall sys eval_ evec i,
       sequential
         (Dot.plot_wf (kwant := traced_kwant oracle)
                      (numpy := traced_numpy oracle cube_shape_last cube_band_slice)
                      (builtins := traced_builtins oracle) sys eval_ evec i))) /\
  (fixed_by_history oracle ->
   (forall k,
       deterministic (momentum_to_lattice (linalg := traced_linalg oracle) g k)) /\
   (forall syst args lim num_points,
       deterministic
         (dispersion_2D (linalg := traced_linalg oracle) (kwant := traced_kwant oracle)
                        (numpy := traced_numpy oracle cube_shape_last cube_band_slice)
                        (pyplot := traced_pyplot oracle)
                        g syst args lim num_points)) /\
   (forall syst,
       deterministic (haldane_add_hoppings (kwant := traced_kwant oracle) g syst)) /\
   (forall syst,
       deterministic (kane_mele_add_hoppings (kwant := traced_kwant oracle) g syst)) /\
   (forall haldane t_2 m,
       deterministic
         (haldane_qshe_dispersion
            (linalg := traced_linalg oracle) (kwant := traced_kwant oracle)
            (numpy := traced_numpy oracle cube_shape_last cube_band_slice)
            (pyplot := traced_pyplot oracle) g haldane t_2 m)) /\
   (forall bulk_kane_mele t_2 m,
       deterministic
         (kane_mele_qshe_dispersion
            (linalg := traced_linalg oracle) (kwant := traced_kwant oracle)
            (numpy := traced_numpy oracle cube_shape_last cube_band_slice)
            (pyplot := traced_pyplot oracle) g bulk_kane_mele t_2 m)) /\
   (forall zigzag_kane_mele t_2 m,
       deterministic
         (qshe_zigzag_dispersion (kwant := traced_kwant oracle)
                                 zigzag_kane_mele t_2 m)) /\
   (forall sys eval_ evec i,
       deterministic
         (Dot.plot_wf (kwant := traced_kwant oracle)
                      (numpy := traced_numpy oracle cube_shape_last cube_band_slice)
                      (builtins := traced_builtins oracle) sys eval_ evec i))) /\
  ((forall (dot_g dot_g' : Dot.namespace) (pos : vec2),
       Dot.r dot_g = Dot.r dot_g' -> Dot.circle dot_g pos = Dot.circle dot_g' pos) /\
   (forall pos pos' : vec2, snd pos = snd pos' -> ribbon pos = ribbon pos') /\
   (forall pos pos' : vec2, everywhere pos = everywhere pos') /\
   (forall (g' : namespace) site site' params params',
       a g = a g' -> family site = family site' -> m params = m params' ->
       Haldane.onsite g site params = Haldane.onsite g' site' params') /\
   (forall site1 site2 site1' site2' params params',
       t_2 params = t_2 params' ->
       Haldane.nnn_hopping site1 site2 params
       = Haldane.nnn_hopping site1' site2' params') /\
   (forall (g' : namespace) site site' params params',
       a g = a g' -> family site = family site' -> m params = m params' ->
       KaneMele.onsite g site params = KaneMele.onsite g' site' params') /\
   (forall site1 site2 site1' site2' params params',
       t_2 params = t_2 params' ->
       KaneMele.spin_orbit site1 site2 params
       = KaneMele.spin_orbit site1' site2' params')).
Proof.
  split; [| split].
  - assert (Hmtl : forall k,
               sequential (momentum_to_lattice (linalg := traced_linalg oracle) g k)).
    { intros k. unfold momentum_to_lattice. sequential_chain. }
    assert (Hdisp : forall syst args lim num_points,
               sequential
                 (dispersion_2D (linalg := traced_linalg oracle)
                                (kwant := traced_kwant oracle)
                                (numpy := traced_numpy oracle cube_shape_last
                                                       cube_band_slice)
                                (pyplot := traced_pyplot oracle)
                                g syst args lim num_points)).
    { intros. unfold dispersion_2D, grid_energies. cbv zeta.
      apply sequential_bind; [sequential_chain | intros momenta].
      apply sequential_bind.
      - apply sequential_for. intros kx energies.
        apply sequential_for. intros ky energies'. unfold energies_at.
        apply sequential_bind; [apply Hmtl | intros]. sequential_chain.
      - intros. sequential_chain. }
    repeat match goal with |- _ /\ _ => split end; intros.
    + apply Hmtl.
    + apply Hdisp.
    + unfold haldane_add_hoppings. sequential_chain.
    + unfold kane_mele_add_hoppings. sequential_chain.
    + unfold haldane_qshe_dispersion.
      apply sequential_bind; [sequential_chain | intros].
      apply sequential_bind; [sequential_chain | intros]. apply Hdisp.
    + unfold kane_mele_qshe_dispersion.
      apply sequential_bind; [sequential_chain | intros].
      apply sequential_bind; [sequential_chain | intros]. apply Hdisp.
    + unfold qshe_zigzag_dispersion. sequential_chain.
    + unfold Dot.plot_wf. sequential_chain.
  - intros Hfixed.
    destruct (traced_libraries_deterministic Hfixed) as (Hla & Hkw & Hnp & Hplt & Hbi).
    exact (deterministic_with_libraries _ _ _ _ _ Hla Hkw Hnp Hplt Hbi g).
  - repeat match goal with |- _ /\ _ => split end.
    + intros dot_g dot_g' [x y] Hr. unfold Dot.circle. rewrite Hr. reflexivity.
    + intros pos pos' Hy. unfold ribbon. rewrite Hy. reflexivity.
    + reflexivity.
    + intros g' site site' params params' Ha Hf Hm. unfold Haldane.onsite.
      rewrite Ha, Hf, Hm. reflexivity.
    + intros site1 site2 site1' site2' params params' Ht.
      unfold Haldane.nnn_hopping. rewrite Ht. reflexivity.
    + intros g' site site' params params' Ha Hf Hm. unfold KaneMele.onsite.
      rewrite Ha, Hf, Hm. reflexivity.
    + intros site1 site2 site1' site2' params params' Ht.
      unfold KaneMele.spin_orbit. rewrite Ht. reflexivity.
Qed.
End Sequential.

Lemma notebook_functions_deterministic_witness :
  let oracle : libraries unit unit unit unit unit unit unit unit :=
    fun _ _ given => given = AnsMat2 (Raise LinAlgError) in
  fixed_by_history oracle /\
  deterministic (momentum_to_lattice (linalg := traced_linalg oracle) notebook (0, 0)).
Proof.
  intros oracle.
  assert (Hfixed : fixed_by_history oracle).
  { intros h c a1 a2 H1 H2. unfold oracle in H1, H2. congruence. }
  split; [exact Hfixed |].
  apply (proj1 (proj1 (proj2 (notebook_functions_deterministic
                                oracle (fun _ => O) (fun _ _ => tt) notebook))
                      Hfixed)).
Defined.

(** The property is not empty: a computation that makes two calls in one
    order or the other does not have it. *)
Example an_open_order_is_told_apart :
  exists oracle : libraries unit unit unit unit unit unit unit unit,
    ~ sequential
        (in_any_order
           (np_min (Numpy := traced_numpy oracle (fun _ => O) (fun _ _ => tt)) tt)
           (np_max (Numpy := traced_numpy oracle (fun _ => O) (fun _ _ => tt)) tt)).
Proof.
  exists (fun _ _ given => given = AnsFloat (Ok 0)).
  intros H.
  set (ev_min := (CallMin tt, AnsFloat (Ok 0))
                 : event unit unit unit unit unit unit unit unit).
  set (ev_max := (CallMax tt, AnsFloat (Ok 0))
                 : event unit unit unit unit unit unit unit unit).
  destruct (H [] [] (Ok (0, 0)) (Ok (0, 0)) [ev_min; ev_max] [ev_max; ev_min])
    as (l1 & l2 & E1 & E2 & Hl).
  - left. left. exists 0, [ev_min]. split.
    + exists (Ok 0). split; reflexivity.
    + left. exists 0, [ev_min; ev_max]. split; [| reflexivity].
      exists (Ok 0). split; reflexivity.
  - right. left. exists 0, [ev_max]. split.
    + exists (Ok 0). split; reflexivity.
    + left. exists 0, [ev_max; ev_min]. split; [| reflexivity].
      exists (Ok 0). split; reflexivity.
  - simpl in E1, E2. subst l1 l2.
    destruct Hl as [[E _] | (p & c & a1 & a2 & t1 & t2 & E1 & E2 & Hne)].
    + discriminate E.
    + destruct p as [| ev p]; simpl in E1, E2.
      * injection E1 as <- _ _. discriminate E2.
      * injection E1 as <- E1. discriminate E2.
Qed.

(** ** What the band energies depend on *)

Lemma for_ext {A S : Type} (xs : list A) (body body' : A -> S -> result S) :
  (forall x s, body x s = body' x s) ->
  forall s, for_ xs body s = for_ xs body' s.
Proof.
  intros H. induction xs as [| x xs IH]; intros s; cbn [for_]; [reflexivity |].
  rewrite H. simpl. destruct (body' x s) as [s' | e]; simpl; [apply IH | reflexivity].
Qed.

Section Energies.
Context {Builder Syst Ham Cube Grid Evec : Type}.
Context (la : Linalg result) (kw : Kwant result Builder Syst Ham).
Context (np : Numpy result Ham Cube Grid Evec).
Hypothesis la_inv : inv_contract la.
Hypothesis la_solve : solve_contract la.

Lemma energies_at_closed_form syst args kx ky energies :
  energies_at notebook syst args kx ky energies
  = library_only_energies_at syst args
      (inner (kx, ky) (1, 0)) (inner (kx, ky) (1 / 2, sqrt 3 / 2)) energies.
Proof.
  unfold energies_at, library_only_energies_at.
  rewrite (momentum_closed_form la la_inv la_solve).
  cbn [bind Monad_result result_bind].
  replace (fst (dotv (transpose (transpose (prim_vecs (graphene notebook)))) (kx, ky)))
    with (inner (kx, ky) (1, 0)) by (unfold inner; simpl; ring).
  replace (snd (dotv (transpose (transpose (prim_vecs (graphene notebook)))) (kx, ky)))
    with (inner (kx, ky) (1 / 2, sqrt 3 / 2)) by (unfold inner; simpl; ring).
  reflexivity.
Qed.
End Energies.

(** C1 (amended): the energies that [dispersion_2D] collects are what the
    external libraries give at the lattice momentum
    [(k . (1, 0), k . (1/2, sqrt 3 / 2))] that the repository's
    [momentum_to_lattice] computes from the grid point [k = (kx, ky)], for
    every grid point of the two nested loops over [momenta]. *)
Theorem energies_use_lattice_momentum
  {Builder Syst Ham Cube Grid Evec : Type}
  (la : Linalg result) (kw : Kwant result Builder Syst Ham)
  (np : Numpy result Ham Cube Grid Evec) :
  inv_contract la -> solve_contract la ->
  forall (syst : Syst) (args : list arg),
    (forall kx ky energies,
        energies_at notebook syst args kx ky energies
        = library_only_energies_at syst args
            (inner (kx, ky) (1, 0)) (inner (kx, ky) (1 / 2, sqrt 3 / 2))
            energies) /\
    (forall momenta,
        grid_energies notebook syst args momenta
        = for_ momenta
            (fun kx energies =>
               for_ momenta
                 (fun ky energies =>
                    library_only_energies_at syst args
                      (inner (kx, ky) (1, 0))
                      (inner (kx, ky) (1 / 2, sqrt 3 / 2)) energies)
                 energies)
            []).
Proof.
  intros Hinv Hsolve syst args. split.
  - intros. apply energies_at_closed_form; assumption.
  - intros momenta. unfold grid_energies.
    apply for_ext. intros kx energies.
    apply for_ext. intros ky energies'.
    apply energies_at_closed_form; assumption.
Qed.

Lemma oneband_energies_transformed :
  energies_at (linalg := exact_linalg) (kwant := oneband_kwant) (numpy := list_numpy)
              notebook tt [] (2 * PI) 0 []
  = Ok [[-2]].
Proof.
  rewrite (energies_at_closed_form exact_linalg oneband_kwant list_numpy
             exact_inv_contract exact_solve_contract).
  unfold library_only_energies_at, inner. simpl. unfold last_float. simpl.
  replace (2 * PI * (1 / 2) + 0 * (sqrt 3 / 2)) with PI by lra.
  rewrite cos_PI. do 3 f_equal. lra.
Qed.

Lemma oneband_energies_untransformed :
  library_only_energies_at (kwant := oneband_kwant) (numpy := list_numpy)
                           tt [] (2 * PI) 0 []
  = Ok [[2]].
Proof.
  unfold library_only_energies_at. simpl. unfold last_float. simpl.
  rewrite cos_0. do 3 f_equal. lra.
Qed.

Lemma energies_use_lattice_momentum_witness :
  energies_at (linalg := exact_linalg) (kwant := oneband_kwant) (numpy := list_numpy)
              notebook tt [] (2 * PI) 0 []
  = library_only_energies_at (kwant := oneband_kwant) (numpy := list_numpy)
      tt [] (inner (2 * PI, 0) (1, 0)) (inner (2 * PI, 0) (1 / 2, sqrt 3 / 2)) [].
Proof.
  apply (energies_use_lattice_momentum exact_linalg oneband_kwant list_numpy
           exact_inv_contract exact_solve_contract tt []).
Defined.

(** C1 as stated fails: with the one-band stand-in library, the energies at
    the grid point [(2 pi, 0)] are [-2], while the library evaluated at the
    grid point itself gives [2]; the momentum transformation of the
    repository decides the value. *)
Lemma energies_not_determined_by_library_alone : ~ determined_by_library_alone.
Proof.
  intros H.
  specialize (H unit unit R (list (list R)) (list R) (list (list C))
                exact_linalg oneband_kwant list_numpy tt [] (2 * PI) 0 []
                exact_inv_contract exact_solve_contract).
  rewrite oneband_energies_transformed, oneband_energies_untransformed in H.
  injection H as H. lra.
Qed.

(** ** Complex numbers and values *)

Ltac c_crush :=
  repeat match goal with
         | X : cmat2 |- _ => destruct X as [[? ?] [? ?]]
         | X : Mat2 C |- _ => destruct X as [[? ?] [? ?]]
         | z : C |- _ => destruct z as [? ?]
         end;
  unfold cmat2_add, cmat2_mul, cmat2_scale, cmat2_dagger, cmat2_zero,
    to_complex, Mat2_map, Cadd, Cmul, Cconj, Copp, RtoC, Ci, sz, s0 in *;
  simpl in *.

#[export] Instance OrbitalLaws_C : OrbitalLaws C.
Proof.
  split; simpl; intros; c_crush; pair_eq; ring.
Qed.

#[export] Instance OrbitalLaws_cmat2 : OrbitalLaws cmat2.
Proof.
  split; simpl; intros; c_crush; pair_eq; ring.
Qed.

Lemma tag_eqb_eq (t1 t2 : Z * Z) : tag_eqb t1 t2 = true <-> t1 = t2.
Proof.
  destruct t1 as [x1 y1], t2 as [x2 y2]. unfold tag_eqb. simpl.
  rewrite andb_true_iff, !Z.eqb_eq. split.
  - intros [-> ->]. reflexivity.
  - intros H. injection H as -> ->. split; reflexivity.
Qed.

Lemma Site_eqb_eq (s1 s2 : Site) : Site_eqb s1 s2 = true <-> s1 = s2.
Proof.
  destruct s1 as [f1 t1], s2 as [f2 t2]. unfold Site_eqb. simpl.
  rewrite andb_true_iff, Nat.eqb_eq, tag_eqb_eq. split.
  - intros [-> ->]. reflexivity.
  - intros H. injection H as -> ->. split; reflexivity.
Qed.

Lemma Site_eqb_refl (s : Site) : Site_eqb s s = true.
Proof. apply Site_eqb_eq. reflexivity. Qed.

Lemma Site_eqb_sym (s1 s2 : Site) : Site_eqb s1 s2 = Site_eqb s2 s1.
Proof.
  destruct (Site_eqb s1 s2) eqn:E1, (Site_eqb s2 s1) eqn:E2; try reflexivity.
  - apply Site_eqb_eq in E1. subst. rewrite Site_eqb_refl in E2. discriminate.
  - apply Site_eqb_eq in E2. subst. rewrite Site_eqb_refl in E1. discriminate.
Qed.

Lemma Site_eqb_spec (s1 s2 : Site) : reflect (s1 = s2) (Site_eqb s1 s2).
Proof.
  destruct (Site_eqb s1 s2) eqn:E; constructor.
  - apply Site_eqb_eq. exact E.
  - intros H. apply Site_eqb_eq in H. congruence.
Qed.

(** ** The Bloch Hamiltonian of a wrapped-around system *)

Section BlochFacts.
Context {V : Type} {orbital : Orbital V} {laws : OrbitalLaws V}.

Lemma herm_conj_fold_left (l : list V) (init : V) :
  herm_conj (fold_left vadd l init)
  = fold_left vadd (map herm_conj l) (herm_conj init).
Proof.
  revert init. induction l as [| v l IH]; intros init; simpl; [reflexivity |].
  rewrite IH, herm_conj_vadd. reflexivity.
Qed.

Lemma contribution_transposed (params : list arg) (k : vec2) (r c : Site) h :
  Bloch.contribution params k r c h
  = herm_conj (Bloch.contribution params k c r h).
Proof.
  destruct h as [[s1 s2] f]. unfold Bloch.contribution.
  rewrite herm_conj_vadd, vadd_comm.
  destruct (Site_eqb s1 r && Site_eqb (Bloch.wrap s2) c),
    (Site_eqb s1 c && Site_eqb (Bloch.wrap s2) r);
    rewrite ?herm_conj_involutive, ?herm_conj_vzero; reflexivity.
Qed.

(** A periodic system whose onsite values are Hermitian has a Hermitian
    Bloch Hamiltonian, whatever its hopping values are. *)
Lemma bloch_entry_hermitian (pb : Bloch.PeriodicBuilder V) (params : list arg)
  (k : vec2) :
  (forall s, herm_conj (Bloch.cell_onsite pb s params) = Bloch.cell_onsite pb s params) ->
  forall r c,
    Bloch.bloch_entry pb params k r c
    = herm_conj (Bloch.bloch_entry pb params k c r).
Proof.
  intros Honsite r c. unfold Bloch.bloch_entry.
  rewrite herm_conj_fold_left, map_map. f_equal.
  - apply map_ext. intros h. apply contribution_transposed.
  - rewrite (Site_eqb_sym c r). destruct (Site_eqb_spec r c) as [-> | _].
    + symmetry. apply Honsite.
    + symmetry. apply herm_conj_vzero.
Qed.

Lemma bloch_hermitian (pb : Bloch.PeriodicBuilder V) (params : list arg) (k : vec2) :
  (forall s, herm_conj (Bloch.cell_onsite pb s params) = Bloch.cell_onsite pb s params) ->
  hermitian (Bloch.hamiltonian_submatrix pb params k).
Proof.
  intros Honsite i j _ _. simpl. apply bloch_entry_hermitian. exact Honsite.
Qed.

(** A property of values that sums, phases and conjugation preserve holds
    for every block of the Bloch Hamiltonian once it holds for the values
    of the sites and of the hoppings. *)
Lemma bloch_entry_closed (P : V -> Prop) (pb : Bloch.PeriodicBuilder V)
  (params : list arg) (k : vec2) :
  P vzero ->
  (forall v w, P v -> P w -> P (vadd v w)) ->
  (forall z v, P v -> P (vscale z v)) ->
  (forall v, P v -> P (herm_conj v)) ->
  (forall s, P (Bloch.cell_onsite pb s params)) ->
  (forall s1 s2 f, In ((s1, s2), f) (Bloch.stored_hoppings pb) -> P (f s1 s2 params)) ->
  forall r c, P (Bloch.bloch_entry pb params k r c).
Proof.
  intros P0 Padd Pscale Pconj Ponsite Phop r c. unfold Bloch.bloch_entry.
  assert (Hinit : P (if Site_eqb r c then Bloch.cell_onsite pb r params else vzero)).
  { destruct (Site_eqb r c); auto. }
  revert Hinit Phop. generalize (Bloch.stored_hoppings pb).
  generalize (if Site_eqb r c then Bloch.cell_onsite pb r params else vzero).
  intros init l. revert init. induction l as [| h l IH]; intros init Hinit Phop.
  - exact Hinit.
  - simpl. apply IH.
    + apply Padd; [exact Hinit |]. destruct h as [[s1 s2] f].
      unfold Bloch.contribution.
      assert (P (f s1 s2 params)) by (apply Phop; left; reflexivity).
      apply Padd.
      * destruct (Site_eqb s1 r && Site_eqb (Bloch.wrap s2) c); auto.
      * destruct (Site_eqb s1 c && Site_eqb (Bloch.wrap s2) r); auto.
    + intros s1 s2 f Hin. apply Phop. right. exact Hin.
Qed.
End BlochFacts.

(** ** The builder model *)

Section BuilderFacts.
Import KwantModel.
Context {V : Type} {orbital : Orbital V}.

Lemma has_site_In (bd : Builder V) (s : Site) :
  has_site bd s = true <-> In s (sites bd).
Proof.
  unfold has_site. rewrite existsb_exists. split.
  - intros (s' & Hin & E). apply Site_eqb_eq in E. subst. exact Hin.
  - intros Hin. exists s. split; [exact Hin | apply Site_eqb_refl].
Qed.

Lemma setitem_sites_edge (ss : list Site) (f : onsite_fn V) (bd : Builder V) :
  edge_value (setitem_sites bd ss f) = edge_value bd.
Proof.
  unfold setitem_sites. revert bd.
  induction ss as [| s ss IH]; intros bd; simpl; [reflexivity |].
  rewrite IH. reflexivity.
Qed.

Lemma setitem_sites_onsite (ss : list Site) (f : onsite_fn V) (bd : Builder V) (s : Site) :
  onsite_value (setitem_sites bd ss f) s
  = if existsb (Site_eqb s) ss then Some f else onsite_value bd s.
Proof.
  unfold setitem_sites. revert bd.
  induction ss as [| s0 ss IH]; intros bd; simpl; [reflexivity |].
  rewrite IH. simpl.
  destruct (existsb (Site_eqb s) ss); [rewrite orb_true_r; reflexivity |].
  rewrite orb_false_r. reflexivity.
Qed.

Lemma setitem_sites_sites (ss : list Site) (f : onsite_fn V) (bd : Builder V) :
  NoDup (sites bd ++ ss) ->
  sites (setitem_sites bd ss f) = sites bd ++ ss.
Proof.
  unfold setitem_sites. revert bd.
  induction ss as [| s ss IH]; intros bd Hnd; simpl.
  - rewrite app_nil_r. reflexivity.
  - rewrite IH.
    + simpl. destruct (has_site bd s) eqn:E.
      * apply has_site_In in E. apply NoDup_remove_2 in Hnd.
        exfalso. apply Hnd. apply in_or_app. left. exact E.
      * rewrite <- app_assoc. reflexivity.
    + simpl. destruct (has_site bd s) eqn:E.
      * apply has_site_In in E. apply NoDup_remove_2 in Hnd.
        exfalso. apply Hnd. apply in_or_app. left. exact E.
      * rewrite <- app_assoc. exact Hnd.
Qed.

Lemma set_hopping_valid (bd : Builder V) (hop : Site * Site) (f : hopping_fn V) :
  valid_hopping bd hop ->
  set_hopping bd hop f
  = Ok {| sites := sites bd;
          onsite_value := onsite_value bd;
          edge_value := set_edge (set_edge (edge_value bd) (fst hop) (snd hop) (Stored f))
                                 (snd hop) (fst hop) Other |}.
Proof.
  destruct hop as [s1 s2]. intros (Hne & H1 & H2). simpl in *.
  destruct (Site_eqb_spec s1 s2) as [E | _]; [contradiction |].
  rewrite H1, H2. reflexivity.
Qed.

(** The edges after [builder[s1, s2] = f]. *)
Lemma set_hopping_lookup (ev : Site -> Site -> option (edge V)) (s1 s2 a b : Site)
  (f : hopping_fn V) :
  s1 <> s2 ->
  let ev' := set_edge (set_edge ev s1 s2 (Stored f)) s2 s1 Other in
  (a = s2 /\ b = s1 /\ ev' a b = Some Other) \/
  (a = s1 /\ b = s2 /\ ev' a b = Some (Stored f)) \/
  ((a, b) <> (s1, s2) /\ (a, b) <> (s2, s1) /\ ev' a b = ev a b).
Proof.
  intros Hne ev'. subst ev'. unfold set_edge.
  destruct (Site_eqb_spec a s2) as [Ea2 | Ea2];
    destruct (Site_eqb_spec b s1) as [Eb1 | Eb1];
    destruct (Site_eqb_spec a s1) as [Ea1 | Ea1];
    destruct (Site_eqb_spec b s2) as [Eb2 | Eb2];
    simpl; subst; try contradiction; try congruence; auto;
    right; right; repeat split; congruence.
Qed.

Lemma set_hopping_paired (bd bd' : Builder V) (hop : Site * Site) (f : hopping_fn V) :
  edges_paired bd -> set_hopping bd hop f = Ok bd' -> edges_paired bd'.
Proof.
  destruct hop as [s1 s2]. intros [Hself Hpair] Hset. unfold set_hopping in Hset.
  destruct (Site_eqb_spec s1 s2) as [| Hne]; [discriminate |].
  destruct (has_site bd s1 && has_site bd s2); [| discriminate].
  injection Hset as <-. split; simpl.
  - intros s.
    destruct (set_hopping_lookup (edge_value bd) s1 s2 s s f Hne)
      as [(-> & E & _) | [(-> & E & _) | (_ & _ & ->)]];
      [congruence | congruence | apply Hself].
  - intros x y.
    destruct (set_hopping_lookup (edge_value bd) s1 s2 x y f Hne)
      as [(Ex & Ey & Hxy) | [(Ex & Ey & Hxy) | (N1 & N2 & Hxy)]];
      destruct (set_hopping_lookup (edge_value bd) s1 s2 y x f Hne)
        as [(Ey' & Ex' & Hyx) | [(Ey' & Ex' & Hyx) | (N3 & N4 & Hyx)]];
      subst; try congruence; rewrite Hxy, Hyx.
    + split; [intros _; exists f; reflexivity | reflexivity].
    + split; [discriminate | intros (g & Hg); discriminate].
    + apply Hpair.
Qed.

End BuilderFacts.

Section FiniteSystemFacts.
Import KwantModel.
Context {V : Type} {orbital : Orbital V}.

Lemma valid_hopping_sites (bd bd' : Builder V) (hop : Site * Site) :
  sites bd' = sites bd -> valid_hopping bd hop -> valid_hopping bd' hop.
Proof.
  intros E (Hne & H1 & H2). unfold valid_hopping, has_site in *.
  rewrite E. repeat split; assumption.
Qed.

(** [builder[hoppings] = f] for a list of valid hoppings: the call returns,
    the sites and their values are untouched, the invariant is kept, the
    pairs that carry an edge afterwards are the old ones and the listed
    ones, in either direction, and every new stored value is [f]. *)
Lemma for_set_hopping (f : hopping_fn V) (hops : list (Site * Site)) :
  forall bd : Builder V,
    (forall hop, In hop hops -> valid_hopping bd hop) ->
    exists bd',
      for_ hops (fun hop bd => set_hopping bd hop f) bd = Ok bd' /\
      sites bd' = sites bd /\
      onsite_value bd' = onsite_value bd /\
      (edges_paired bd -> edges_paired bd') /\
      (forall x y, edge_value bd' x y = None <->
                   edge_value bd x y = None /\ ~ In (x, y) hops /\ ~ In (y, x) hops) /\
      (forall x y h, edge_value bd' x y = Some (Stored h) ->
                     edge_value bd x y = Some (Stored h) \/ h = f).
Proof.
  induction hops as [| hop hops IH]; intros bd Hvalid.
  - exists bd. simpl.
    split; [reflexivity |]. split; [reflexivity |]. split; [reflexivity |].
    split; [auto |]. split.
    + intros x y. split; [intros H; repeat split; auto | intros (H & _); exact H].
    + intros x y h H. left. exact H.
  - assert (Hv : valid_hopping bd hop) by (apply Hvalid; left; reflexivity).
    pose proof (set_hopping_valid bd hop f Hv) as Hset.
    set (bd1 := {| sites := sites bd; onsite_value := onsite_value bd;
                   edge_value := set_edge
                                   (set_edge (edge_value bd) (fst hop) (snd hop) (Stored f))
                                   (snd hop) (fst hop) Other |}) in *.
    destruct (IH bd1) as (bd' & Hfor & Hs & Ho & Hp & Hnone & Hst).
    { intros hop' Hin. apply (valid_hopping_sites bd); [reflexivity |].
      apply Hvalid. right. exact Hin. }
    exists bd'. cbn [for_]. simpl. rewrite Hset. simpl.
    split; [exact Hfor |]. split; [exact Hs |]. split; [exact Ho |].
    destruct hop as [s1 s2]. destruct Hv as (Hne & _ & _). simpl in Hne.
    split; [| split].
    + intros Hpaired. apply Hp. eapply set_hopping_paired; eassumption.
    + intros x y. rewrite Hnone. simpl.
      destruct (set_hopping_lookup (edge_value bd) s1 s2 x y f Hne)
        as [(Ex & Ey & Hxy) | [(Ex & Ey & Hxy) | (N1 & N2 & Hxy)]];
        simpl in Hxy; rewrite Hxy.
      * subst. split; [intros (H & _); discriminate |].
        intros (_ & _ & H). exfalso. apply H. left. reflexivity.
      * subst. split; [intros (H & _); discriminate |].
        intros (_ & H & _). exfalso. apply H. left. reflexivity.
      * split.
        -- intros (H0 & H1 & H2). split; [exact H0 |].
           split; intros [E | Hin]; try tauto.
           ++ apply N1. symmetry. exact E.
           ++ apply N2. injection E as -> ->. reflexivity.
        -- intros (H0 & H1 & H2). split; [exact H0 |].
           split; intros Hin; [apply H1 | apply H2]; right; exact Hin.
    + intros x y h Hh. apply Hst in Hh. destruct Hh as [Hh | ->]; [| right; reflexivity].
      simpl in Hh.
      destruct (set_hopping_lookup (edge_value bd) s1 s2 x y f Hne)
        as [(Ex & Ey & Hxy) | [(Ex & Ey & Hxy) | (N1 & N2 & Hxy)]];
        simpl in Hxy; rewrite Hxy in Hh.
      * discriminate.
      * injection Hh as <-. right. reflexivity.
      * left. exact Hh.
Qed.

Lemma in_expand (bd : Builder V) (kind : HoppingKind) (x y : Site) :
  In (x, y) (expand bd kind) <->
  In x (sites bd) /\ family x = family_a kind /\
  y = mkSite (family_b kind) (tag_sub (tag x) (delta kind)) /\
  has_site bd y = true.
Proof.
  unfold expand. rewrite in_flat_map. split.
  - intros (s1 & Hin & H).
    destruct (Nat.eqb_spec (family s1) (family_a kind)) as [Ef |]; [| contradiction].
    destruct (has_site bd (mkSite (family_b kind) (tag_sub (tag s1) (delta kind)))) eqn:Eh;
      [| contradiction].
    destruct H as [H | []]. injection H as <- <-. auto.
  - intros (Hin & Ef & -> & Eh). exists x. split; [exact Hin |].
    rewrite Ef, Nat.eqb_refl, Eh. left. reflexivity.
Qed.

Context {laws : OrbitalLaws V}.

(** A builder that keeps the invariant and whose onsite values are
    Hermitian finalizes to a system whose Hamiltonian matrix is
    Hermitian. *)
Lemma finite_hamiltonian_hermitian (bd : Builder V) (args : list arg) :
  edges_paired bd ->
  (forall s h, onsite_value bd s = Some h -> herm_conj (h s args) = h s args) ->
  hermitian (hamiltonian_submatrix (finalized bd) args).
Proof.
  intros [Hself Hpair] Honsite i j _ _. simpl. unfold hamiltonian. simpl.
  rewrite (Nat.eqb_sym j i).
  destruct (Nat.eqb_spec i j) as [-> | Hij].
  - destruct (onsite_value bd (site_at (sites bd) j)) as [h |] eqn:E.
    + symmetry. apply Honsite. exact E.
    + symmetry. apply herm_conj_vzero.
  - set (si := site_at (sites bd) i). set (sj := site_at (sites bd) j).
    destruct (edge_value bd si sj) as [[| h] |] eqn:Eij.
    + destruct (proj1 (Hpair si sj) Eij) as (h & Eji). rewrite Eji, ?Eij. reflexivity.
    + assert (Eji : edge_value bd sj si = Some Other).
      { apply Hpair. exists h. exact Eij. }
      rewrite Eji, ?Eij. symmetry. apply herm_conj_involutive.
    + destruct (edge_value bd sj si) as [[| h] |] eqn:Eji.
      * destruct (proj1 (Hpair sj si) Eji) as (h & E). congruence.
      * assert (E : edge_value bd si sj = Some Other).
        { apply Hpair. exists h. exact Eji. }
        congruence.
      * symmetry. apply herm_conj_vzero.
Qed.
End FiniteSystemFacts.

(** The model at work on a chain of two sites: the hopping is stored from
    site 1 to site 0, and read from site 0 to site 1 as its conjugate. *)
Example two_site_chain :
  exists bd,
    Session.two_sites = Ok bd /\
    KwantModel.graph (KwantModel.finalized bd) = [(0, 1); (1, 0)]%nat /\
    let H := KwantModel.hamiltonian_submatrix (KwantModel.finalized bd) [] in
    dim H = 2%nat /\
    entry H 0 0 = RtoC 4 /\ entry H 1 1 = RtoC 4 /\
    entry H 1 0 = RtoC (-1) /\ entry H 0 1 = Cconj (RtoC (-1)).
Proof.
  eexists. split; [reflexivity |]. repeat split.
Qed.

(** ** The quantum dot *)

Lemma hits_ext (lat : Lattice) (p q : Site -> bool) (tg : Z * Z) :
  (forall s, p s = q s) -> hits lat p tg = hits lat q tg.
Proof. intros H. unfold hits. apply filter_ext. exact H. Qed.

Lemma sweep_ext (lat : Lattice) (p q : Site -> bool) (inner outer todo : list (Z * Z)) :
  (forall s, p s = q s) ->
  forall tmp found,
    sweep lat p inner outer todo tmp found = sweep lat q inner outer todo tmp found.
Proof.
  intros H. induction todo as [| tg todo IH]; intros tmp found; simpl; [reflexivity |].
  rewrite (hits_ext lat p q tg H). destruct (hits lat q tg); apply IH.
Qed.

Lemma flood_ext (lat : Lattice) (p q : Site -> bool) (fuel : nat) :
  (forall s, p s = q s) ->
  forall inner outer found,
    flood fuel lat p inner outer found = flood fuel lat q inner outer found.
Proof.
  intros H. induction fuel as [| fuel IH]; intros inner outer found; simpl.
  - reflexivity.
  - destruct outer as [| tg outer]; [reflexivity |].
    rewrite (sweep_ext lat p q inner (tg :: outer) (tg :: outer) H).
    destruct (sweep lat q inner (tg :: outer) (tg :: outer) [] found). apply IH.
Qed.

Lemma shape_sites_ext (lat : Lattice) (p q : Site -> bool) (fuel : nat) (start : Z * Z) :
  (forall s, p s = q s) ->
  shape_sites fuel lat p start = shape_sites fuel lat q start.
Proof.
  intros H. unfold shape_sites.
  rewrite (hits_ext lat p q start H), (flood_ext lat p q fuel H). reflexivity.
Qed.

Lemma square_pos (s : Site) :
  pos DotModel.lat s = (IZR (fst (tag s)), IZR (snd (tag s))).
Proof.
  destruct s as [fam [x y]]. unfold pos. simpl.
  destruct fam as [| [| fam]]; simpl; pair_eq; ring.
Qed.

Lemma circle_on_square (g : Dot.namespace) (s : Site) :
  Dot.circle g (pos DotModel.lat s) = Dot.circle_tag g (tag s).
Proof.
  rewrite square_pos. destruct s as [fam [x y]]. simpl fst. simpl snd.
  apply circle_at_tag.
Qed.

Lemma dot_shape :
  shape 30 DotModel.lat (Dot.circle Dot.notebook) (0, 0)%Z = Some (Ok DotModel.dot_sites).
Proof.
  unfold shape.
  rewrite (shape_sites_ext _ _ (fun s => Dot.circle_tag Dot.notebook (tag s))).
  - vm_compute. reflexivity.
  - intros s. apply circle_on_square.
Qed.

Lemma nodupb_sound (l : list Site) : DotModel.nodupb l = true -> NoDup l.
Proof.
  induction l as [| s l IH]; simpl; intros H; constructor.
  - apply andb_true_iff in H. destruct H as [H _].
    apply negb_true_iff in H. intros Hin.
    assert (E : existsb (Site_eqb s) l = true).
    { apply existsb_exists. exists s. split; [exact Hin | apply Site_eqb_refl]. }
    congruence.
  - apply IH. apply andb_true_iff in H. tauto.
Qed.

Lemma dot_sites_nodup : NoDup DotModel.dot_sites.
Proof. apply nodupb_sound. vm_compute. reflexivity. Qed.

Lemma dot_sites_inside (s : Site) :
  In s DotModel.dot_sites ->
  family s = 0%nat /\ Dot.circle_tag Dot.notebook (tag s) = true.
Proof.
  assert (H : forallb (fun s => Nat.eqb (family s) 0%nat
                                && Dot.circle_tag Dot.notebook (tag s))
                      DotModel.dot_sites = true) by (vm_compute; reflexivity).
  rewrite forallb_forall in H. intros Hin. specialize (H s Hin).
  apply andb_true_iff in H. destruct H as [Hf Hc].
  apply Nat.eqb_eq in Hf. split; assumption.
Qed.

Lemma window_complete (x y : Z) :
  (-14 <= x <= 14)%Z -> (-14 <= y <= 14)%Z -> In (x, y) DotModel.window.
Proof.
  intros Hx Hy. unfold DotModel.window. apply in_prod; apply in_map_iff.
  - exists (Z.to_nat (x + 14)). split; [lia |]. apply in_seq. lia.
  - exists (Z.to_nat (y + 14)). split; [lia |]. apply in_seq. lia.
Qed.

Lemma dot_sites_complete (x y : Z) :
  Dot.circle_tag Dot.notebook (x, y) = true ->
  In (mkSite 0%nat (x, y)) DotModel.dot_sites.
Proof.
  intros Hc.
  assert (H : forallb (fun tg => implb (Dot.circle_tag Dot.notebook tg)
                                      (existsb (Site_eqb (mkSite 0%nat tg)) DotModel.dot_sites))
                      DotModel.window = true) by (vm_compute; reflexivity).
  rewrite forallb_forall in H.
  assert (Hin : In (x, y) DotModel.window).
  { unfold Dot.circle_tag in Hc. simpl in Hc. apply Z.ltb_lt in Hc.
    apply window_complete; nia. }
  specialize (H _ Hin). rewrite Hc in H. cbn [implb] in H.
  apply existsb_exists in H. destruct H as (s & Hs & E).
  apply Site_eqb_eq in E. subst. exact Hs.
Qed.

Section DotFacts.
Import KwantModel.

Lemma square_hops_valid (bd : Builder C) (hop : Site * Site) :
  In hop (flat_map (expand bd) DotModel.square_neighbors) -> valid_hopping bd hop.
Proof.
  destruct hop as [x y]. rewrite in_flat_map. intros (kind & Hk & Hin).
  apply in_expand in Hin. destruct Hin as (Hx & _ & Hy & Hhas).
  unfold valid_hopping. simpl. split; [| split].
  - intros E. subst y. destruct x as [fx [x1 x2]]. simpl in E.
    destruct Hk as [<- | [<- | []]]; simpl in E; injection E; intros; lia.
  - apply has_site_In. exact Hx.
  - exact Hhas.
Qed.

Lemma square_hops_adjacent (bd : Builder C) (x y : Site) :
  In x (sites bd) -> In y (sites bd) -> family x = 0%nat -> family y = 0%nat ->
  (In (x, y) (flat_map (expand bd) DotModel.square_neighbors) \/
   In (y, x) (flat_map (expand bd) DotModel.square_neighbors))
  <-> DotModel.adjacent x y = true.
Proof.
  intros Hx Hy Fx Fy.
  destruct x as [fx [x1 x2]], y as [fy [y1 y2]]. simpl in Fx, Fy. subst fx fy.
  unfold DotModel.adjacent, tag_sub. simpl fst. simpl snd. rewrite Z.eqb_eq.
  rewrite !in_flat_map. split.
  - intros [(kind & Hk & Hin) | (kind & Hk & Hin)];
      apply in_expand in Hin; destruct Hin as (_ & _ & E & _);
      destruct Hk as [<- | [<- | []]]; unfold tag_sub in E; simpl in E;
      injection E; intros; lia.
  - intros Hadj.
    assert (Hcases : ((x1 - y1 = 1 /\ x2 - y2 = 0) \/ (x1 - y1 = 0 /\ x2 - y2 = 1) \/
                      (y1 - x1 = 1 /\ y2 - x2 = 0) \/ (y1 - x1 = 0 /\ y2 - x2 = 1))%Z)
      by lia.
    destruct Hcases as [[E1 E2] | [[E1 E2] | [[E1 E2] | [E1 E2]]]].
    + left. exists (mkHoppingKind (1, 0)%Z 0%nat 0%nat). split; [left; reflexivity |].
      apply in_expand. repeat split; auto.
      * unfold tag_sub. simpl. do 2 f_equal; lia.
      * unfold tag_sub. simpl. apply has_site_In.
        replace (x1 - 1)%Z with y1 by lia. replace (x2 - 0)%Z with y2 by lia. exact Hy.
    + left. exists (mkHoppingKind (0, 1)%Z 0%nat 0%nat).
      split; [right; left; reflexivity |].
      apply in_expand. repeat split; auto.
      * unfold tag_sub. simpl. do 2 f_equal; lia.
      * unfold tag_sub. simpl. apply has_site_In.
        replace (x1 - 0)%Z with y1 by lia. replace (x2 - 1)%Z with y2 by lia. exact Hy.
    + right. exists (mkHoppingKind (1, 0)%Z 0%nat 0%nat). split; [left; reflexivity |].
      apply in_expand. repeat split; auto.
      * unfold tag_sub. simpl. do 2 f_equal; lia.
      * unfold tag_sub. simpl. apply has_site_In.
        replace (y1 - 1)%Z with x1 by lia. replace (y2 - 0)%Z with x2 by lia. exact Hx.
    + right. exists (mkHoppingKind (0, 1)%Z 0%nat 0%nat).
      split; [right; left; reflexivity |].
      apply in_expand. repeat split; auto.
      * unfold tag_sub. simpl. do 2 f_equal; lia.
      * unfold tag_sub. simpl. apply has_site_In.
        replace (y1 - 0)%Z with x1 by lia. replace (y2 - 1)%Z with x2 by lia. exact Hx.
Qed.

(** The builder that cell [244-253] leaves in [sys]. *)
Lemma dot_sys_spec :
  exists sys : Builder C,
    DotModel.build_sys Dot.notebook 30 = Some (Ok sys) /\
    sites sys = DotModel.dot_sites /\
    (forall s, onsite_value sys s
               = if existsb (Site_eqb s) DotModel.dot_sites
                 then Some (fun _ _ => DotModel.int_value (4 * Dot.t Dot.notebook))
                 else None) /\
    edges_paired sys /\
    (forall x y, In x DotModel.dot_sites -> In y DotModel.dot_sites ->
                 (edge_value sys x y = None <-> DotModel.adjacent x y = false)) /\
    (forall x y h, edge_value sys x y = Some (Stored h) ->
                   h = fun _ _ _ => DotModel.int_value (- Dot.t Dot.notebook)).
Proof.
  pose (f4 := fun (_ : Site) (_ : list arg) => DotModel.int_value (4 * Dot.t Dot.notebook)).
  pose (ft := fun (_ _ : Site) (_ : list arg) => DotModel.int_value (- Dot.t Dot.notebook)).
  pose (sys1 := setitem_sites Builder_new DotModel.dot_sites f4).
  assert (Hbuild : DotModel.build_sys Dot.notebook 30
                   = Some (setitem_hoppings sys1 DotModel.square_neighbors ft)).
  { unfold DotModel.build_sys. rewrite dot_shape. reflexivity. }
  assert (Hs1 : sites sys1 = DotModel.dot_sites).
  { unfold sys1. rewrite setitem_sites_sites.
    - reflexivity.
    - change (sites Builder_new ++ DotModel.dot_sites) with DotModel.dot_sites.
      exact dot_sites_nodup. }
  assert (He1 : edge_value sys1 = fun _ _ => None).
  { unfold sys1. rewrite setitem_sites_edge. reflexivity. }
  assert (Ho1 : forall s, onsite_value sys1 s
                          = if existsb (Site_eqb s) DotModel.dot_sites
                            then Some f4 else None).
  { intros s. unfold sys1. rewrite setitem_sites_onsite. reflexivity. }
  clearbody sys1.
  destruct (for_set_hopping ft (flat_map (expand sys1) DotModel.square_neighbors) sys1)
    as (sys & Hfor & Hs & Ho & Hp & Hnone & Hst).
  { intros hop. apply square_hops_valid. }
  exists sys. split.
  { rewrite Hbuild. unfold setitem_hoppings. rewrite Hfor. reflexivity. }
  split.
  { rewrite Hs. exact Hs1. }
  split; [| split; [| split]].
  - intros s. rewrite Ho. apply Ho1.
  - apply Hp. unfold edges_paired. rewrite He1. split; [reflexivity |].
    intros s1 s2. split; [discriminate | intros (h & Hh); discriminate].
  - intros x y Hx Hy. rewrite Hnone, He1.
    destruct (dot_sites_inside x Hx) as [Fx _].
    destruct (dot_sites_inside y Hy) as [Fy _].
    rewrite <- Hs1 in Hx, Hy.
    pose proof (square_hops_adjacent sys1 x y Hx Hy Fx Fy) as Hadj.
    destruct (DotModel.adjacent x y); split.
    + intros (_ & N1 & N2). exfalso.
      destruct (proj2 Hadj eq_refl); [apply N1 | apply N2]; assumption.
    + discriminate.
    + reflexivity.
    + intros _. split; [reflexivity |].
      split; intros Hin; assert (false = true) by (apply Hadj; auto); discriminate.
  - intros x y h Hh. apply Hst in Hh. rewrite He1 in Hh.
    destruct Hh as [Hh | Hh]; [discriminate | exact Hh].
Qed.
End DotFacts.

Lemma site_at_In {l : list Site} {i : nat} :
  (i < length l)%nat -> In (KwantModel.site_at l i) l.
Proof. intros H. unfold KwantModel.site_at. apply nth_In. exact H. Qed.

(** C5: the system of cell [244-253] is built without an error; its sites
    are the sites of the square lattice with [circle(pos)] true; its
    Hamiltonian matrix has [4 t = 4] on the diagonal, [-t = -1] between
    nearest neighbours, and zero everywhere else. *)
Theorem dot_hamiltonian_entries :
  exists sys : KwantModel.Builder C,
    DotModel.build_sys Dot.notebook 30 = Some (Ok sys) /\
    (forall s, In s (KwantModel.sites sys) <->
               family s = 0%nat /\ Dot.circle Dot.notebook (pos DotModel.lat s) = true) /\
    NoDup (KwantModel.sites sys) /\
    length (KwantModel.sites sys) = 697%nat /\
    let ham := KwantModel.hamiltonian_submatrix (KwantModel.finalized sys) [] in
    dim ham = 697%nat /\
    forall i j, (i < dim ham)%nat -> (j < dim ham)%nat ->
      entry ham i j
      = if Nat.eqb i j then RtoC (IZR (4 * Dot.t Dot.notebook))
        else if DotModel.adjacent (KwantModel.site_at (KwantModel.sites sys) i)
                                  (KwantModel.site_at (KwantModel.sites sys) j)
             then RtoC (IZR (- Dot.t Dot.notebook))
             else RtoC 0.
Proof.
  destruct dot_sys_spec as (sys & Hbuild & Hs & Ho & Hp & Hnone & Hst).
  exists sys. split; [exact Hbuild |].
  assert (Hlen : length (KwantModel.sites sys) = 697%nat).
  { rewrite Hs. vm_compute. reflexivity. }
  split; [| split; [rewrite Hs; exact dot_sites_nodup |
                     split; [exact Hlen | split; [exact Hlen |]]]].
  - intros s. rewrite Hs, circle_on_square. split.
    + apply dot_sites_inside.
    + destruct s as [fam [x y]]. simpl. intros [-> Hc].
      apply dot_sites_complete. exact Hc.
  - cbn [dim entry KwantModel.hamiltonian_submatrix KwantModel.finalized
           KwantModel.fsites].
    intros i j Hi Hj. unfold KwantModel.hamiltonian.
    cbn [KwantModel.fsites KwantModel.fonsite KwantModel.fedge KwantModel.finalized].
    set (si := KwantModel.site_at (KwantModel.sites sys) i).
    set (sj := KwantModel.site_at (KwantModel.sites sys) j).
    assert (Hsi : In si DotModel.dot_sites) by (rewrite <- Hs; apply site_at_In; exact Hi).
    assert (Hsj : In sj DotModel.dot_sites) by (rewrite <- Hs; apply site_at_In; exact Hj).
    destruct (Nat.eqb_spec i j) as [Eij | Nij].
    + rewrite Ho.
      assert (E : existsb (Site_eqb si) DotModel.dot_sites = true).
      { apply existsb_exists. exists si. split; [exact Hsi | apply Site_eqb_refl]. }
      rewrite E. reflexivity.
    + pose proof (Hnone si sj Hsi Hsj) as Hadj.
      destruct (KwantModel.edge_value sys si sj) as [[| h] |] eqn:E.
      * destruct (DotModel.adjacent si sj);
          [| assert (Some KwantModel.Other = None :> option (KwantModel.edge C))
               by (apply Hadj; reflexivity); discriminate].
        destruct (proj1 (proj2 Hp si sj) E) as (h & Eh).
        rewrite Eh. rewrite (Hst _ _ _ Eh).
        unfold DotModel.int_value, RtoC. simpl. unfold Cconj. simpl. pair_eq; lra.
      * destruct (DotModel.adjacent si sj);
          [| assert (Some (KwantModel.Stored h) = None :> option (KwantModel.edge C))
               by (apply Hadj; reflexivity); discriminate].
        rewrite (Hst _ _ _ E). reflexivity.
      * destruct (DotModel.adjacent si sj); [| reflexivity].
        assert (true = false) by (apply Hadj; reflexivity). discriminate.
Qed.

(** ** Hermiticity of what the eigensolvers receive *)

Lemma haldane_onsite_hermitian (g : namespace) (s : Site) (args : list arg) :
  herm_conj (Bloch.cell_onsite (Bloch.haldane g []) s args)
  = Bloch.cell_onsite (Bloch.haldane g []) s args.
Proof.
  simpl. unfold with_params. destruct args as [| [params | x] rest]; simpl;
    unfold Cconj, RtoC; simpl; pair_eq; lra.
Qed.

Lemma kane_mele_onsite_hermitian (g : namespace) (s : Site) (args : list arg) :
  herm_conj (Bloch.cell_onsite (Bloch.bulk_kane_mele g []) s args)
  = Bloch.cell_onsite (Bloch.bulk_kane_mele g []) s args.
Proof.
  simpl. unfold with_params. destruct args as [| [params | x] rest]; simpl;
    unfold KaneMele.onsite, mat2_scale_r; c_crush; pair_eq; lra.
Qed.

(** C2: every matrix that reaches a Hermitian eigensolver equals its own
    conjugate transpose: the Hamiltonian of the quantum dot handed to
    [la.eigh], and, for all [m], [t_2] and all momenta, the Hamiltonians of
    wrapped-around graphene, Haldane and Kane-Mele systems handed to
    [np.linalg.eigvalsh]; the next-nearest-neighbour hopping values
    themselves are anti-Hermitian. *)
Theorem eigensolver_inputs_hermitian :
  (exists sys : KwantModel.Builder C,
      DotModel.build_sys Dot.notebook 30 = Some (Ok sys) /\
      hermitian (KwantModel.hamiltonian_submatrix (KwantModel.finalized sys) [])) /\
  (forall neighbors_1 k,
      hermitian (Bloch.hamiltonian_submatrix
                   (Bloch.bulk_graphene notebook neighbors_1) [] k)) /\
  (forall neighbors_1 t_2 m k,
      hermitian (Bloch.hamiltonian_submatrix
                   (Bloch.haldane notebook neighbors_1)
                   [ArgParams (mkParams t_2 m)] k)) /\
  (forall neighbors_1 t_2 m k,
      hermitian (Bloch.hamiltonian_submatrix
                   (Bloch.bulk_kane_mele notebook neighbors_1)
                   [ArgParams (mkParams t_2 m)] k)) /\
  (forall s1 s2 params,
      herm_conj (Haldane.nnn_hopping s1 s2 params)
      = Copp (Haldane.nnn_hopping s1 s2 params)) /\
  (forall s1 s2 params,
      herm_conj (KaneMele.spin_orbit s1 s2 params)
      = cmat2_scale (RtoC (-1)) (KaneMele.spin_orbit s1 s2 params)).
Proof.
  repeat match goal with |- _ /\ _ => split end.
  - destruct dot_sys_spec as (sys & Hbuild & Hs & Ho & Hp & Hnone & Hst).
    exists sys. split; [exact Hbuild |].
    apply finite_hamiltonian_hermitian; [exact Hp |].
    intros s h Hh. rewrite Ho in Hh.
    destruct (existsb (Site_eqb s) DotModel.dot_sites); [| discriminate].
    injection Hh as <-. unfold DotModel.int_value. simpl.
    unfold Cconj, RtoC. simpl. pair_eq; lra.
  - intros nn k. apply bloch_hermitian. intros s. simpl.
    unfold Cconj, RtoC. simpl. pair_eq; lra.
  - intros nn t_2 m k. apply bloch_hermitian. intros s.
    apply (haldane_onsite_hermitian notebook s).
  - intros nn t_2 m k. apply bloch_hermitian. intros s.
    apply (kane_mele_onsite_hermitian notebook s).
  - intros s1 s2 params. unfold Haldane.nnn_hopping. simpl. c_crush. pair_eq; lra.
  - intros s1 s2 params. unfold KaneMele.spin_orbit. simpl. c_crush. pair_eq; lra.
Qed.

(** ** Spin conservation in the Kane-Mele model *)

Lemma commutes_iff_no_flip (X : cmat2) :
  commutes_with_sz X <-> spin_flip X = (RtoC 0, RtoC 0).
Proof.
  unfold commutes_with_sz, spin_flip. c_crush. split.
  - intros H. injection H; intros. pair_eq; lra.
  - intros H. injection H; intros. subst. pair_eq; lra.
Qed.

Lemma commutes_vzero : commutes_with_sz vzero.
Proof. unfold commutes_with_sz. simpl. c_crush. pair_eq; lra. Qed.

Lemma commutes_vadd (X Y : cmat2) :
  commutes_with_sz X -> commutes_with_sz Y -> commutes_with_sz (vadd X Y).
Proof.
  rewrite !commutes_iff_no_flip. unfold spin_flip. simpl. c_crush.
  intros HX HY. injection HX; intros. injection HY; intros. subst. pair_eq; lra.
Qed.

Lemma commutes_vscale (z : C) (X : cmat2) :
  commutes_with_sz X -> commutes_with_sz (vscale z X).
Proof.
  rewrite !commutes_iff_no_flip. unfold spin_flip. simpl. c_crush.
  intros HX. injection HX; intros. subst. pair_eq; ring.
Qed.

Lemma commutes_herm_conj (X : cmat2) :
  commutes_with_sz X -> commutes_with_sz (herm_conj X).
Proof.
  rewrite !commutes_iff_no_flip. unfold spin_flip. simpl. c_crush.
  intros HX. injection HX; intros. subst. pair_eq; lra.
Qed.

Lemma kane_mele_values_commute (g : namespace) (params : SimpleNamespace) :
  (forall s, commutes_with_sz (to_complex (KaneMele.onsite g s params))) /\
  commutes_with_sz (to_complex s0) /\
  (forall s1 s2, commutes_with_sz (KaneMele.spin_orbit s1 s2 params)).
Proof.
  split; [| split]; intros; apply commutes_iff_no_flip; unfold spin_flip;
    unfold KaneMele.onsite, KaneMele.spin_orbit, mat2_scale_r; c_crush;
    pair_eq; ring.
Qed.

Lemma in_hoppings {V : Type} (cell : list Site) (kinds : list HoppingKind)
  (f h : Site -> Site -> list arg -> V) (s1 s2 : Site) :
  In ((s1, s2), h) (Bloch.hoppings cell kinds f) -> h = f.
Proof.
  unfold Bloch.hoppings. rewrite in_map_iff. intros (hop & E & _).
  injection E as _ <-. reflexivity.
Qed.

(** Two periodic systems with the same hoppings whose values correspond
    under a map [phi] that respects sums, phases and conjugation have
    corresponding Bloch Hamiltonians. *)
Section BlochMap.
Context {V W : Type} {orbV : Orbital V} {orbW : Orbital W}.
Variable phi : V -> W.
Hypothesis phi_vzero : phi vzero = vzero.
Hypothesis phi_vadd : forall v w, phi (vadd v w) = vadd (phi v) (phi w).
Hypothesis phi_vscale : forall z v, phi (vscale z v) = vscale z (phi v).
Hypothesis phi_herm_conj : forall v, phi (herm_conj v) = herm_conj (phi v).

Lemma corresponding_hoppings (argsV argsW : list arg) cell kinds
  (f : Site -> Site -> list arg -> V) (f' : Site -> Site -> list arg -> W) :
  (forall s1 s2, phi (f s1 s2 argsV) = f' s1 s2 argsW) ->
  Forall2 (corresponding phi argsV argsW)
          (Bloch.hoppings cell kinds f) (Bloch.hoppings cell kinds f').
Proof.
  intros H. unfold Bloch.hoppings.
  induction (flat_map (Bloch.expand cell) kinds) as [| hop l IH]; simpl;
    constructor; [| exact IH].
  split; [reflexivity | apply H].
Qed.

Lemma bloch_entry_map (pbV : Bloch.PeriodicBuilder V) (pbW : Bloch.PeriodicBuilder W)
  (argsV argsW : list arg) (k : vec2) :
  (forall s, phi (Bloch.cell_onsite pbV s argsV) = Bloch.cell_onsite pbW s argsW) ->
  Forall2 (corresponding phi argsV argsW)
          (Bloch.stored_hoppings pbV) (Bloch.stored_hoppings pbW) ->
  forall r c,
    phi (Bloch.bloch_entry pbV argsV k r c) = Bloch.bloch_entry pbW argsW k r c.
Proof.
  intros Honsite Hhops r c. unfold Bloch.bloch_entry.
  assert (Hinit : phi (if Site_eqb r c then Bloch.cell_onsite pbV r argsV else vzero)
                  = (if Site_eqb r c then Bloch.cell_onsite pbW r argsW else vzero)).
  { destruct (Site_eqb r c); [apply Honsite | apply phi_vzero]. }
  revert Hinit.
  generalize (if Site_eqb r c then Bloch.cell_onsite pbV r argsV else vzero).
  generalize (if Site_eqb r c then Bloch.cell_onsite pbW r argsW else vzero).
  induction Hhops as [| hV hW lV lW Hh _ IH]; intros initW initV Hinit.
  - exact Hinit.
  - simpl. apply IH. rewrite phi_vadd, Hinit. f_equal.
    destruct hV as [[s1 s2] fV], hW as [[s1' s2'] fW].
    destruct Hh as [E Hval]. simpl in E, Hval. injection E as <- <-.
    unfold Bloch.contribution. rewrite phi_vadd.
    destruct (Site_eqb s1 r && Site_eqb (Bloch.wrap s2) c),
      (Site_eqb s1 c && Site_eqb (Bloch.wrap s2) r);
      rewrite ?phi_herm_conj, ?phi_vscale, ?phi_vzero, ?Hval; reflexivity.
Qed.
End BlochMap.

Lemma kane_mele_spin_block (g : namespace) (neighbors_1 : list HoppingKind)
  (phi : cmat2 -> C) (t_2' : R) (params : SimpleNamespace) (k : vec2) :
  phi vzero = vzero ->
  (forall v w, phi (vadd v w) = vadd (phi v) (phi w)) ->
  (forall z v, phi (vscale z v) = vscale z (phi v)) ->
  (forall v, phi (herm_conj v) = herm_conj (phi v)) ->
  (forall s, phi (to_complex (KaneMele.onsite g s params))
             = RtoC (Haldane.onsite g s (mkParams t_2' (m params)))) ->
  phi (to_complex s0) = RtoC 1 ->
  (forall s1 s2, phi (KaneMele.spin_orbit s1 s2 params)
                 = Haldane.nnn_hopping s1 s2 (mkParams t_2' (m params))) ->
  forall r c,
    phi (Bloch.bloch_entry (Bloch.bulk_kane_mele g neighbors_1)
                           [ArgParams params] k r c)
    = Bloch.bloch_entry (Bloch.haldane g neighbors_1)
                        [ArgParams (mkParams t_2' (m params))] k r c.
Proof.
  intros H0 Hadd Hscale Hconj Honsite Hnn Hnnn r c.
  apply (bloch_entry_map phi H0 Hadd Hscale Hconj).
  - intros s. simpl. apply Honsite.
  - simpl. apply Forall2_app; apply corresponding_hoppings; intros s1 s2.
    + exact Hnn.
    + simpl. apply Hnnn.
Qed.

(** C7: for all [m] and [t_2], the onsite matrices, the nearest-neighbour
    matrix [s0] and the next-nearest-neighbour matrix [1j * t_2 * sz] of the
    Kane-Mele system commute with [sz]; hence every block of its Bloch
    Hamiltonian commutes with [sz] and has no entry that couples the spins,
    its spin-up entry is the entry of the Haldane model with [(m, t_2)] and
    its spin-down entry the entry of the Haldane model with [(m, -t_2)]. *)
Theorem kane_mele_conserves_sz (g : namespace) (params : SimpleNamespace) :
  (forall s, commutes_with_sz (to_complex (KaneMele.onsite g s params))) /\
  commutes_with_sz (to_complex s0) /\
  (forall s1 s2, commutes_with_sz (KaneMele.spin_orbit s1 s2 params)) /\
  (forall neighbors_1 k r c,
      let X := Bloch.bloch_entry (Bloch.bulk_kane_mele g neighbors_1)
                                 [ArgParams params] k r c in
      commutes_with_sz X /\
      spin_flip X = (RtoC 0, RtoC 0) /\
      spin_up X = Bloch.bloch_entry (Bloch.haldane g neighbors_1)
                                    [ArgParams params] k r c /\
      spin_down X = Bloch.bloch_entry (Bloch.haldane g neighbors_1)
                      [ArgParams (mkParams (- t_2 params) (m params))] k r c).
Proof.
  destruct (kane_mele_values_commute g params) as (Honsite & Hs0 & Hso).
  split; [exact Honsite |]. split; [exact Hs0 |]. split; [exact Hso |].
  intros nn k r c X.
  assert (HX : commutes_with_sz X).
  { subst X. apply bloch_entry_closed.
    - apply commutes_vzero.
    - apply commutes_vadd.
    - apply commutes_vscale.
    - apply commutes_herm_conj.
    - intros s. simpl. apply Honsite.
    - intros s1 s2 f Hin. simpl in Hin. apply in_app_or in Hin.
      destruct Hin as [Hin | Hin]; apply in_hoppings in Hin; subst f.
      + exact Hs0.
      + simpl. apply Hso. }
  split; [exact HX |]. split; [apply commutes_iff_no_flip; exact HX |].
  split.
  - subst X. destruct params as [t2 mass].
    apply (kane_mele_spin_block g nn spin_up t2 (mkParams t2 mass) k);
      try (intros; unfold spin_up; simpl; c_crush; reflexivity).
    + intros s. unfold spin_up, KaneMele.onsite, Haldane.onsite, mat2_scale_r.
      c_crush. pair_eq; ring.
    + intros s1 s2. unfold spin_up, KaneMele.spin_orbit, Haldane.nnn_hopping.
      c_crush. pair_eq; ring.
  - subst X. destruct params as [t2 mass].
    apply (kane_mele_spin_block g nn spin_down (- t2) (mkParams t2 mass) k);
      try (intros; unfold spin_down; simpl; c_crush; reflexivity).
    + intros s. unfold spin_down, KaneMele.onsite, Haldane.onsite, mat2_scale_r.
      c_crush. pair_eq; ring.
    + intros s1 s2. unfold spin_down, KaneMele.spin_orbit, Haldane.nnn_hopping.
      c_crush. pair_eq; ring.
Qed.

(** ** Finalized systems *)

Section SessionFacts.
Import KwantModel.
Context {V : Type} {orbital : Orbital V}.

Lemma step_syst (s : Session.session V) (c : Session.command V) :
  Session.syst (Session.step s c) = Session.syst s.
Proof.
  destruct c as [st f | hop f | args]; simpl; try reflexivity.
  destruct (set_hopping (Session.builder s) hop f); reflexivity.
Qed.

Lemma run_syst (cs : list (Session.command V)) (s : Session.session V) :
  Session.syst (Session.run s cs) = Session.syst s.
Proof.
  unfold Session.run. revert s.
  induction cs as [| c cs IH]; intros s; simpl; [reflexivity |].
  rewrite IH. apply step_syst.
Qed.

Lemma hamiltonian_submatrix_fits (bd : Builder V) (args : list arg) :
  Session.fits (finalized bd) (hamiltonian_submatrix (finalized bd) args).
Proof.
  split; [reflexivity |]. simpl. intros i j Hi Hj Hij Hnot.
  unfold hamiltonian. simpl.
  destruct (Nat.eqb_spec i j) as [| _]; [contradiction |].
  destruct (edge_value bd (site_at (sites bd) i) (site_at (sites bd) j)) eqn:E;
    [| reflexivity].
  exfalso. apply Hnot. apply filter_In. split.
  - apply in_prod; apply in_seq; lia.
  - simpl. rewrite E. reflexivity.
Qed.
End SessionFacts.

Section SessionRuns.
Import KwantModel.
Context {V : Type} {orbital : Orbital V}.

Lemma run_extracted (cs : list (Session.command V)) (s : Session.session V)
  (H : matrix V) :
  In H (Session.extracted (Session.run s cs)) ->
  In H (Session.extracted s) \/
  exists args, H = hamiltonian_submatrix (Session.syst s) args.
Proof.
  unfold Session.run. revert s.
  induction cs as [| c cs IH]; intros s Hin; simpl in Hin; [left; exact Hin |].
  apply IH in Hin. rewrite step_syst in Hin.
  destruct Hin as [Hin | Hin]; [| right; exact Hin].
  destruct c as [st f | hop f | args]; simpl in Hin.
  - left. exact Hin.
  - destruct (set_hopping (Session.builder s) hop f); left; exact Hin.
  - destruct Hin as [<- | Hin]; [right; exists args; reflexivity | left; exact Hin].
Qed.
End SessionRuns.

(** C10: once a builder is finalized, nothing a session does afterwards
    (assigning sites or hoppings to the builder, extracting matrices)
    changes the order of the sites or the graph of the finalized system;
    [hamiltonian_submatrix] still returns a matrix for every argument list,
    always with the fixed shape; and the values in it still vary with the
    arguments: with the Haldane [onsite] callable on one site, [m = 1] and
    [m = 2] give different matrices, and a site added to the builder after
    finalization is not a site of the system. *)
Theorem finalized_system_is_fixed :
  (forall (V : Type) (orbital : Orbital V) (bd : KwantModel.Builder V)
          (cs : list (Session.command V)),
      let s := Session.run (Session.finalize bd) cs in
      KwantModel.fsites (Session.syst s) = KwantModel.sites bd /\
      KwantModel.graph (Session.syst s) = KwantModel.graph (KwantModel.finalized bd) /\
      (forall H, In H (Session.extracted s) -> Session.fits (KwantModel.finalized bd) H) /\
      (forall args,
          exists H,
            Session.extracted (Session.step s (Session.HamiltonianSubmatrix args))
            = H :: Session.extracted s /\
            Session.fits (KwantModel.finalized bd) H)) /\
  (let syst := KwantModel.finalized Session.one_site in
   entry (KwantModel.hamiltonian_submatrix syst [ArgParams (mkParams 0 1)]) 0 0
   <> entry (KwantModel.hamiltonian_submatrix syst [ArgParams (mkParams 0 2)]) 0 0) /\
  (let s := Session.run (Session.finalize Session.one_site)
                        [Session.SetSite (mkSite 1%nat (0, 0)%Z) (fun _ _ => RtoC 0)] in
   length (KwantModel.sites (Session.builder s)) = 2%nat /\
   length (KwantModel.fsites (Session.syst s)) = 1%nat).
Proof.
  split; [| split].
  - intros V orbital bd cs s.
    assert (Hsyst : Session.syst s = KwantModel.finalized bd).
    { subst s. rewrite run_syst. reflexivity. }
    split; [rewrite Hsyst; reflexivity |].
    split; [rewrite Hsyst; reflexivity |].
    split.
    + intros H Hin. subst s. apply run_extracted in Hin.
      destruct Hin as [[] | (args & ->)]. apply hamiltonian_submatrix_fits.
    + intros args. eexists. split; [reflexivity |].
      rewrite Hsyst. apply hamiltonian_submatrix_fits.
  - simpl. unfold KwantModel.hamiltonian. simpl. unfold Haldane.onsite. simpl.
    unfold RtoC. intros E. injection E as E. lra.
  - split; reflexivity.
Qed.

(** A complete run of [dispersion_2D] on the stand-in library, with a grid
    of one point: every call returns and the function returns [None]. *)
Example dispersion_2D_runs :
  dispersion_2D (linalg := exact_linalg) (kwant := oneband_kwant) (numpy := list_numpy)
                (pyplot := silent_pyplot) notebook tt None 0 1
  = Ok tt.
Proof.
  unfold dispersion_2D. cbv zeta.
  change (np_linspace (- 0) 0 1) with (Ok [- 0] : result (list R)).
  cbn [bind Monad_result result_bind].
  unfold grid_energies. cbn [for_ bind Monad_result result_bind].
  rewrite (energies_at_closed_form exact_linalg oneband_kwant list_numpy
             exact_inv_contract exact_solve_contract).
  reflexivity.
Qed.

(** * Further properties *)

(** ** [momentum_to_lattice] on any lattice *)







(** ** The reciprocal lattice of graphene *)

Lemma sqrt3_neq_0 : sqrt 3 <> 0.
Proof. pose proof sqrt3_pos. lra. Qed.

Lemma graphene_closed_form (la : Linalg result) :
  inv_contract la -> solve_contract la ->
  forall k, momentum_to_lattice notebook k
            = Ok (fst k, fst k * (1 / 2) + snd k * (sqrt 3 / 2)).
Proof.
  intros Hinv Hsolve k.
  rewrite (momentum_closed_form la Hinv Hsolve).
  destruct k as [kx ky]. simpl. unfold dotv. simpl. f_equal. pair_eq; ring.
Qed.

(** X3: [momentum_to_lattice] returns the coefficients of [k] in the basis
    dual to the primitive vectors ("the basis of reciprocal lattice
    vectors" of its docstring): [k = x1 * dual_1 + x2 * dual_2] for the
    result [(x1, x2)], the vector with given coefficients is mapped back to
    them, and the dual vectors have scalar products 1 and 0 with the
    primitive vectors. *)
Theorem momentum_to_lattice_dual_basis (la : Linalg result) :
  inv_contract la -> solve_contract la ->
  (forall k, exists x,
      momentum_to_lattice notebook k = Ok x /\ combination x dual_1 dual_2 = k) /\
  (forall x, momentum_to_lattice notebook (combination x dual_1 dual_2) = Ok x) /\
  inner dual_1 (1, 0) = 1 /\ inner dual_1 (1 / 2, sqrt 3 / 2) = 0 /\
  inner dual_2 (1, 0) = 0 /\ inner dual_2 (1 / 2, sqrt 3 / 2) = 1.
Proof.
  intros Hinv Hsolve. pose proof sqrt3_neq_0 as Hs. pose proof sqrt3_sq as Hq.
  repeat match goal with |- _ /\ _ => split end.
  - intros [kx ky]. eexists. split; [apply (graphene_closed_form la Hinv Hsolve) |].
    unfold combination, dual_1, dual_2. simpl. pair_eq.
    + ring.
    + field. exact Hs.
  - intros [x1 x2]. rewrite (graphene_closed_form la Hinv Hsolve).
    unfold combination, dual_1, dual_2. simpl. apply f_equal. apply f_equal2.
    + ring.
    + field. exact Hs.
  - unfold inner, dual_1. simpl. ring.
  - unfold inner, dual_1. simpl. field. exact Hs.
  - unfold inner, dual_2. simpl. ring.
  - unfold inner, dual_2. simpl. field. exact Hs.
Qed.

Lemma momentum_to_lattice_dual_basis_witness :
  momentum_to_lattice (linalg := exact_linalg) notebook
    (combination (2 * PI, 0) dual_1 dual_2)
  = Ok (2 * PI, 0).
Proof.
  apply (momentum_to_lattice_dual_basis exact_linalg exact_inv_contract
           exact_solve_contract).
Defined.

(** ** The Brillouin zone: periodicity in the reciprocal lattice *)

Lemma cos_period_Z (x : R) (n : Z) : cos (x + 2 * IZR n * PI) = cos x.
Proof.
  destruct (Z_le_gt_dec 0 n) as [Hn | Hn].
  - rewrite <- (Z2Nat.id n Hn), <- INR_IZR_INZ. apply cos_period.
  - rewrite <- (cos_period (x + 2 * IZR n * PI) (Z.to_nat (- n))).
    f_equal. rewrite INR_IZR_INZ, Z2Nat.id by lia. rewrite opp_IZR. ring.
Qed.

Lemma sin_period_Z (x : R) (n : Z) : sin (x + 2 * IZR n * PI) = sin x.
Proof.
  destruct (Z_le_gt_dec 0 n) as [Hn | Hn].
  - rewrite <- (Z2Nat.id n Hn), <- INR_IZR_INZ. apply sin_period.
  - rewrite <- (sin_period (x + 2 * IZR n * PI) (Z.to_nat (- n))).
    f_equal. rewrite INR_IZR_INZ, Z2Nat.id by lia. rewrite opp_IZR. ring.
Qed.

Lemma phase_periodic (elem : Z * Z) (k : vec2) (n1 n2 : Z) :
  phase elem (fst k + 2 * PI * IZR n1, snd k + 2 * PI * IZR n2) = phase elem k.
Proof.
  destruct elem as [e1 e2], k as [k1 k2]. unfold phase, cexp. simpl.
  replace (IZR e1 * (k1 + 2 * PI * IZR n1) + IZR e2 * (k2 + 2 * PI * IZR n2))
    with (IZR e1 * k1 + IZR e2 * k2 + 2 * IZR (e1 * n1 + e2 * n2) * PI)
    by (rewrite plus_IZR, !mult_IZR; ring).
  rewrite cos_period_Z, sin_period_Z. reflexivity.
Qed.

Lemma bloch_entry_periodic {V : Type} {orbital : Orbital V}
  (pb : Bloch.PeriodicBuilder V) (params : list arg) (k : vec2) (n1 n2 : Z)
  (r c : Site) :
  Bloch.bloch_entry pb params (fst k + 2 * PI * IZR n1, snd k + 2 * PI * IZR n2) r c
  = Bloch.bloch_entry pb params k r c.
Proof.
  unfold Bloch.bloch_entry. f_equal. apply map_ext. intros [[s1 s2] f].
  unfold Bloch.contribution. rewrite phase_periodic. reflexivity.
Qed.

(** X4: the Hamiltonian that [dispersion_2D] evaluates is periodic in the
    reciprocal lattice: shifting the momentum [k] by a reciprocal lattice
    vector [n1 b1 + n2 b2] shifts the lattice momentum that
    [momentum_to_lattice] returns by [(2 pi n1, 2 pi n2)], and every block of
    the Bloch Hamiltonian of a wrapped-around system is the same at both. *)
Theorem hamiltonian_periodic_in_reciprocal_lattice (la : Linalg result) :
  inv_contract la -> solve_contract la ->
  forall (k : vec2) (n1 n2 : Z),
  exists lattice_k,
    momentum_to_lattice notebook k = Ok lattice_k /\
    momentum_to_lattice notebook (vadd2 k (reciprocal n1 n2))
    = Ok (fst lattice_k + 2 * PI * IZR n1, snd lattice_k + 2 * PI * IZR n2) /\
    forall (V : Type) (orbital : Orbital V) (pb : Bloch.PeriodicBuilder V)
           (params : list arg) (r c : Site),
      Bloch.bloch_entry pb params
        (fst lattice_k + 2 * PI * IZR n1, snd lattice_k + 2 * PI * IZR n2) r c
      = Bloch.bloch_entry pb params lattice_k r c.
Proof.
  intros Hinv Hsolve [kx ky] n1 n2. eexists. split; [| split].
  - apply (graphene_closed_form la Hinv Hsolve).
  - rewrite (graphene_closed_form la Hinv Hsolve).
    unfold vadd2, reciprocal, combination, dual_1, dual_2. simpl.
    apply f_equal. apply f_equal2.
    + ring.
    + field. exact sqrt3_neq_0.
  - intros V orbital pb params r c. apply bloch_entry_periodic.
Qed.

Lemma hamiltonian_periodic_in_reciprocal_lattice_witness :
  exists lattice_k,
    momentum_to_lattice (linalg := exact_linalg) notebook (0, 0) = Ok lattice_k /\
    momentum_to_lattice (linalg := exact_linalg) notebook
                        (vadd2 (0, 0) (reciprocal 1 (-1)))
    = Ok (fst lattice_k + 2 * PI * IZR 1, snd lattice_k + 2 * PI * IZR (-1)).
Proof.
  destruct (hamiltonian_periodic_in_reciprocal_lattice exact_linalg
              exact_inv_contract exact_solve_contract (0, 0) 1%Z (-1)%Z)
    as (lk & H1 & H2 & _).
  exists lk. split; assumption.
Defined.

(** ** The Haldane model: graphene plus a mass *)

Lemma in_bloch_expand (cell : list Site) (kind : HoppingKind) (s1 s2 : Site) :
  In (s1, s2) (Bloch.expand cell kind) ->
  family s1 = family_a kind /\ family s2 = family_b kind.
Proof.
  unfold Bloch.expand. rewrite in_flat_map. intros (s & _ & H).
  destruct (Nat.eqb_spec (family s) (family_a kind)) as [Ef |]; [| contradiction].
  destruct (Bloch.in_cell cell _); [| contradiction].
  destruct H as [H | []]. injection H as <- <-. split; [exact Ef | reflexivity].
Qed.

Lemma in_bloch_hoppings {V : Type} (cell : list Site) (kinds : list HoppingKind)
  (f h : Site -> Site -> list arg -> V) (s1 s2 : Site) :
  In ((s1, s2), h) (Bloch.hoppings cell kinds f) ->
  exists kind, In kind kinds /\ family s1 = family_a kind /\ family s2 = family_b kind.
Proof.
  unfold Bloch.hoppings. rewrite in_map_iff. intros ([x y] & E & Hin).
  injection E as -> -> _. apply in_flat_map in Hin. destruct Hin as (kind & Hk & Hin).
  exists kind. split; [exact Hk |]. apply (in_bloch_expand cell). exact Hin.
Qed.

Lemma Cadd_zero_zero (z : C) : Cadd z (Cadd (RtoC 0) (RtoC 0)) = z.
Proof. destruct z as [x y]. unfold Cadd, RtoC. simpl. pair_eq; ring. Qed.

Lemma fold_no_contribution (l : list C) (init : C) :
  (forall z, In z l -> z = Cadd (RtoC 0) (RtoC 0)) ->
  fold_left Cadd l init = init.
Proof.
  revert init. induction l as [| z l IH]; intros init H; simpl; [reflexivity |].
  rewrite IH by (intros; apply H; right; assumption).
  rewrite (H z) by (left; reflexivity). apply Cadd_zero_zero.
Qed.


Lemma fold_left_map_app {A : Type} (f : A -> C) (l1 l2 : list A) (init : C) :
  fold_left Cadd (map f (l1 ++ l2)) init
  = fold_left Cadd (map f l2) (fold_left Cadd (map f l1) init).
Proof. rewrite map_app, fold_left_app. reflexivity. Qed.

(** A hopping between two sublattices adds nothing to a diagonal block. *)
Lemma no_diagonal_contribution (cell : list Site) (kinds : list HoppingKind)
  (f : Site -> Site -> list arg -> C) (params : list arg) (k : vec2) (r : Site) :
  between_sublattices kinds ->
  forall z, In z (map (Bloch.contribution params k r r) (Bloch.hoppings cell kinds f)) ->
            z = Cadd (RtoC 0) (RtoC 0).
Proof.
  intros Hk z Hin. apply in_map_iff in Hin. destruct Hin as ([[s1 s2] h] & <- & Hin).
  apply in_bloch_hoppings in Hin. destruct Hin as (kind & Hkind & F1 & F2).
  unfold between_sublattices in Hk. rewrite Forall_forall in Hk.
  specialize (Hk kind Hkind). unfold Bloch.contribution.
  destruct (Site_eqb_spec s1 r) as [-> |]; simpl; [| reflexivity].
  destruct (Site_eqb_spec (Bloch.wrap s2) r) as [E |]; simpl; [| reflexivity].
  exfalso. apply Hk. rewrite <- F1, <- F2, <- E. reflexivity.
Qed.

(** A hopping inside one sublattice adds nothing to a block between two
    sites of different sublattices. *)
Lemma no_offdiagonal_contribution (cell : list Site) (kinds : list HoppingKind)
  (f : Site -> Site -> list arg -> C) (params : list arg) (k : vec2) (r c : Site) :
  Forall (fun kind => family_a kind = family_b kind) kinds ->
  family r <> family c ->
  forall z, In z (map (Bloch.contribution params k r c) (Bloch.hoppings cell kinds f)) ->
            z = Cadd (RtoC 0) (RtoC 0).
Proof.
  intros Hk Hrc z Hin. apply in_map_iff in Hin. destruct Hin as ([[s1 s2] h] & <- & Hin).
  apply in_bloch_hoppings in Hin. destruct Hin as (kind & Hkind & F1 & F2).
  rewrite Forall_forall in Hk. specialize (Hk kind Hkind).
  assert (Hsame : family s1 = family (Bloch.wrap s2)) by (simpl; congruence).
  unfold Bloch.contribution.
  destruct (Site_eqb_spec s1 r) as [E1 |]; simpl.
  - destruct (Site_eqb_spec (Bloch.wrap s2) c) as [E2 |]; simpl.
    + exfalso. apply Hrc. rewrite <- E1, <- E2. exact Hsame.
    + destruct (Site_eqb_spec s1 c) as [E3 |]; simpl; [| reflexivity].
      exfalso. apply Hrc. rewrite <- E1, <- E3. reflexivity.
  - destruct (Site_eqb_spec s1 c) as [E3 |]; simpl; [| reflexivity].
    destruct (Site_eqb_spec (Bloch.wrap s2) r) as [E4 |]; simpl; [| reflexivity].
    exfalso. apply Hrc. rewrite <- E3, <- E4. symmetry. exact Hsame.
Qed.

Lemma nnn_within_sublattice (g : namespace) :
  Forall (fun kind => family_a kind = family_b kind)
         (map HoppingKind_of (nnn_hoppings g)).
Proof. repeat constructor. Qed.

Lemma haldane_diagonal_without_neighbors (neighbors_1 : list HoppingKind)
  (args : list arg) (k : vec2) (r : Site) :
  between_sublattices neighbors_1 ->
  Bloch.bloch_entry (Bloch.haldane notebook neighbors_1) args k r r
  = Bloch.bloch_entry (Bloch.haldane notebook []) args k r r.
Proof.
  intros Hnn. unfold Bloch.bloch_entry.
  cbn [Bloch.stored_hoppings Bloch.haldane Bloch.cell_onsite].
  change (@vadd C Orbital_C) with Cadd.
  rewrite fold_left_map_app. f_equal.
  apply fold_no_contribution. apply no_diagonal_contribution. exact Hnn.
Qed.

Lemma graphene_diagonal (neighbors_1 : list HoppingKind) (k : vec2) (r : Site) :
  between_sublattices neighbors_1 ->
  Bloch.bloch_entry (Bloch.bulk_graphene notebook neighbors_1) [] k r r = RtoC 0.
Proof.
  intros Hnn. unfold Bloch.bloch_entry.
  cbn [Bloch.stored_hoppings Bloch.bulk_graphene Bloch.cell_onsite].
  change (@vadd C Orbital_C) with Cadd.
  rewrite fold_no_contribution.
  - rewrite Site_eqb_refl. reflexivity.
  - apply no_diagonal_contribution. exact Hnn.
Qed.

Lemma haldane_offdiagonal (neighbors_1 : list HoppingKind) (args : list arg)
  (k : vec2) (r c : Site) :
  family r <> family c ->
  Bloch.bloch_entry (Bloch.haldane notebook neighbors_1) args k r c
  = Bloch.bloch_entry (Bloch.bulk_graphene notebook neighbors_1) [] k r c.
Proof.
  intros Hrc. unfold Bloch.bloch_entry.
  cbn [Bloch.stored_hoppings Bloch.haldane Bloch.bulk_graphene Bloch.cell_onsite].
  change (@vadd C Orbital_C) with Cadd.
  destruct (Site_eqb_spec r c) as [E | _]; [subst; contradiction Hrc; reflexivity |].
  rewrite fold_left_map_app.
  rewrite fold_no_contribution.
  - f_equal. unfold Bloch.hoppings. rewrite !map_map. apply map_ext.
    intros [s1 s2]. reflexivity.
  - apply no_offdiagonal_contribution; [apply nnn_within_sublattice | exact Hrc].
Qed.

Lemma haldane_entry_aa (params : SimpleNamespace) (k : vec2) :
  Bloch.bloch_entry (Bloch.haldane notebook []) [ArgParams params] k
                    (site_a notebook) (site_a notebook)
  = RtoC (haldane_mass params k).
Proof.
  destruct k as [k1 k2]. destruct params as [t2 mm].
  unfold Bloch.bloch_entry. simpl. unfold Bloch.contribution. simpl.
  unfold phase, cexp, Haldane.nnn_hopping, Haldane.onsite, haldane_mass. simpl.
  replace (1 * k1 + 0 * k2) with k1 by ring.
  replace (0 * k1 + -1 * k2) with (- k2) by ring.
  replace (-1 * k1 + 1 * k2) with (k2 - k1) by ring.
  rewrite sin_neg, cos_neg.
  unfold Cadd, Cmul, Cconj, Ci, RtoC. simpl. pair_eq; ring.
Qed.

Lemma haldane_entry_bb (params : SimpleNamespace) (k : vec2) :
  Bloch.bloch_entry (Bloch.haldane notebook []) [ArgParams params] k
                    (site_b notebook) (site_b notebook)
  = RtoC (- haldane_mass params k).
Proof.
  destruct k as [k1 k2]. destruct params as [t2 mm].
  unfold Bloch.bloch_entry. simpl. unfold Bloch.contribution. simpl.
  unfold phase, cexp, Haldane.nnn_hopping, Haldane.onsite, haldane_mass. simpl.
  replace (-1 * k1 + 0 * k2) with (- k1) by ring.
  replace (0 * k1 + 1 * k2) with k2 by ring.
  replace (1 * k1 + -1 * k2) with (- (k2 - k1)) by ring.
  rewrite !sin_neg, !cos_neg.
  unfold Cadd, Cmul, Cconj, Ci, RtoC. simpl. pair_eq; ring.
Qed.

Lemma sin_minus_4PI3 : sin (- (2 * (PI / 3)) - 2 * (PI / 3)) = sqrt 3 / 2.
Proof.
  replace (- (2 * (PI / 3)) - 2 * (PI / 3)) with (- (PI / 3 + PI)) by field.
  rewrite sin_neg, neg_sin, sin_PI3. ring.
Qed.

Lemma haldane_mass_K (params : SimpleNamespace) :
  haldane_mass params dirac_K = m params - 3 * sqrt 3 * t_2 params.
Proof.
  unfold haldane_mass, dirac_K. cbn [fst snd].
  rewrite sin_minus_4PI3, sin_neg, sin_2PI3. field.
Qed.

Lemma haldane_mass_K' (params : SimpleNamespace) :
  haldane_mass params dirac_K' = m params + 3 * sqrt 3 * t_2 params.
Proof.
  unfold haldane_mass, dirac_K', dirac_K, neg_k. cbn [fst snd].
  replace (- - (2 * (PI / 3)) - - (2 * (PI / 3)))
    with (- (- (2 * (PI / 3)) - 2 * (PI / 3))) by ring.
  rewrite !sin_neg, sin_minus_4PI3, sin_2PI3. field.
Qed.

(** X5: the Bloch Hamiltonian of the Haldane model of cell 16 is the one of
    graphene (cell 6) plus a momentum-dependent mass: whatever hopping kinds
    between the two sublattices [graphene.neighbors(1)] returns, the diagonal
    entries are [+M(k)] on sublattice [a] and [-M(k)] on sublattice [b], with
    [M(k) = m - 2 t_2 (sin k1 - sin k2 + sin (k2 - k1))], the entries between
    the sublattices are those of graphene, and graphene has no diagonal
    entry. *)
Theorem haldane_is_graphene_plus_mass (neighbors_1 : list HoppingKind)
  (params : SimpleNamespace) (k : vec2) :
  between_sublattices neighbors_1 ->
  let H := Bloch.bloch_entry (Bloch.haldane notebook neighbors_1) [ArgParams params] k in
  let H0 := Bloch.bloch_entry (Bloch.bulk_graphene notebook neighbors_1) [] k in
  H (site_a notebook) (site_a notebook) = RtoC (haldane_mass params k) /\
  H (site_b notebook) (site_b notebook) = RtoC (- haldane_mass params k) /\
  H (site_a notebook) (site_b notebook) = H0 (site_a notebook) (site_b notebook) /\
  H (site_b notebook) (site_a notebook) = H0 (site_b notebook) (site_a notebook) /\
  H0 (site_a notebook) (site_a notebook) = RtoC 0 /\
  H0 (site_b notebook) (site_b notebook) = RtoC 0.
Proof.
  intros Hnn H H0. subst H H0. repeat split.
  - rewrite haldane_diagonal_without_neighbors by exact Hnn. apply haldane_entry_aa.
  - rewrite haldane_diagonal_without_neighbors by exact Hnn. apply haldane_entry_bb.
  - apply haldane_offdiagonal. discriminate.
  - apply haldane_offdiagonal. discriminate.
  - apply graphene_diagonal. exact Hnn.
  - apply graphene_diagonal. exact Hnn.
Qed.

Lemma haldane_is_graphene_plus_mass_witness :
  let nn := [mkHoppingKind (0, 1)%Z 0%nat 1%nat; mkHoppingKind (0, 0)%Z 0%nat 1%nat;
             mkHoppingKind (-1, 1)%Z 0%nat 1%nat] in
  between_sublattices nn /\
  Bloch.bloch_entry (Bloch.haldane notebook nn) [ArgParams (mkParams 1 2)] (0, 0)
                    (site_a notebook) (site_a notebook)
  = RtoC (haldane_mass (mkParams 1 2) (0, 0)).
Proof.
  intro nn.
  assert (Hnn : between_sublattices nn) by (repeat constructor; discriminate).
  split; [exact Hnn |].
  exact (proj1 (haldane_is_graphene_plus_mass nn (mkParams 1 2) (0, 0) Hnn)).
Defined.

(** X6: the gap of the Haldane model at the two Dirac points.
    [momentum_to_lattice] sends the corner [(2 pi / 3, - 2 pi / sqrt 3)] of
    the Brillouin zone to the lattice momentum [(2 pi / 3, - 2 pi / 3)];
    there, and at the opposite point, the diagonal entry of the Bloch
    Hamiltonian of cell 16 on sublattice [a] is [m - 3 sqrt 3 t_2] and
    [m + 3 sqrt 3 t_2]: the two masses differ as soon as [t_2] is not zero,
    and one of them vanishes at [m = 3 sqrt 3 t_2] or [m = - 3 sqrt 3 t_2]. *)
Theorem haldane_dirac_masses (la : Linalg result) (neighbors_1 : list HoppingKind)
  (params : SimpleNamespace) :
  inv_contract la -> solve_contract la ->
  between_sublattices neighbors_1 ->
  momentum_to_lattice notebook (2 * (PI / 3), - (2 * PI / sqrt 3)) = Ok dirac_K /\
  Bloch.bloch_entry (Bloch.haldane notebook neighbors_1) [ArgParams params] dirac_K
                    (site_a notebook) (site_a notebook)
  = RtoC (m params - 3 * sqrt 3 * t_2 params) /\
  Bloch.bloch_entry (Bloch.haldane notebook neighbors_1) [ArgParams params] dirac_K'
                    (site_a notebook) (site_a notebook)
  = RtoC (m params + 3 * sqrt 3 * t_2 params).
Proof.
  intros Hinv Hsolve Hnn. split; [| split].
  - rewrite (graphene_closed_form la Hinv Hsolve). unfold dirac_K. cbn [fst snd].
    apply f_equal. apply f_equal2; [reflexivity |].
    field. exact sqrt3_neq_0.
  - rewrite haldane_diagonal_without_neighbors by exact Hnn.
    rewrite haldane_entry_aa, haldane_mass_K. reflexivity.
  - rewrite haldane_diagonal_without_neighbors by exact Hnn.
    rewrite haldane_entry_aa, haldane_mass_K'. reflexivity.
Qed.

Lemma haldane_dirac_masses_witness :
  let nn := [mkHoppingKind (0, 1)%Z 0%nat 1%nat; mkHoppingKind (0, 0)%Z 0%nat 1%nat;
             mkHoppingKind (-1, 1)%Z 0%nat 1%nat] in
  between_sublattices nn /\
  momentum_to_lattice (linalg := exact_linalg) notebook
                      (2 * (PI / 3), - (2 * PI / sqrt 3)) = Ok dirac_K /\
  Bloch.bloch_entry (Bloch.haldane notebook nn) [ArgParams (mkParams 1 0)] dirac_K
                    (site_a notebook) (site_a notebook)
  = RtoC (0 - 3 * sqrt 3 * 1).
Proof.
  intro nn.
  assert (Hnn : between_sublattices nn) by (repeat constructor; discriminate).
  split; [exact Hnn |].
  destruct (haldane_dirac_masses exact_linalg nn (mkParams 1 0)
              exact_inv_contract exact_solve_contract Hnn) as (H1 & H2 & _).
  split; assumption.
Defined.

(** ** Time reversal *)

Lemma phase_neg (elem : Z * Z) (k : vec2) :
  Cconj (phase elem k) = phase elem (neg_k k).
Proof.
  unfold phase, cexp, Cconj, neg_k. cbn [fst snd].
  replace (IZR (fst elem) * - fst k + IZR (snd elem) * - snd k)
    with (- (IZR (fst elem) * fst k + IZR (snd elem) * snd k)) by ring.
  rewrite cos_neg, sin_neg. reflexivity.
Qed.

(** Two periodic systems with the same hoppings whose values correspond
    under an antilinear map [phi] have Bloch Hamiltonians that correspond
    at opposite momenta. *)
Section BlochAntiMap.
Context {V W : Type} {orbV : Orbital V} {orbW : Orbital W}.
Variable phi : V -> W.
Hypothesis phi_vzero : phi vzero = vzero.
Hypothesis phi_vadd : forall v w, phi (vadd v w) = vadd (phi v) (phi w).
Hypothesis phi_vscale : forall z v, phi (vscale z v) = vscale (Cconj z) (phi v).
Hypothesis phi_herm_conj : forall v, phi (herm_conj v) = herm_conj (phi v).

Lemma bloch_entry_antimap (pbV : Bloch.PeriodicBuilder V) (pbW : Bloch.PeriodicBuilder W)
  (argsV argsW : list arg) (k : vec2) :
  (forall s, phi (Bloch.cell_onsite pbV s argsV) = Bloch.cell_onsite pbW s argsW) ->
  Forall2 (corresponding phi argsV argsW)
          (Bloch.stored_hoppings pbV) (Bloch.stored_hoppings pbW) ->
  forall r c,
    phi (Bloch.bloch_entry pbV argsV k r c)
    = Bloch.bloch_entry pbW argsW (neg_k k) r c.
Proof.
  intros Honsite Hhops r c. unfold Bloch.bloch_entry.
  assert (Hinit : phi (if Site_eqb r c then Bloch.cell_onsite pbV r argsV else vzero)
                  = (if Site_eqb r c then Bloch.cell_onsite pbW r argsW else vzero)).
  { destruct (Site_eqb r c); [apply Honsite | apply phi_vzero]. }
  revert Hinit.
  generalize (if Site_eqb r c then Bloch.cell_onsite pbV r argsV else vzero).
  generalize (if Site_eqb r c then Bloch.cell_onsite pbW r argsW else vzero).
  induction Hhops as [| hV hW lV lW Hh _ IH]; intros initW initV Hinit.
  - exact Hinit.
  - simpl. apply IH. rewrite phi_vadd, Hinit. f_equal.
    destruct hV as [[s1 s2] fV], hW as [[s1' s2'] fW].
    destruct Hh as [E Hval]. simpl in E, Hval. injection E as <- <-.
    unfold Bloch.contribution. rewrite phi_vadd.
    destruct (Site_eqb s1 r && Site_eqb (Bloch.wrap s2) c),
      (Site_eqb s1 c && Site_eqb (Bloch.wrap s2) r);
      rewrite ?phi_herm_conj, ?phi_vscale, ?phi_vzero, ?Hval, ?phase_neg; reflexivity.
Qed.
End BlochAntiMap.

Lemma time_reversal_vzero : time_reversal vzero = vzero.
Proof. unfold time_reversal, sy. simpl. c_crush. pair_eq; ring. Qed.

Lemma time_reversal_vadd (X Y : cmat2) :
  time_reversal (vadd X Y) = vadd (time_reversal X) (time_reversal Y).
Proof. unfold time_reversal, sy. simpl. c_crush. pair_eq; ring. Qed.

Lemma time_reversal_vscale (z : C) (X : cmat2) :
  time_reversal (vscale z X) = vscale (Cconj z) (time_reversal X).
Proof. unfold time_reversal, sy. simpl. c_crush. pair_eq; ring. Qed.

Lemma time_reversal_herm_conj (X : cmat2) :
  time_reversal (herm_conj X) = herm_conj (time_reversal X).
Proof. unfold time_reversal, sy. simpl. c_crush. pair_eq; ring. Qed.

Lemma kane_mele_values_time_reversal (g : namespace) (params : SimpleNamespace) :
  (forall s, time_reversal (to_complex (KaneMele.onsite g s params))
             = to_complex (KaneMele.onsite g s params)) /\
  time_reversal (to_complex s0) = to_complex s0 /\
  (forall s1 s2, time_reversal (KaneMele.spin_orbit s1 s2 params)
                 = KaneMele.spin_orbit s1 s2 params).
Proof.
  split; [| split]; intros;
    unfold time_reversal, sy, KaneMele.onsite, KaneMele.spin_orbit, mat2_scale_r;
    c_crush; pair_eq; ring.
Qed.

(** Time reversal maps every stored hopping of the Kane-Mele model to
    itself. *)
Lemma kane_mele_hoppings_time_reversal (g : namespace)
  (neighbors_1 : list HoppingKind) (params : SimpleNamespace) :
  Forall2 (corresponding time_reversal [ArgParams params] [ArgParams params])
          (Bloch.stored_hoppings (Bloch.bulk_kane_mele g neighbors_1))
          (Bloch.stored_hoppings (Bloch.bulk_kane_mele g neighbors_1)).
Proof.
  destruct (kane_mele_values_time_reversal g params) as (_ & Hs0 & Hso).
  simpl. apply Forall2_app; apply corresponding_hoppings; intros s1 s2.
  - exact Hs0.
  - simpl. apply Hso.
Qed.

(** X7: the Kane-Mele model of cells 22 and 23 is symmetric under time
    reversal, whatever its parameters: the values the code assigns (the
    onsite matrix, [s0] on the nearest-neighbour hoppings, [spin_orbit] on
    the next-nearest ones) are unchanged by [X -> sy conj(X) sy], and so the
    time reverse of every block of the Bloch Hamiltonian at a momentum is
    the block at the opposite momentum. *)
Theorem kane_mele_time_reversal_symmetric (g : namespace)
  (neighbors_1 : list HoppingKind) (params : SimpleNamespace) (k : vec2)
  (r c : Site) :
  time_reversal (Bloch.bloch_entry (Bloch.bulk_kane_mele g neighbors_1)
                                   [ArgParams params] k r c)
  = Bloch.bloch_entry (Bloch.bulk_kane_mele g neighbors_1)
                      [ArgParams params] (neg_k k) r c.
Proof.
  apply (bloch_entry_antimap time_reversal time_reversal_vzero time_reversal_vadd
           time_reversal_vscale time_reversal_herm_conj).
  - intros s. simpl. apply (kane_mele_values_time_reversal g params).
  - apply kane_mele_hoppings_time_reversal.
Qed.

Lemma Cconj_Cadd (v w : C) : Cconj (Cadd v w) = Cadd (Cconj v) (Cconj w).
Proof. c_crush. pair_eq; ring. Qed.

Lemma Cconj_Cmul (z v : C) : Cconj (Cmul z v) = Cmul (Cconj z) (Cconj v).
Proof. c_crush. pair_eq; ring. Qed.

(** Complex conjugation of the Bloch Hamiltonian of the Haldane model is the
    Hamiltonian at the opposite momentum with the sign of [t_2] flipped. *)
Lemma haldane_conjugate (g : namespace) (neighbors_1 : list HoppingKind)
  (params : SimpleNamespace) (k : vec2) (r c : Site) :
  Cconj (Bloch.bloch_entry (Bloch.haldane g neighbors_1) [ArgParams params] k r c)
  = Bloch.bloch_entry (Bloch.haldane g neighbors_1)
                      [ArgParams (mkParams (- t_2 params) (m params))] (neg_k k) r c.
Proof.
  apply (bloch_entry_antimap (V := C) (W := C) Cconj).
  - simpl. unfold Cconj, RtoC. simpl. pair_eq; ring.
  - exact Cconj_Cadd.
  - exact Cconj_Cmul.
  - reflexivity.
  - intros s. simpl. unfold Cconj, RtoC, Haldane.onsite. simpl. pair_eq; ring.
  - simpl. apply Forall2_app; apply corresponding_hoppings; intros s1 s2.
    + unfold Cconj, RtoC. simpl. pair_eq; ring.
    + simpl. unfold Haldane.nnn_hopping. c_crush. pair_eq; ring.
Qed.

(** X8: the Haldane model of cell 16 is symmetric under time reversal
    (complex conjugation together with [k -> -k]) exactly when [t_2] is
    zero: without the next-nearest-neighbour term the conjugate of every
    entry of the Bloch Hamiltonian is the entry at the opposite momentum,
    and with it the diagonal entry at the Dirac point
    [(2 pi / 3, - 2 pi / 3)] differs from the one at the opposite point. *)
Theorem haldane_time_reversal_iff_no_t_2 (neighbors_1 : list HoppingKind)
  (params : SimpleNamespace) :
  between_sublattices neighbors_1 ->
  let H := Bloch.bloch_entry (Bloch.haldane notebook neighbors_1) [ArgParams params] in
  (forall k r c, Cconj (H k r c) = H (neg_k k) r c) <-> t_2 params = 0.
Proof.
  intros Hnn H. subst H. split.
  - intros Hsym.
    specialize (Hsym dirac_K (site_a notebook) (site_a notebook)).
    change (neg_k dirac_K) with dirac_K' in Hsym.
    rewrite (haldane_diagonal_without_neighbors _ _ dirac_K) in Hsym by exact Hnn.
    rewrite (haldane_diagonal_without_neighbors _ _ dirac_K') in Hsym by exact Hnn.
    rewrite !haldane_entry_aa, haldane_mass_K, haldane_mass_K' in Hsym.
    unfold Cconj, RtoC in Hsym. cbn [fst snd] in Hsym.
    injection Hsym as Hsym.
    assert (Hs := sqrt3_pos). nra.
  - intros Ht k r c. rewrite haldane_conjugate.
    destruct params as [t2 mm]. simpl in Ht. subst t2. simpl.
    rewrite Ropp_0. reflexivity.
Qed.

Lemma haldane_time_reversal_iff_no_t_2_witness :
  let nn := [mkHoppingKind (0, 1)%Z 0%nat 1%nat; mkHoppingKind (0, 0)%Z 0%nat 1%nat;
             mkHoppingKind (-1, 1)%Z 0%nat 1%nat] in
  between_sublattices nn /\
  forall k r c,
    Cconj (Bloch.bloch_entry (Bloch.haldane notebook nn) [ArgParams (mkParams 0 1)] k r c)
    = Bloch.bloch_entry (Bloch.haldane notebook nn) [ArgParams (mkParams 0 1)]
                        (neg_k k) r c.
Proof.
  intro nn.
  assert (Hnn : between_sublattices nn) by (repeat constructor; discriminate).
  split; [exact Hnn |].
  apply (proj2 (haldane_time_reversal_iff_no_t_2 nn (mkParams 0 1) Hnn)).
  reflexivity.
Defined.

(** ** The grid of [dispersion_2D] *)

(** The loop body appends to the list what it computes from an empty one. *)
Lemma energies_at_appends {Builder Syst Ham Cube Grid Evec : Type}
  (la : Linalg result) (kw : Kwant result Builder Syst Ham)
  (np : Numpy result Ham Cube Grid Evec) (g : namespace)
  (syst : Syst) (args : list arg) (kx ky : R) (energies : list (list R)) :
  energies_at g syst args kx ky energies
  = match energies_at g syst args kx ky [] with
    | Ok l => Ok (energies ++ l)
    | Raise e => Raise e
    end.
Proof.
  unfold energies_at. cbn [bind Monad_result].
  destruct (momentum_to_lattice g (kx, ky)) as [lk | e]; [| reflexivity].
  cbn [result_bind].
  destruct (hamiltonian_submatrix syst _) as [h | e]; [| reflexivity].
  cbn [result_bind].
  destruct (np_linalg_eigvalsh h) as [ev | e]; reflexivity.
Qed.

Lemma energies_at_one {Builder Syst Ham Cube Grid Evec : Type}
  (la : Linalg result) (kw : Kwant result Builder Syst Ham)
  (np : Numpy result Ham Cube Grid Evec) (g : namespace)
  (syst : Syst) (args : list arg) (kx ky : R) (l : list (list R)) :
  energies_at g syst args kx ky [] = Ok l ->
  exists h e, np_linalg_eigvalsh h = Ok e /\ l = [e].
Proof.
  unfold energies_at. cbn [bind Monad_result].
  destruct (momentum_to_lattice g (kx, ky)) as [lk | e]; [| discriminate].
  cbn [result_bind].
  destruct (hamiltonian_submatrix syst _) as [h | e]; [| discriminate].
  cbn [result_bind].
  destruct (np_linalg_eigvalsh h) as [ev | e] eqn:E; [| discriminate].
  cbn [result_bind ret]. intros H. injection H as <-. exists h, ev. split; [exact E | reflexivity].
Qed.

Section Grid.
Context {Builder Syst Ham Cube Grid Evec : Type}.
Variable la : Linalg result.
Variable kw : Kwant result Builder Syst Ham.
Variable np : Numpy result Ham Cube Grid Evec.
Variable g : namespace.
Variable syst : Syst.
Variable args : list arg.

(** The inner loop, [for ky in momenta], appends one entry per [ky]. *)
Lemma inner_loop_appends (kx : R) (ys : list R) (acc out : list (list R)) :
  for_ ys (energies_at g syst args kx) acc = Ok out ->
  exists es,
    out = acc ++ es /\ length es = length ys /\
    forall j, (j < length ys)%nat ->
      energies_at g syst args kx (nth j ys 0) [] = Ok [nth j es []].
Proof.
  revert acc out. induction ys as [| ky ys IH]; intros acc out H.
  - simpl in H. injection H as <-. exists []. rewrite app_nil_r.
    split; [reflexivity |]. split; [reflexivity |]. simpl. intros j Hj. lia.
  - cbn [for_ bind Monad_result] in H.
    rewrite (energies_at_appends la kw np) in H.
    destruct (energies_at g syst args kx ky []) as [l |] eqn:E; [| discriminate].
    cbn [result_bind] in H.
    destruct (energies_at_one la kw np g syst args kx ky l E) as (h & e & _ & ->).
    apply IH in H. destruct H as (es & -> & Hlen & Hes).
    exists (e :: es). rewrite <- app_assoc. split; [reflexivity |].
    split; [simpl; rewrite Hlen; reflexivity |].
    intros [| j] Hj; simpl.
    + exact E.
    + apply Hes. simpl in Hj. lia.
Qed.

(** The two nested loops fill the list row by row: [kx] is the slow index. *)
Lemma outer_loop_appends (xs ys : list R) (acc out : list (list R)) :
  for_ xs (fun kx energies => for_ ys (energies_at g syst args kx) energies) acc
  = Ok out ->
  exists es,
    out = acc ++ es /\ length es = (length xs * length ys)%nat /\
    forall i j, (i < length xs)%nat -> (j < length ys)%nat ->
      energies_at g syst args (nth i xs 0) (nth j ys 0) []
      = Ok [nth (i * length ys + j) es []].
Proof.
  revert acc out. induction xs as [| kx xs IH]; intros acc out H.
  - simpl in H. injection H as <-. exists []. rewrite app_nil_r.
    split; [reflexivity |]. split; [reflexivity |]. simpl. intros i j Hi. lia.
  - cbn [for_ bind Monad_result] in H.
    destruct (for_ ys (energies_at g syst args kx) acc) as [row |] eqn:E;
      [| discriminate].
    cbn [result_bind] in H.
    apply inner_loop_appends in E. destruct E as (es1 & -> & Hlen1 & Hes1).
    apply IH in H. destruct H as (es2 & -> & Hlen2 & Hes2).
    exists (es1 ++ es2). rewrite <- app_assoc. split; [reflexivity |].
    split; [rewrite length_app, Hlen1, Hlen2; simpl; reflexivity |].
    intros [| i] j Hi Hj.
    + simpl. rewrite app_nth1 by lia. apply Hes1. exact Hj.
    + cbn [nth]. rewrite app_nth2 by (rewrite Hlen1; simpl; lia).
      replace (S i * length ys + j - length es1)%nat with (i * length ys + j)%nat
        by (rewrite Hlen1; simpl; lia).
      apply Hes2; [simpl in Hi; lia | exact Hj].
Qed.

Lemma grid_energies_spec (momenta : list R) (energies : list (list R)) :
  grid_energies g syst args momenta = Ok energies ->
  length energies = (length momenta * length momenta)%nat /\
  forall i j, (i < length momenta)%nat -> (j < length momenta)%nat ->
    energies_at g syst args (nth i momenta 0) (nth j momenta 0) []
    = Ok [nth (i * length momenta + j) energies []].
Proof.
  unfold grid_energies. intros H. apply outer_loop_appends in H.
  destruct H as (es & -> & Hlen & Hes). simpl. split; assumption.
Qed.

(** When every grid point returns, so do the loops. *)
Lemma inner_loop_returns (kx : R) (ys : list R) (acc : list (list R)) :
  (forall ky, In ky ys -> exists l, energies_at g syst args kx ky [] = Ok l) ->
  exists out, for_ ys (energies_at g syst args kx) acc = Ok out.
Proof.
  revert acc. induction ys as [| ky ys IH]; intros acc H.
  - exists acc. reflexivity.
  - cbn [for_ bind Monad_result]. rewrite (energies_at_appends la kw np).
    destruct (H ky) as (l & ->); [left; reflexivity |]. cbn [result_bind].
    apply IH. intros ky' Hin. apply H. right. exact Hin.
Qed.

Lemma outer_loop_returns (xs ys : list R) (acc : list (list R)) :
  (forall kx ky, In kx xs -> In ky ys ->
     exists l, energies_at g syst args kx ky [] = Ok l) ->
  exists out,
    for_ xs (fun kx energies => for_ ys (energies_at g syst args kx) energies) acc
    = Ok out.
Proof.
  revert acc. induction xs as [| kx xs IH]; intros acc H.
  - exists acc. reflexivity.
  - cbn [for_ bind Monad_result].
    destruct (inner_loop_returns kx ys acc) as (row & ->).
    { intros ky Hin. apply H; [left; reflexivity | exact Hin]. }
    cbn [result_bind]. apply IH. intros kx' ky Hx Hy. apply H; [right |]; assumption.
Qed.
End Grid.

(** ** What [dispersion_2D] draws *)

Section Drawing.
Context {Builder Syst Ham Cube Grid Evec : Type}.
Variable la : Linalg result.
Variable kw : Kwant result Builder Syst Ham.
Variable np : Numpy result Ham Cube Grid Evec.

Lemma momentum_to_lattice_draws_nothing (g : namespace) (k : vec2)
  (drawn : list (surface Grid)) :
  momentum_to_lattice (linalg := drawing_linalg Grid la) g k drawn
  = (momentum_to_lattice (linalg := la) g k, drawn).
Proof.
  unfold momentum_to_lattice. cbn [bind Monad_drawing Monad_result].
  unfold drawing_bind. cbn [np_linalg_inv np_linalg_solve drawing_linalg].
  unfold no_drawing.
  destruct (np_linalg_inv _) as [N | e]; reflexivity.
Qed.

Lemma energies_at_draws_nothing (g : namespace) (syst : Syst) (args : list arg)
  (kx ky : R) (energies : list (list R)) (drawn : list (surface Grid)) :
  energies_at (linalg := drawing_linalg Grid la) (kwant := drawing_kwant Grid kw)
              (numpy := drawing_numpy np) g syst args kx ky energies drawn
  = (energies_at (linalg := la) (kwant := kw) (numpy := np)
                 g syst args kx ky energies, drawn).
Proof.
  unfold energies_at. cbn [bind Monad_drawing Monad_result].
  unfold drawing_bind at 1. rewrite momentum_to_lattice_draws_nothing.
  destruct (momentum_to_lattice g (kx, ky)) as [lk | e]; [| reflexivity].
  cbn [result_bind]. unfold drawing_bind at 1.
  cbn [hamiltonian_submatrix drawing_kwant]. unfold no_drawing at 1.
  destruct (hamiltonian_submatrix syst _) as [h | e]; [| reflexivity].
  cbn [result_bind]. unfold drawing_bind.
  cbn [np_linalg_eigvalsh drawing_numpy]. unfold no_drawing.
  destruct (np_linalg_eigvalsh h) as [ev | e]; reflexivity.
Qed.

Lemma for_draws_nothing {A S : Type} (xs : list A)
  (body : A -> S -> drawing Grid S) (body' : A -> S -> result S) :
  (forall x s drawn, body x s drawn = (body' x s, drawn)) ->
  forall s drawn, for_ xs body s drawn = (for_ xs body' s, drawn).
Proof.
  intros H. induction xs as [| x xs IH]; intros s drawn.
  - reflexivity.
  - cbn [for_ bind Monad_drawing Monad_result]. unfold drawing_bind.
    rewrite H. destruct (body' x s) as [s' | e]; [| reflexivity].
    cbn [result_bind]. apply IH.
Qed.

Lemma grid_energies_draws_nothing (g : namespace) (syst : Syst) (args : list arg)
  (momenta : list R) (drawn : list (surface Grid)) :
  grid_energies (linalg := drawing_linalg Grid la) (kwant := drawing_kwant Grid kw)
                (numpy := drawing_numpy np) g syst args momenta drawn
  = (grid_energies (linalg := la) (kwant := kw) (numpy := np)
                   g syst args momenta, drawn).
Proof.
  unfold grid_energies. apply for_draws_nothing. intros kx energies drawn'.
  apply for_draws_nothing. intros ky energies' drawn''.
  apply energies_at_draws_nothing.
Qed.

(** The loop over the bands draws one surface per band, in order. *)
Lemma plot_loop (X Y : Grid) (cube : Cube) (emin emax : R) (bands : list nat)
  (drawn : list (surface Grid)) :
  for_ bands
       (fun band (_ : unit) =>
          @plot_surface _ _ _ _ (drawing_pyplot Grid) tt X Y (band_slice cube band)
                        emin emax)
       tt drawn
  = (Ok tt,
     drawn ++ map (fun band => mkSurface X Y (band_slice cube band) emin emax) bands).
Proof.
  revert drawn. induction bands as [| band bands IH]; intros drawn.
  - simpl. rewrite app_nil_r. reflexivity.
  - cbn [for_ bind Monad_drawing]. unfold drawing_bind.
    cbn [plot_surface drawing_pyplot]. rewrite IH. rewrite <- app_assoc. reflexivity.
Qed.

(** [dispersion_2D] step by step: it returns when every call of the
    libraries does, and then it has drawn one surface per band. *)
Lemma dispersion_2D_drawn (g : namespace) (syst : Syst) (args : option (list arg))
  (lim : R) (num_points : nat) (drawn0 drawn : list (surface Grid)) :
  dispersion_2D (linalg := drawing_linalg Grid la) (kwant := drawing_kwant Grid kw)
                (numpy := drawing_numpy np) (pyplot := drawing_pyplot Grid)
                g syst args lim num_points drawn0
  = (Ok tt, drawn) ->
  exists momenta energies cube emin emax X Y,
    np_linspace (- lim) lim num_points = Ok momenta /\
    grid_energies (linalg := la) (kwant := kw) (numpy := np) g syst
                  (match args with None => [] | Some l => l end) momenta
    = Ok energies /\
    np_reshape energies num_points num_points = Ok cube /\
    np_min cube = Ok emin /\ np_max cube = Ok emax /\
    np_meshgrid momenta momenta = Ok (X, Y) /\
    drawn = drawn0 ++ map (fun band => mkSurface X Y (band_slice cube band) emin emax)
                          (seq 0 (shape_last cube)).
Proof.
  unfold dispersion_2D. cbv zeta. cbn [bind Monad_drawing].
  unfold drawing_bind at 1. cbn [np_linspace drawing_numpy]. unfold no_drawing at 1.
  destruct (np_linspace (- lim) lim num_points) as [momenta | e] eqn:E1; [| discriminate].
  unfold drawing_bind at 1. rewrite grid_energies_draws_nothing.
  destruct (grid_energies g syst _ momenta) as [energies | e] eqn:E2; [| discriminate].
  unfold drawing_bind at 1. cbn [np_reshape drawing_numpy]. unfold no_drawing at 1.
  destruct (np_reshape energies num_points num_points) as [cube | e] eqn:E3; [| discriminate].
  unfold drawing_bind at 1. cbn [np_min drawing_numpy]. unfold no_drawing at 1.
  destruct (np_min cube) as [emin | e] eqn:E4; [| discriminate].
  unfold drawing_bind at 1. cbn [np_max drawing_numpy]. unfold no_drawing at 1.
  destruct (np_max cube) as [emax | e] eqn:E5; [| discriminate].
  unfold drawing_bind at 1. cbn [np_meshgrid drawing_numpy]. unfold no_drawing at 1.
  destruct (np_meshgrid momenta momenta) as [[X Y] | e] eqn:E6; [| discriminate].
  unfold drawing_bind at 1. cbn [pyplot_figure drawing_pyplot]. unfold no_drawing at 1.
  unfold drawing_bind at 1. cbn [add_subplot drawing_pyplot]. unfold no_drawing at 1.
  cbn [fst snd shape_last band_slice drawing_numpy].
  rewrite plot_loop. intros H. injection H as <-.
  exists momenta, energies, cube, emin, emax, X, Y. repeat split; assumption || reflexivity.
Qed.
End Drawing.

Lemma grid_energies_bands {Builder Syst Ham Cube Grid Evec : Type}
  (la : Linalg result) (kw : Kwant result Builder Syst Ham)
  (np : Numpy result Ham Cube Grid Evec) (g : namespace) (syst : Syst)
  (args : list arg) (momenta : list R) (energies : list (list R)) (bands : nat) :
  eigvalsh_returns np bands ->
  grid_energies g syst args momenta = Ok energies ->
  forall e, In e energies -> length e = bands.
Proof.
  intros Hbands Hgrid e Hin.
  destruct (grid_energies_spec la kw np g syst args momenta energies Hgrid)
    as (Hlen & Hat).
  destruct (In_nth energies e [] Hin) as (idx & Hidx & <-).
  set (n := length momenta) in *.
  assert (Hn : (n <> 0)%nat) by (intros E; rewrite E in Hlen; simpl in Hlen; lia).
  assert (Hi : (idx / n < n)%nat).
  { apply Nat.Div0.div_lt_upper_bound. lia. }
  assert (Hj : (idx mod n < n)%nat) by (apply Nat.mod_upper_bound; exact Hn).
  specialize (Hat (idx / n)%nat (idx mod n)%nat Hi Hj).
  replace (idx / n * n + idx mod n)%nat with idx in Hat
    by (rewrite (Nat.div_mod_eq idx n) at 1; lia).
  destruct (energies_at_one la kw np g syst args _ _ _ Hat) as (h & e & He & E).
  injection E as ->. apply (Hbands h). exact He.
Qed.

Section Axes.
Context {Builder Syst Ham Cube Grid Evec : Type}.
Variable la : Linalg result.
Variable kw : Kwant result Builder Syst Ham.
Variable np : Numpy result Ham Cube Grid Evec.
Variable ix : Indexing Cube Grid.

(** X9: what [dispersion_2D] draws.  With a numerical library that does
    what its documentation says, a call that returns has drawn one surface
    per band; at the grid index [(i, j)] the surface of a band has the
    coordinates [x = momenta[j]] and [y = momenta[i]], and its height is the
    energy of the band that the loops computed for [kx = momenta[i]] and
    [ky = momenta[j]]: the arrays that [np.meshgrid(momenta, momenta)]
    returns are the transposes of the grid of the loops, so the surface
    shows the energy at [(kx, ky) = (y, x)].  Every band is drawn with
    [vmin = np.min(energies)] and [vmax = np.max(energies)], taken of the
    reshaped array of all the bands. *)
Theorem dispersion_2D_surface_axes (g : namespace) (syst : Syst)
  (args : option (list arg)) (lim : R) (num_points bands : nat)
  (drawn : list (surface Grid)) :
  numpy_contract np ix ->
  eigvalsh_returns np bands ->
  dispersion_2D (linalg := drawing_linalg Grid la) (kwant := drawing_kwant Grid kw)
                (numpy := drawing_numpy np) (pyplot := drawing_pyplot Grid)
                g syst args lim num_points []
  = (Ok tt, drawn) ->
  exists momenta energies cube emin emax,
    np_linspace (- lim) lim num_points = Ok momenta /\
    length momenta = num_points /\
    grid_energies (linalg := la) (kwant := kw) (numpy := np) g syst
                  (match args with None => [] | Some l => l end) momenta
    = Ok energies /\
    np_reshape energies num_points num_points = Ok cube /\
    np_min cube = Ok emin /\
    np_max cube = Ok emax /\
    length drawn = bands /\
    forall band i j,
      (band < bands)%nat -> (i < num_points)%nat -> (j < num_points)%nat ->
      exists s e,
        nth_error drawn band = Some s /\
        surface_vmin s = emin /\ surface_vmax s = emax /\
        grid_at (surface_x s) i j = nth j momenta 0 /\
        grid_at (surface_y s) i j = nth i momenta 0 /\
        energies_at (linalg := la) (kwant := kw) (numpy := np) g syst
                    (match args with None => [] | Some l => l end)
                    (nth i momenta 0) (nth j momenta 0) []
        = Ok [e] /\
        grid_at (surface_z s) i j = nth band e 0.
Proof.
  intros (Hlinspace & Hreshape & Hmeshgrid & Hslice) Hbands Hrun.
  apply dispersion_2D_drawn in Hrun.
  destruct Hrun as (momenta & energies & cube & emin & emax & X & Y
                    & Hmomenta & Hgrid & Hcube & Hmin & Hmax & Hmesh & ->).
  assert (Hn : length momenta = num_points) by (apply (Hlinspace _ _ _ _ Hmomenta)).
  destruct (grid_energies_spec la kw np g syst _ momenta energies Hgrid)
    as (Hlen & Hat).
  rewrite Hn in Hlen, Hat.
  destruct (Hreshape energies num_points num_points bands cube Hlen
              (grid_energies_bands la kw np g syst _ momenta energies bands Hbands Hgrid)
              Hcube) as (Hshape & Hcube_at).
  exists momenta, energies, cube, emin, emax.
  split; [exact Hmomenta |]. split; [exact Hn |]. split; [exact Hgrid |].
  split; [exact Hcube |]. split; [exact Hmin |]. split; [exact Hmax |].
  cbn [app]. rewrite Hshape. split; [rewrite length_map, length_seq; reflexivity |].
  intros band i j Hband Hi Hj.
  exists (mkSurface X Y (band_slice cube band) emin emax),
         (nth (i * num_points + j) energies []).
  split.
  { apply (map_nth_error (fun band => mkSurface X Y (band_slice cube band) emin emax)).
    rewrite nth_error_seq.
    destruct (Nat.ltb_spec band bands); [reflexivity | lia]. }
  cbn [surface_x surface_y surface_z surface_vmin surface_vmax].
  split; [reflexivity |]. split; [reflexivity |].
  destruct (Hmeshgrid momenta momenta X Y Hmesh i j) as (HX & HY);
    [rewrite Hn; exact Hi | rewrite Hn; exact Hj |].
  split; [exact HX |]. split; [exact HY |].
  split; [apply Hat; assumption |].
  rewrite Hslice by (rewrite Hshape; exact Hband).
  apply Hcube_at; assumption.
Qed.
End Axes.

(** *** The stand-in with nested lists does what the documentation says *)

Lemma linspace_length (start stop : R) (num : nat) :
  length (linspace start stop num) = num.
Proof.
  unfold linspace. destruct num as [| [| num]]; [reflexivity | reflexivity |].
  rewrite length_map, length_seq. reflexivity.
Qed.

Lemma chunks_nth {A : Type} (rows cols : nat) (l : list A) (i : nat) :
  (i < rows)%nat ->
  nth i (chunks rows cols l) [] = firstn cols (skipn (i * cols) l).
Proof.
  revert l i. induction rows as [| rows IH]; intros l i Hi; [lia |].
  destruct i as [| i]; simpl.
  - reflexivity.
  - rewrite IH by lia. rewrite skipn_skipn. f_equal. f_equal. lia.
Qed.

Lemma array_numpy_contract : numpy_contract array_numpy nested_indexing.
Proof.
  split; [| split; [| split]].
  - intros start stop num momenta H. injection H as <-. apply linspace_length.
  - intros energies n n' bands cube Hlen Hrows H.
    cbn [np_reshape array_numpy] in H. unfold array_reshape in H.
    destruct (Nat.eqb (length energies) (n * n')
              && negb (Nat.eqb (length (concat energies)) 0)) eqn:E; [| discriminate].
    injection H as <-. apply andb_prop in E. destruct E as [_ E].
    split.
    + destruct energies as [| e0 energies]; [discriminate E |].
      destruct n as [| n]; [discriminate Hlen |].
      destruct n' as [| n']; [simpl in Hlen; lia |].
      simpl. apply Hrows. left. reflexivity.
    + intros i j band Hi Hj Hband. cbn [cube_at nested_indexing].
      rewrite chunks_nth by exact Hi. rewrite nth_firstn.
      destruct (Nat.ltb_spec j n'); [| lia].
      rewrite nth_skipn. reflexivity.
  - intros xs ys X Y H i j Hi Hj. injection H as <- <-.
    cbn [grid_at nested_indexing]. split.
    + rewrite (nth_indep _ [] ((fun _ : R => xs) 0)) by (rewrite length_map; exact Hi).
      rewrite (map_nth (fun _ : R => xs) ys 0 i). reflexivity.
    + rewrite (nth_indep _ [] ((fun yv : R => map (fun _ : R => yv) xs) 0))
        by (rewrite length_map; exact Hi).
      rewrite (map_nth (fun yv : R => map (fun _ : R => yv) xs) ys 0 i).
      rewrite (nth_indep _ 0 ((fun _ : R => nth i ys 0) 0))
        by (rewrite length_map; exact Hj).
      rewrite (map_nth (fun _ : R => nth i ys 0) xs 0 j). reflexivity.
  - intros cube band i j _. cbn [grid_at cube_at band_slice array_numpy nested_indexing].
    set (f := fun e : list R => nth band e 0).
    change (nth i (map (map f) cube) []) with (nth i (map (map f) cube) (map f [])).
    rewrite (map_nth (map f) cube [] i).
    assert (Hf : f [] = 0) by (unfold f; destruct band; reflexivity).
    rewrite <- Hf at 1. rewrite (map_nth f). reflexivity.
Qed.

Lemma array_numpy_one_band : eigvalsh_returns array_numpy 1.
Proof. intros h e H. injection H as <-. reflexivity. Qed.

(** A run on the stand-in libraries, with a grid of two by two points. *)
Lemma dispersion_2D_draws_on_stand_in :
  exists drawn,
    dispersion_2D (linalg := drawing_linalg _ exact_linalg)
                  (kwant := drawing_kwant _ oneband_kwant)
                  (numpy := drawing_numpy array_numpy)
                  (pyplot := drawing_pyplot _)
                  notebook tt None 1 2 []
    = (Ok tt, drawn).
Proof.
  unfold dispersion_2D. cbv zeta. cbn [bind Monad_drawing].
  unfold drawing_bind at 1. cbn [np_linspace drawing_numpy array_numpy].
  unfold no_drawing at 1. unfold linspace. cbn [seq map Nat.sub].
  unfold drawing_bind at 1. rewrite grid_energies_draws_nothing.
  unfold grid_energies. cbn [for_ bind Monad_result].
  repeat (rewrite (energies_at_closed_form exact_linalg oneband_kwant array_numpy
                     exact_inv_contract exact_solve_contract);
          unfold library_only_energies_at;
          cbn [bind ret Monad_result result_bind hamiltonian_submatrix oneband_kwant
               np_linalg_eigvalsh array_numpy app]).
  unfold drawing_bind at 1. cbn [np_reshape drawing_numpy array_numpy].
  unfold no_drawing at 1, array_reshape.
  cbn [length concat app Nat.eqb Nat.mul Nat.add andb negb chunks firstn skipn].
  unfold drawing_bind at 1. cbn [np_min drawing_numpy array_numpy].
  unfold no_drawing at 1, array_min. cbn [concat app].
  unfold drawing_bind at 1. cbn [np_max drawing_numpy array_numpy].
  unfold no_drawing at 1, array_max. cbn [concat app].
  unfold drawing_bind at 1. cbn [np_meshgrid drawing_numpy array_numpy].
  unfold no_drawing at 1.
  unfold drawing_bind at 1. cbn [pyplot_figure drawing_pyplot]. unfold no_drawing at 1.
  unfold drawing_bind at 1. cbn [add_subplot drawing_pyplot]. unfold no_drawing at 1.
  cbn [fst snd band_slice drawing_numpy].
  rewrite plot_loop. eexists. reflexivity.
Qed.

Lemma dispersion_2D_surface_axes_witness :
  exists drawn,
    dispersion_2D (linalg := drawing_linalg _ exact_linalg)
                  (kwant := drawing_kwant _ oneband_kwant)
                  (numpy := drawing_numpy array_numpy)
                  (pyplot := drawing_pyplot _)
                  notebook tt None 1 2 []
    = (Ok tt, drawn) /\
    length drawn = 1%nat.
Proof.
  destruct dispersion_2D_draws_on_stand_in as (drawn & Hrun).
  exists drawn. split; [exact Hrun |].
  destruct (dispersion_2D_surface_axes exact_linalg oneband_kwant array_numpy
              nested_indexing notebook tt None 1 2 1 drawn
              array_numpy_contract array_numpy_one_band Hrun)
    as (momenta & energies & cube & emin & emax & _ & _ & _ & _ & _ & _ & Hlen & _).
  exact Hlen.
Defined.

(** X10: the two nested loops of [dispersion_2D] fill [energies] row by
    row, with [kx] as the slow index: when they return, the list has
    [len(momenta)^2] entries, and the entry [i * len(momenta) + j] holds the
    eigenvalues that the loop body computes at [kx = momenta[i]],
    [ky = momenta[j]]. *)
Theorem grid_energies_row_major {Builder Syst Ham Cube Grid Evec : Type}
  (la : Linalg result) (kw : Kwant result Builder Syst Ham)
  (np : Numpy result Ham Cube Grid Evec) (g : namespace) (syst : Syst)
  (args : list arg) (momenta : list R) (energies : list (list R)) :
  grid_energies g syst args momenta = Ok energies ->
  length energies = (length momenta * length momenta)%nat /\
  forall i j, (i < length momenta)%nat -> (j < length momenta)%nat ->
    energies_at g syst args (nth i momenta 0) (nth j momenta 0) []
    = Ok [nth (i * length momenta + j) energies []].
Proof.
  unfold grid_energies. intros H.
  apply (outer_loop_appends la kw np) in H.
  destruct H as (es & -> & Hlen & Hes). simpl. split; assumption.
Qed.

Lemma grid_energies_row_major_witness :
  exists energies,
    grid_energies (linalg := exact_linalg) (kwant := oneband_kwant)
                  (numpy := list_numpy) notebook tt [] [0; 1]
    = Ok energies /\
    length energies = 4%nat.
Proof.
  assert (Hrun : exists energies,
             grid_energies (linalg := exact_linalg) (kwant := oneband_kwant)
                           (numpy := list_numpy) notebook tt [] [0; 1]
             = Ok energies).
  { unfold grid_energies. cbn [for_ bind Monad_result].
    repeat (rewrite (energies_at_closed_form exact_linalg oneband_kwant list_numpy
                       exact_inv_contract exact_solve_contract);
            unfold library_only_energies_at;
            cbn [bind ret Monad_result result_bind hamiltonian_submatrix oneband_kwant
                 np_linalg_eigvalsh list_numpy app]).
    eexists. reflexivity. }
  destruct Hrun as (energies & Hrun). exists energies. split; [exact Hrun |].
  exact (proj1 (grid_energies_row_major exact_linalg oneband_kwant list_numpy
                  notebook tt [] [0; 1] energies Hrun)).
Defined.

(** X11: the loops of [dispersion_2D] return exactly when the loop body
    returns at every point of the grid: no grid point is skipped and no
    failure is passed over. *)
Theorem grid_energies_returns_iff {Builder Syst Ham Cube Grid Evec : Type}
  (la : Linalg result) (kw : Kwant result Builder Syst Ham)
  (np : Numpy result Ham Cube Grid Evec) (g : namespace) (syst : Syst)
  (args : list arg) (momenta : list R) :
  (exists energies, grid_energies g syst args momenta = Ok energies) <->
  (forall kx ky, In kx momenta -> In ky momenta ->
     exists l, energies_at g syst args kx ky [] = Ok l).
Proof.
  split.
  - intros (energies & Hgrid) kx ky Hx Hy.
    destruct (grid_energies_spec la kw np g syst args momenta energies Hgrid)
      as (_ & Hat).
    destruct (In_nth momenta kx 0 Hx) as (i & Hi & <-).
    destruct (In_nth momenta ky 0 Hy) as (j & Hj & <-).
    eexists. apply Hat; assumption.
  - intros H. unfold grid_energies. apply outer_loop_returns. exact H.
Qed.

(** ** The dot for any radius *)

Lemma circle_radius (g : Dot.namespace) (x y : R) :
  Dot.circle g (x, y) = Rltb (x ^ 2 + y ^ 2) (IZR (Dot.r g) ^ 2).
Proof.
  unfold Dot.circle. apply Rltb_ext; [reflexivity |].
  rewrite pow_IZR. reflexivity.
Qed.

(** X12: [circle] for any value of the global [r] it reads: the open disc
    of radius [|r|] around the origin.  A point inside has both coordinates
    smaller than [|r|]; the sign of [r] and the global [t] do not matter;
    and with [r = 0] no point is inside, so that the shape of cell
    [244-253] has no site at its start and building the dot is a
    [ValueError], whatever the bound on the flood fill. *)
Theorem circle_any_radius (g : Dot.namespace) (x y : R) :
  (Dot.circle g (x, y) = true <-> sqrt (x ^ 2 + y ^ 2) < Rabs (IZR (Dot.r g))) /\
  (Dot.circle g (x, y) = true ->
     Rabs x < Rabs (IZR (Dot.r g)) /\ Rabs y < Rabs (IZR (Dot.r g))) /\
  (forall t', Dot.circle (Dot.mkNamespace t' (- Dot.r g)) (x, y)
              = Dot.circle g (x, y)) /\
  (Dot.r g = 0%Z ->
     Dot.circle g (x, y) = false /\
     forall fuel, DotModel.build_sys g fuel = Some (Raise ValueError)).
Proof.
  assert (Hsq : 0 <= x ^ 2 + y ^ 2) by nra.
  assert (Hiff : Dot.circle g (x, y) = true
                 <-> sqrt (x ^ 2 + y ^ 2) < Rabs (IZR (Dot.r g))).
  { rewrite circle_radius, Rltb_true_iff.
    rewrite <- (sqrt_Rsqr_abs (IZR (Dot.r g))). unfold Rsqr.
    replace (IZR (Dot.r g) ^ 2) with (IZR (Dot.r g) * IZR (Dot.r g)) by ring.
    split.
    - intros H. apply sqrt_lt_1; [exact Hsq | nra | exact H].
    - intros H. apply sqrt_lt_0; [exact Hsq | nra | exact H]. }
  split; [exact Hiff |]. split; [| split].
  - rewrite circle_radius, Rltb_true_iff. intros H.
    split; apply Rsqr_lt_abs_0; unfold Rsqr; nra.
  - intros t'. rewrite !circle_radius. apply Rltb_ext; [reflexivity |].
    cbn [Dot.r]. rewrite opp_IZR. ring.
  - intros Hr. assert (Hfalse : forall p, Dot.circle g p = false).
    { intros [px py]. rewrite circle_radius, Hr. apply Rltb_false_iff. nra. }
    split; [apply Hfalse |].
    intros fuel. unfold DotModel.build_sys, shape, shape_sites, hits.
    cbn [DotModel.lat kwant_lattice_square basis length seq map filter].
    rewrite Hfalse. reflexivity.
Qed.

Lemma circle_any_radius_witness :
  Rabs 3 < Rabs (IZR (Dot.r (Dot.mkNamespace 1 (-6)))) /\
  DotModel.build_sys (Dot.mkNamespace 1 0) 30 = Some (Raise ValueError).
Proof.
  split.
  - apply (circle_any_radius (Dot.mkNamespace 1 (-6)) 3 4).
    apply (circle_any_radius (Dot.mkNamespace 1 (-6)) 3 4).
    replace (3 ^ 2 + 4 ^ 2) with (Rsqr 5) by (unfold Rsqr; ring).
    rewrite sqrt_Rsqr by lra. cbn [Dot.r].
    rewrite Rabs_left by lra. lra.
  - apply (circle_any_radius (Dot.mkNamespace 1 0) 0 0). reflexivity.
Defined.

(** ** The zigzag ribbon *)

Lemma sqrt3_bounds : 1.732 < sqrt 3 < 1.733.
Proof.
  assert (Hs := sqrt3_sq). assert (Hp := sqrt3_pos). split; nra.
Qed.

Lemma graphene_pos_a (i j : Z) :
  pos (graphene notebook) (mkSite (a notebook) (i, j))
  = (IZR i + IZR j / 2, IZR j * (sqrt 3 / 2)).
Proof. unfold pos. simpl. pair_eq; field. Qed.

Lemma graphene_pos_b (i j : Z) :
  pos (graphene notebook) (mkSite (b notebook) (i, j))
  = (IZR i + IZR j / 2, IZR j * (sqrt 3 / 2) + 1 / sqrt 3).
Proof. unfold pos. simpl. pair_eq; field; exact sqrt3_neq_0. Qed.

(** X13: the ribbon [abs(pos[1]) < 9] of cells 8 and 24 on the graphene
    lattice.  Whether a site is inside depends on its row [j] and its
    sublattice only, not on [i]; the rows inside are [-10 <= j <= 10] on
    sublattice [a] and [-11 <= j <= 9] on sublattice [b]: 21 rows of each,
    the upper edge made of sites of [a] and the lower edge of sites of
    [b]. *)
Theorem zigzag_ribbon_rows (i j : Z) :
  (ribbon (pos (graphene notebook) (mkSite (a notebook) (i, j))) = true
   <-> (-10 <= j <= 10)%Z) /\
  (ribbon (pos (graphene notebook) (mkSite (b notebook) (i, j))) = true
   <-> (-11 <= j <= 9)%Z).
Proof.
  assert (Hs := sqrt3_bounds). assert (Hsq := sqrt3_sq).
  assert (Hinv : 1 / sqrt 3 = sqrt 3 / 3).
  { field_simplify_eq; [| exact sqrt3_neq_0]. lra. }
  unfold ribbon. rewrite graphene_pos_a, graphene_pos_b. cbn [snd].
  rewrite !Rltb_true_iff. rewrite Hinv. split; split.
  - intros H. apply Rabs_def2 in H. destruct H as [Hlt Hgt].
    split.
    + destruct (Z_le_gt_dec (-10) j) as [Hj | Hj]; [exact Hj | exfalso].
      assert (Hr : IZR j <= -11) by (apply IZR_le; lia). nra.
    + destruct (Z_le_gt_dec j 10) as [Hj | Hj]; [exact Hj | exfalso].
      assert (Hr : 11 <= IZR j) by (apply IZR_le; lia). nra.
  - intros [Hlo Hhi]. apply IZR_le in Hlo, Hhi.
    apply Rabs_def1; nra.
  - intros H. apply Rabs_def2 in H. destruct H as [Hlt Hgt].
    split.
    + destruct (Z_le_gt_dec (-11) j) as [Hj | Hj]; [exact Hj | exfalso].
      assert (Hr : IZR j <= -12) by (apply IZR_le; lia). nra.
    + destruct (Z_le_gt_dec j 9) as [Hj | Hj]; [exact Hj | exfalso].
      assert (Hr : 10 <= IZR j) by (apply IZR_le; lia). nra.
  - intros [Hlo Hhi]. apply IZR_le in Hlo, Hhi.
    apply Rabs_def1; nra.
Qed.

(** ** The density that [plot_wf] plots *)

Lemma Cabs_sq (z : C) : Cabs z ^ 2 = fst z ^ 2 + snd z ^ 2.
Proof.
  unfold Cabs. rewrite pow2_sqrt; [reflexivity | nra].
Qed.

Lemma Cabs_sq_phase (theta : R) (z : C) :
  Cabs (Cmul (cexp theta) z) ^ 2 = Cabs z ^ 2.
Proof.
  rewrite !Cabs_sq. destruct z as [x y]. unfold Cmul, cexp. cbn [fst snd].
  assert (H := sin2_cos2 theta). unfold Rsqr in H. nra.
Qed.

(** X14: [plot_wf] plots [abs(evec[:, i])**2], the squares of the real and
    the imaginary part of every component, which are not negative; so the
    call does not depend on the phase of the eigenvector: with a column
    that differs from [evec[:, i]] by a factor [exp(1j * theta)] the same
    lines are printed and the same values are handed to the plotter. *)
Theorem plot_wf_phase_invariant {Builder Syst Ham Cube Grid Evec : Type}
  (kw : Kwant result Builder Syst Ham) (np : Numpy result Ham Cube Grid Evec)
  (bi : Builtins result) (sys : Syst) (eval_ : list R) (evec evec' : Evec)
  (i : Z) (col : list C) (theta : R) :
  column evec i = Ok col ->
  column evec' i = Ok (map (Cmul (cexp theta)) col) ->
  Dot.plot_wf sys eval_ evec' i = Dot.plot_wf sys eval_ evec i /\
  Dot.plot_wf sys eval_ evec i
  = (print (PrintIndex i) ;;
     e <- getitem eval_ i ;;
     print (PrintEnergy e) ;;
     plotter_map sys (map (fun z => fst z ^ 2 + snd z ^ 2) col)) /\
  Forall (fun density => 0 <= density) (map (fun z => Cabs z ^ 2) col).
Proof.
  intros Hcol Hcol'.
  assert (Hdens : map (fun z => Cabs z ^ 2) (map (Cmul (cexp theta)) col)
                  = map (fun z => Cabs z ^ 2) col).
  { rewrite map_map. apply map_ext. intros z. apply Cabs_sq_phase. }
  assert (Hsq : map (fun z => Cabs z ^ 2) col
                = map (fun z => fst z ^ 2 + snd z ^ 2) col).
  { apply map_ext. intros z. apply Cabs_sq. }
  split; [| split].
  - unfold Dot.plot_wf. rewrite Hcol, Hcol'.
    cbn [bind Monad_result result_bind]. rewrite Hdens. reflexivity.
  - unfold Dot.plot_wf. rewrite Hcol.
    cbn [bind Monad_result result_bind]. rewrite Hsq. reflexivity.
  - rewrite Hsq. apply Forall_forall. intros d Hin.
    apply in_map_iff in Hin. destruct Hin as (z & <- & _). nra.
Qed.

Lemma plot_wf_phase_invariant_witness :
  Dot.plot_wf (kwant := oneband_kwant) (numpy := list_numpy)
              (builtins := silent_builtins) tt [4] [[Cmul (cexp PI) (1, 0)]] 0
  = Dot.plot_wf (kwant := oneband_kwant) (numpy := list_numpy)
                (builtins := silent_builtins) tt [4] [[(1, 0)]] 0.
Proof.
  exact (proj1 (plot_wf_phase_invariant oneband_kwant list_numpy silent_builtins
                  tt [4] [[(1, 0)]] [[Cmul (cexp PI) (1, 0)]] 0 [(1, 0)] PI
                  eq_refl eq_refl)).
Defined.

(** ** Graphene at the Dirac points *)

Lemma graphene_neighbors_between (g : namespace) :
  a g <> b g -> between_sublattices (graphene_neighbors_1 g).
Proof. intros H. repeat constructor; exact H. Qed.

Lemma graphene_entry_ab (k : vec2) :
  Bloch.bloch_entry (Bloch.bulk_graphene notebook (graphene_neighbors_1 notebook)) []
                    k (site_a notebook) (site_b notebook)
  = (1 + cos (snd k) + cos (fst k - snd k), - sin (snd k) + sin (fst k - snd k)).
Proof.
  destruct k as [k1 k2].
  unfold Bloch.bloch_entry. simpl. unfold Bloch.contribution. simpl.
  unfold phase, cexp. simpl.
  replace (0 * k1 + -1 * k2) with (- k2) by ring.
  replace (0 * k1 + 0 * k2) with 0 by ring.
  replace (1 * k1 + -1 * k2) with (k1 - k2) by ring.
  rewrite cos_neg, sin_neg, cos_0, sin_0.
  unfold Cadd, Cmul, RtoC. simpl. pair_eq; ring.
Qed.

Lemma cos_4PI3 : cos (2 * (PI / 3) - - (2 * (PI / 3))) = - (1 / 2).
Proof.
  replace (2 * (PI / 3) - - (2 * (PI / 3))) with (PI / 3 + PI) by field.
  rewrite neg_cos, cos_PI3. reflexivity.
Qed.

Lemma sin_4PI3_pos : sin (2 * (PI / 3) - - (2 * (PI / 3))) = - (sqrt 3 / 2).
Proof.
  replace (2 * (PI / 3) - - (2 * (PI / 3))) with (PI / 3 + PI) by field.
  rewrite neg_sin, sin_PI3. reflexivity.
Qed.

Lemma graphene_entry_ab_K :
  Bloch.bloch_entry (Bloch.bulk_graphene notebook (graphene_neighbors_1 notebook)) []
                    dirac_K (site_a notebook) (site_b notebook)
  = RtoC 0.
Proof.
  rewrite graphene_entry_ab. unfold dirac_K. cbn [fst snd].
  rewrite cos_4PI3, sin_4PI3_pos, cos_neg, sin_neg, cos_2PI3, sin_2PI3.
  unfold RtoC. pair_eq; field.
Qed.

Lemma graphene_entry_ab_K' :
  Bloch.bloch_entry (Bloch.bulk_graphene notebook (graphene_neighbors_1 notebook)) []
                    dirac_K' (site_a notebook) (site_b notebook)
  = RtoC 0.
Proof.
  rewrite graphene_entry_ab. unfold dirac_K', dirac_K, neg_k. cbn [fst snd].
  replace (- (2 * (PI / 3)) - - - (2 * (PI / 3)))
    with (- (2 * (PI / 3) - - (2 * (PI / 3)))) by ring.
  rewrite !cos_neg, !sin_neg, cos_4PI3, sin_4PI3_pos, cos_2PI3, sin_2PI3.
  unfold RtoC. pair_eq; field.
Qed.

Lemma graphene_entry_ba (k : vec2) :
  Bloch.bloch_entry (Bloch.bulk_graphene notebook (graphene_neighbors_1 notebook)) []
                    k (site_b notebook) (site_a notebook)
  = Cconj (Bloch.bloch_entry
             (Bloch.bulk_graphene notebook (graphene_neighbors_1 notebook)) []
             k (site_a notebook) (site_b notebook)).
Proof.
  change Cconj with (@herm_conj C Orbital_C). apply bloch_entry_hermitian.
  intros s. simpl. unfold Cconj, RtoC. simpl. pair_eq; ring.
Qed.

(** X15: graphene and the Haldane model at the Dirac points.  The three
    hopping kinds of [graphene.neighbors(1)] join sites at the distance
    [1 / sqrt 3]; with them the entry of the Bloch Hamiltonian of graphene
    (cell 6) between the two sublattices is
    [1 + exp(-1j k2) + exp(1j (k1 - k2))] at the lattice momentum
    [(k1, k2)], and it vanishes at the two Dirac points
    [(2 pi / 3, - 2 pi / 3)] and [(- 2 pi / 3, 2 pi / 3)]: there the
    Hamiltonian of graphene is zero and the one of the Haldane model
    (cell 16) is diagonal. *)
Theorem graphene_dirac_points (params : SimpleNamespace) :
  let nn := graphene_neighbors_1 notebook in
  let H0 := Bloch.bloch_entry (Bloch.bulk_graphene notebook nn) [] in
  let H := Bloch.bloch_entry (Bloch.haldane notebook nn) [ArgParams params] in
  (forall kind tg, In kind nn ->
     distance2 (pos (graphene notebook) (mkSite (family_a kind) tg))
               (pos (graphene notebook)
                    (mkSite (family_b kind) (tag_sub tg (delta kind))))
     = 1 / 3) /\
  (forall k, H0 k (site_a notebook) (site_b notebook)
             = Cadd (RtoC 1) (Cadd (cexp (- snd k)) (cexp (fst k - snd k)))) /\
  (forall K r c, K = dirac_K \/ K = dirac_K' ->
     In r [site_a notebook; site_b notebook] ->
     In c [site_a notebook; site_b notebook] ->
     H0 K r c = RtoC 0 /\ (r <> c -> H K r c = RtoC 0)).
Proof.
  intros nn H0 H. subst nn H0 H.
  assert (Hnn : between_sublattices (graphene_neighbors_1 notebook))
    by (apply graphene_neighbors_between; discriminate).
  split; [| split].
  - intros kind [i j] Hin. assert (Hs := sqrt3_sq).
    assert (Hinv : 1 / sqrt 3 = sqrt 3 / 3).
    { field_simplify_eq; [| exact sqrt3_neq_0]. lra. }
    destruct Hin as [<- | [<- | [<- | []]]];
      cbn [family_a family_b delta]; unfold tag_sub; cbn [fst snd];
      rewrite graphene_pos_a, graphene_pos_b; unfold distance2; cbn [fst snd];
      rewrite ?minus_IZR, ?opp_IZR, Hinv; nra.
  - intros k. rewrite graphene_entry_ab. unfold cexp, Cadd, RtoC. cbn [fst snd].
    rewrite cos_neg, sin_neg. pair_eq; ring.
  - intros K r c HK Hr Hc.
    assert (Hab : Bloch.bloch_entry
                    (Bloch.bulk_graphene notebook (graphene_neighbors_1 notebook)) []
                    K (site_a notebook) (site_b notebook) = RtoC 0).
    { destruct HK as [-> | ->]; [apply graphene_entry_ab_K | apply graphene_entry_ab_K']. }
    assert (Hba : Bloch.bloch_entry
                    (Bloch.bulk_graphene notebook (graphene_neighbors_1 notebook)) []
                    K (site_b notebook) (site_a notebook) = RtoC 0).
    { rewrite graphene_entry_ba, Hab. unfold Cconj, RtoC. simpl. pair_eq; ring. }
    destruct Hr as [<- | [<- | []]]; destruct Hc as [<- | [<- | []]].
    + split; [apply graphene_diagonal; exact Hnn | intros Hneq; contradiction Hneq; reflexivity].
    + split; [exact Hab |]. intros _. rewrite haldane_offdiagonal by discriminate. exact Hab.
    + split; [exact Hba |]. intros _. rewrite haldane_offdiagonal by discriminate. exact Hba.
    + split; [apply graphene_diagonal; exact Hnn | intros Hneq; contradiction Hneq; reflexivity].
Qed.

Lemma graphene_dirac_points_witness :
  Bloch.bloch_entry (Bloch.bulk_graphene notebook (graphene_neighbors_1 notebook)) []
                    dirac_K (site_a notebook) (site_b notebook) = RtoC 0 /\
  Bloch.bloch_entry (Bloch.haldane notebook (graphene_neighbors_1 notebook))
                    [ArgParams (mkParams 1 2)]
                    dirac_K' (site_b notebook) (site_a notebook) = RtoC 0.
Proof.
  destruct (graphene_dirac_points (mkParams 1 2)) as (_ & _ & H).
  split.
  - apply (H dirac_K (site_a notebook) (site_b notebook)).
    + left. reflexivity.
    + left. reflexivity.
    + right. left. reflexivity.
  - apply (H dirac_K' (site_b notebook) (site_a notebook)).
    + right. reflexivity.
    + right. left. reflexivity.
    + left. reflexivity.
    + discriminate.
Defined.

(** ** Kramers degeneracy *)

(** A Hermitian 2x2 matrix that time reversal leaves alone is a real
    multiple of the identity. *)
Lemma time_reversal_hermitian_scalar (X : cmat2) :
  herm_conj X = X -> time_reversal X = X ->
  X = to_complex (mat2_scale_r s0 (fst (fst (fst X)))).
Proof.
  destruct X as [[[p1 p2] [q1 q2]] [[u1 u2] [s1 s2]]].
  unfold time_reversal, sy, mat2_scale_r. simpl.
  unfold cmat2_dagger, cmat2_mul, Mat2_map, Cadd, Cmul, Cconj, Copp, RtoC, Ci, s0.
  simpl. intros Hh Ht.
  injection Hh as Hh1 Hh2 Hh3 Hh4 Hh5 Hh6.
  injection Ht as Ht1 Ht2 Ht3 Ht4 Ht5 Ht6 Ht7 Ht8.
  pair_eq; lra.
Qed.

(** X16: Kramers degeneracy of the Kane-Mele model.  At a lattice momentum
    that is its own opposite up to a reciprocal lattice vector, such as
    [(0, 0)], [(pi, 0)], [(0, pi)] and [(pi, pi)], every block of the Bloch
    Hamiltonian of cells 22 and 23 is its own time reverse, and each
    diagonal block is a real multiple of the identity matrix: the two spin
    states of a site have the same energy there. *)
Theorem kane_mele_kramers (g : namespace) (neighbors_1 : list HoppingKind)
  (params : SimpleNamespace) (k : vec2) :
  time_reversal_invariant_momentum k ->
  let H := Bloch.bloch_entry (Bloch.bulk_kane_mele g neighbors_1)
                             [ArgParams params] k in
  (forall r c, time_reversal (H r c) = H r c) /\
  (forall r, exists x : R, H r r = to_complex (mat2_scale_r s0 x)).
Proof.
  intros (n1 & n2 & H1 & H2) H. subst H.
  assert (Hsym : forall r c,
             time_reversal (Bloch.bloch_entry (Bloch.bulk_kane_mele g neighbors_1)
                                              [ArgParams params] k r c)
             = Bloch.bloch_entry (Bloch.bulk_kane_mele g neighbors_1)
                                 [ArgParams params] k r c).
  { intros r c.
    rewrite (bloch_entry_antimap time_reversal time_reversal_vzero time_reversal_vadd
               time_reversal_vscale time_reversal_herm_conj
               (Bloch.bulk_kane_mele g neighbors_1) (Bloch.bulk_kane_mele g neighbors_1)
               [ArgParams params] [ArgParams params] k);
      [| intros s; simpl; apply (kane_mele_values_time_reversal g params)
       | apply kane_mele_hoppings_time_reversal].
    rewrite <- (bloch_entry_periodic _ _ (neg_k k) n1 n2 r c).
    f_equal. unfold neg_k. cbn [fst snd]. destruct k as [k1 k2].
    cbn [fst snd] in *. apply f_equal2; lra. }
  split; [exact Hsym |].
  intros r. eexists. apply time_reversal_hermitian_scalar; [| apply Hsym].
  symmetry. apply (bloch_entry_hermitian (V := cmat2)).
  intros s. simpl. unfold KaneMele.onsite, mat2_scale_r. c_crush. pair_eq; ring.
Qed.

Lemma kane_mele_kramers_witness :
  time_reversal_invariant_momentum (PI, 0) /\
  forall r c,
    time_reversal (Bloch.bloch_entry (Bloch.bulk_kane_mele notebook (graphene_neighbors_1 notebook))
                                     [ArgParams (mkParams 1 2)] (PI, 0) r c)
    = Bloch.bloch_entry (Bloch.bulk_kane_mele notebook (graphene_neighbors_1 notebook))
                        [ArgParams (mkParams 1 2)] (PI, 0) r c.
Proof.
  assert (Hk : time_reversal_invariant_momentum (PI, 0)).
  { exists 1%Z, 0%Z. cbn [fst snd]. split; lra. }
  split; [exact Hk |].
  exact (proj1 (kane_mele_kramers notebook (graphene_neighbors_1 notebook) (mkParams 1 2) (PI, 0) Hk)).
Defined.
